(** * VectorEmbedding: chunking, similarity ranking, clustering and the RAG pipeline

    A shallow embedding of the JavaScript services and controllers of
    the repository (DocumentService, SimilarityService, RAGController,
    WordClusteringController, EmbeddingService, PineconeVectorService)
    and the proofs of properties of them.

    Conventions of the embedding.
    - A JavaScript string is the list of its UTF-16 code units.
    - An integer-valued number is a [Z] where the code lets it be any
      integer (the loop index of [createChunks], the chunk configuration,
      [topK]) and a [nat] where it is a length or a position.
    - A similarity score is a [Q]: the rational a finite double denotes.
      The code only compares scores and takes the sign of a difference of
      two scores; both are exact on finite doubles.  A decimal literal
      of the source is the double it denotes ([double_0_9] for [0.9]).
      NaN, the infinities and a null score are outside the model: the
      statements about scores are about finite ones.  Where the code
      formats doubles ([toFixed]) or keeps the double of a quotient,
      the operation is a parameter.
    - [null] and [undefined] are [None], except where the code tells
      them apart ([EmbeddingService.Embedding]).
    - An object used as a dictionary is the list or map of the
      properties it has of its own, and it is read at keys it has.
      Where the code reads a key that the object may not have (the
      matrix in [createSimilarityMatrix]), what the object inherits
      from [Object.prototype] is a parameter ([inherits],
      [inheritedMember]).  An assignment to the key [__proto__], which
      replaces the prototype of the object and creates no property, is
      not modelled: the statements about the keys of an object that is
      built by assignments exclude that key.
    - A [Map] is an insertion-ordered association list ([JsMap]); the
      object a matrix is built in is a [gmap]; the [Set] of visited words
      is a [gset]; an object whose keys are listed is a [JsObject].
    - An exception is the [Throw] branch of [result]; a call that never
      returns is [None] (or [Hang] in an async method).
    - The controllers take the answers of the services behind them
      (embedding service, vector service) as inputs; the services take
      the answers of the remote clients as inputs; [wired] puts the
      repository's services behind the controller.  An answer is a
      function of the request: a service or a remote API is taken to
      answer equal requests equally.  The cosine package and the case
      mapping of strings are parameters. *)


From Stdlib Require Import ZArith QArith Qabs Lia Lqa String Ascii List.
From stdpp Require Import base option list sorting gmap pretty.

#[local] Set Warnings "-clear-no-such-hyp".

Local Open Scope Z_scope.

(** ** JavaScript strings and arrays *)

Module Js.

(** A string: UTF-16 code units. *)
Definition jsstring : Type := list N.

(** An ASCII literal of the source as a JavaScript string. *)
Definition js (s : string) : jsstring :=
  map N_of_ascii (list_ascii_of_string s).

(** The class [\s] of regular expressions, which is also what
    [String.prototype.trim] strips: WhiteSpace and LineTerminator. *)
Definition is_space (c : N) : bool :=
  ((9 <=? c) && (c <=? 13) || (c =? 32) || (c =? 160) || (c =? 5760)
   || (8192 <=? c) && (c <=? 8202) || (c =? 8232) || (c =? 8233)
   || (c =? 8239) || (c =? 8287) || (c =? 12288) || (c =? 65279))%N.

(** [s.split(/\s+/)].  [cur] is the piece being read, [in_space] tells
    that the previous code unit belonged to the separator just matched.
    A separator at the very start yields a leading empty piece, one at
    the very end a trailing empty piece, and the empty string yields one
    empty piece. *)
Fixpoint split_go (in_space : bool) (cur : jsstring) (s : jsstring)
  : list jsstring :=
  match s with
  | [] => [cur]
  | c :: rest =>
      if is_space c then
        if in_space then split_go true cur rest
        else cur :: split_go true [] rest
      else split_go false (cur ++ [c]) rest
  end.

Definition split_ws (s : jsstring) : list jsstring := split_go false [] s.

(** [l.join(sep)] *)
Fixpoint join (sep : jsstring) (l : list jsstring) : jsstring :=
  match l with
  | [] => []
  | [x] => x
  | x :: rest => x ++ sep ++ join sep rest
  end.

Fixpoint trim_start (s : jsstring) : jsstring :=
  match s with
  | [] => []
  | c :: rest => if is_space c then trim_start rest else s
  end.

Definition trim_end (s : jsstring) : jsstring := rev (trim_start (rev s)).

(** [s.trim()] *)
Definition trim (s : jsstring) : jsstring := trim_end (trim_start s).

(** The clamping of one bound of [Array.prototype.slice]: a negative
    bound counts from the end. *)
Definition slice_bound (len rel : Z) : Z :=
  if rel <? 0 then Z.max (len + rel) 0 else Z.min rel len.

(** [l.slice(start, stop)] *)
Definition slice {A : Type} (l : list A) (start stop : Z) : list A :=
  let len := Z.of_nat (length l) in
  let k := slice_bound len start in
  let final := slice_bound len stop in
  take (Z.to_nat (final - k)) (drop (Z.to_nat k) l).

(** The decimal digits of a length, as a template literal prints it. *)
Definition decimal (n : nat) : jsstring := js (pretty n).

(** [s.startsWith(sub)] and [s.includes(sub)] *)
Fixpoint startsWith (s sub : jsstring) : bool :=
  match sub, s with
  | [], _ => true
  | _ :: _, [] => false
  | c :: sub', d :: s' => (c =? d)%N && startsWith s' sub'
  end.

Fixpoint includes (s sub : jsstring) : bool :=
  startsWith s sub
  || match s with
     | [] => false
     | _ :: s' => includes s' sub
     end.

End Js.

Import Js.

(** ** Exceptions *)

Inductive JsError : Type :=
| InvalidEmbeddings                  (* "Invalid embeddings provided" *)
| TargetNotFound (w : jsstring)      (* Target word "w" not found in embeddings *)
| DocumentNotFound (d : jsstring)    (* Document d not found *)
| NotInitialized                     (* "RAG system not initialized. Call initialize() first." *)
| EmbeddingUnavailable               (* "Embedding service is not available" *)
| VectorUnavailable                  (* "Vector service (Pinecone) is not available" *)
| QueryEmbeddingFailed               (* "Failed to generate query embedding" *)
| External (msg : jsstring).         (* thrown by a library or a remote service *)

Inductive result (A : Type) : Type :=
| Ok (a : A)
| Throw (e : JsError).

Arguments Ok {A} a.
Arguments Throw {A} e.

Definition bind {A B : Type} (r : result A) (k : A -> result B) : result B :=
  match r with
  | Ok a => k a
  | Throw e => Throw e
  end.

Notation "'let!' x ':=' r 'in' k" := (bind r (fun x => k))
  (at level 10, x name, r at level 100, k at level 200, only parsing).

(** A loop over a list whose body may throw: the first exception leaves
    the loop. *)
Fixpoint foldM {A S : Type} (body : S -> A -> result S) (l : list A) (s : S)
  : result S :=
  match l with
  | [] => Ok s
  | x :: rest => let! s' := body s x in foldM body rest s'
  end.

(** The elements of an array with their indices, as a counting loop or
    [forEach((x, index) => ...)] meets them. *)
Definition indexed {A : Type} (l : list A) : list (nat * A) :=
  imap (fun i x => (i, x)) l.

(** ** Map: insertion-ordered, one entry per key *)

Module JsMap.

Definition t (V : Type) : Type := list (jsstring * V).

Definition empty {V : Type} : t V := [].

Fixpoint get {V : Type} (k : jsstring) (m : t V) : option V :=
  match m with
  | [] => None
  | (k', v) :: rest => if decide (k' = k) then Some v else get k rest
  end.

(** [m.set(k, v)]: an existing key keeps its place, a new key goes last. *)
Fixpoint set {V : Type} (k : jsstring) (v : V) (m : t V) : t V :=
  match m with
  | [] => [(k, v)]
  | (k', v') :: rest =>
      if decide (k' = k) then (k, v) :: rest else (k', v') :: set k v rest
  end.

(** [Array.from(m.values())] *)
Definition values {V : Type} (m : t V) : list V := map snd m.

(** [m.size] *)
Definition size {V : Type} (m : t V) : nat := length m.

End JsMap.

(** An embedding vector: an array of numbers. *)
Definition Vec : Type := list Q.

(** ** DocumentService *)

Module Chunk.
Record t : Type := mk {
  id : jsstring;
  documentId : jsstring;
  documentTitle : jsstring;
  content : jsstring;
  startPosition : nat;
  endPosition : nat;
  chunkIndex : nat;
  wordCount : nat
}.
End Chunk.

Module ChunkEmbedding.
Record t : Type := mk {
  chunkId : jsstring;
  embedding : Vec;
  chunk : Chunk.t
}.
End ChunkEmbedding.

Module Document.
(** [metadata]: the caller's properties, then the three computed ones
    (which win over caller's properties of the same name). *)
Record meta : Type := mkMeta {
  given : list (jsstring * jsstring);
  addedAt : jsstring;
  characterCount : nat;
  wordCount : nat
}.
Record t : Type := mk {
  id : jsstring;
  title : jsstring;
  content : jsstring;
  metadata : meta
}.
End Document.

Module DocumentService.

Record t : Type := mk {
  documents : JsMap.t Document.t;
  documentChunks : JsMap.t (list Chunk.t);
  chunkEmbeddings : JsMap.t ChunkEmbedding.t;
  chunkSize : Z;
  chunkOverlap : Z
}.

Definition constructor : t :=
  {| documents := JsMap.empty;
     documentChunks := JsMap.empty;
     chunkEmbeddings := JsMap.empty;
     chunkSize := 500;
     chunkOverlap := 50 |}.

(** [Math.floor(this.chunkSize / 5)] and [Math.floor(this.chunkOverlap / 5)] *)
Definition avgWordsPerChunk (this : t) : Z := chunkSize this / 5.
Definition overlapWords (this : t) : Z := chunkOverlap this / 5.

(** The increment of the loop of [createChunks]. *)
Definition chunkStep (this : t) : Z := avgWordsPerChunk this - overlapWords this.

(** The variables the loop of [createChunks] updates. *)
Record LoopState : Type := mkLoop {
  loop_i : Z;
  loop_chunks : list Chunk.t;
  loop_position : nat
}.

Definition chunkWordsAt (this : t) (words : list jsstring) (i : Z)
  : list jsstring :=
  slice words i (i + avgWordsPerChunk this).

Definition chunkContentAt (this : t) (words : list jsstring) (i : Z)
  : jsstring :=
  join (js " ") (chunkWordsAt this words i).

(** The chunk pushed by one pass through the loop body. *)
Definition newChunk (this : t) (words : list jsstring)
    (documentId title : jsstring) (st : LoopState) : Chunk.t :=
  let chunkWords := chunkWordsAt this words (loop_i st) in
  let chunkContent := chunkContentAt this words (loop_i st) in
  {| Chunk.id := documentId ++ js "_chunk_" ++ decimal (length (loop_chunks st));
     Chunk.documentId := documentId;
     Chunk.documentTitle := title;
     Chunk.content := chunkContent;
     Chunk.startPosition := loop_position st;
     Chunk.endPosition := (loop_position st + length chunkContent)%nat;
     Chunk.chunkIndex := length (loop_chunks st);
     Chunk.wordCount := length chunkWords |}.

(** One evaluation of the loop test and body: [inr chunks] when the loop
    is left (the test fails, or [break]), [inl st'] when it goes on. *)
Definition chunkIteration (this : t) (words : list jsstring)
    (documentId title : jsstring) (st : LoopState)
  : LoopState + list Chunk.t :=
  if loop_i st <? Z.of_nat (length words) then
    let chunkContent := chunkContentAt this words (loop_i st) in
    if (length (trim chunkContent) =? 0)%nat then inr (loop_chunks st)
    else inl {| loop_i := loop_i st + chunkStep this;
                loop_chunks := loop_chunks st
                               ++ [newChunk this words documentId title st];
                loop_position := (loop_position st + length chunkContent)%nat |}
  else inr (loop_chunks st).

(** The loop, run for at most [fuel] evaluations of its test; [None]
    when the loop is still running after them. *)
Fixpoint chunkLoop (fuel : nat) (this : t) (words : list jsstring)
    (documentId title : jsstring) (st : LoopState) : option (list Chunk.t) :=
  match fuel with
  | O => None
  | S fuel' =>
      match chunkIteration this words documentId title st with
      | inr chunks => Some chunks
      | inl st' => chunkLoop fuel' this words documentId title st'
      end
  end.

Definition loopStart : LoopState :=
  {| loop_i := 0; loop_chunks := []; loop_position := O |}.

(** Enough evaluations of the test for every loop that ends
    ([chunkFuel_enough] below). *)
Definition chunkFuel (this : t) (words : list jsstring) : nat :=
  S (length words + Z.abs_nat (avgWordsPerChunk this)).

(** [createChunks(content, documentId, title)]; [None] when the loop
    never ends. *)
Definition createChunks (this : t) (content documentId title : jsstring)
  : option (list Chunk.t) :=
  let words := split_ws content in
  chunkLoop (chunkFuel this words) this words documentId title loopStart.

(** [addDocument(id, title, content, metadata)].  [now] is the reading of
    the clock, [new Date().toISOString()].  [None] when the call never
    returns. *)
Definition addDocument (this : t) (id title content : jsstring)
    (metadata : list (jsstring * jsstring)) (now : jsstring)
  : option (jsstring * t) :=
  let document :=
    {| Document.id := id;
       Document.title := title;
       Document.content := content;
       Document.metadata :=
         {| Document.given := metadata;
            Document.addedAt := now;
            Document.characterCount := length content;
            Document.wordCount := length (split_ws content) |} |} in
  let documents' := JsMap.set id document (documents this) in
  match createChunks this content id title with
  | None => None
  | Some chunks =>
      Some (id, {| documents := documents';
                   documentChunks := JsMap.set id chunks (documentChunks this);
                   chunkEmbeddings := chunkEmbeddings this;
                   chunkSize := chunkSize this;
                   chunkOverlap := chunkOverlap this |})
  end.

(** The body of the [forEach] of [storeChunkEmbeddings]. *)
Definition storeOne (embeddings : list (option Vec))
    (store : JsMap.t ChunkEmbedding.t) (ic : nat * Chunk.t)
  : JsMap.t ChunkEmbedding.t :=
  match embeddings !! ic.1 with
  | Some (Some e) =>
      JsMap.set (Chunk.id ic.2)
        {| ChunkEmbedding.chunkId := Chunk.id ic.2;
           ChunkEmbedding.embedding := e;
           ChunkEmbedding.chunk := ic.2 |} store
  | _ => store
  end.

(** [storeChunkEmbeddings(documentId, embeddings)] *)
Definition storeChunkEmbeddings (this : t) (documentId : jsstring)
    (embeddings : list (option Vec)) : result t :=
  match JsMap.get documentId (documentChunks this) with
  | None => Throw (DocumentNotFound documentId)
  | Some chunks =>
      Ok {| documents := documents this;
            documentChunks := documentChunks this;
            chunkEmbeddings :=
              fold_left (storeOne embeddings) (indexed chunks)
                        (chunkEmbeddings this);
            chunkSize := chunkSize this;
            chunkOverlap := chunkOverlap this |}
  end.

Definition getAllChunksWithEmbeddings (this : t) : list ChunkEmbedding.t :=
  JsMap.values (chunkEmbeddings this).

Definition getDocument (this : t) (id : jsstring) : option Document.t :=
  JsMap.get id (documents this).

Definition getAllDocuments (this : t) : list Document.t :=
  JsMap.values (documents this).

(** [this.documentChunks.get(documentId) || []] *)
Definition getDocumentChunks (this : t) (documentId : jsstring)
  : list Chunk.t :=
  default [] (JsMap.get documentId (documentChunks this)).

Section WithCaseMapping.

(** [String.prototype.toLowerCase]: the case mapping of the language,
    which is not modelled. *)
Variable toLowerCase : jsstring -> jsstring.

(** [searchDocuments(query)] *)
Definition searchDocuments (this : t) (query : jsstring) : list Document.t :=
  let queryLower := toLowerCase query in
  List.filter
    (fun doc =>
       includes (toLowerCase (Document.title doc)) queryLower
       || includes (toLowerCase (Document.content doc)) queryLower)
    (JsMap.values (documents this)).

End WithCaseMapping.

(** The object [getStats] returns. *)
Record Stats : Type := mkStats {
  totalDocuments : nat;
  totalChunks : nat;
  totalEmbeddings : nat;
  totalWords : nat;
  totalCharacters : nat;
  averageWordsPerDocument : nat;
  averageChunksPerDocument : nat
}.

(** [Math.round(total / count)] for a count that is not zero: the
    integer nearest to the quotient, a half going upwards.  (The
    division of the code is that of doubles; rounding its result gives
    the same integer as rounding the exact quotient as long as total
    and count are below 2^51.) *)
Definition roundedAverage (total count : nat) : nat :=
  ((2 * total + count) / (2 * count))%nat.

(** [getStats()] *)
Definition getStats (this : t) : Stats :=
  let totalDocuments := JsMap.size (documents this) in
  let totalChunks :=
    fold_left (fun sum chunks => (sum + length chunks)%nat)
              (JsMap.values (documentChunks this)) O in
  let totalEmbeddings := JsMap.size (chunkEmbeddings this) in
  let documents := JsMap.values (documents this) in
  let totalWords :=
    fold_left
      (fun sum doc => (sum + Document.wordCount (Document.metadata doc))%nat)
      documents O in
  let totalCharacters :=
    fold_left
      (fun sum doc =>
         (sum + Document.characterCount (Document.metadata doc))%nat)
      documents O in
  {| totalDocuments := totalDocuments;
     totalChunks := totalChunks;
     totalEmbeddings := totalEmbeddings;
     totalWords := totalWords;
     totalCharacters := totalCharacters;
     averageWordsPerDocument :=
       if (0 <? totalDocuments)%nat
       then roundedAverage totalWords totalDocuments else O;
     averageChunksPerDocument :=
       if (0 <? totalDocuments)%nat
       then roundedAverage totalChunks totalDocuments else O |}.

(** [clearAll()] *)
Definition clearAll (this : t) : t :=
  {| documents := JsMap.empty;
     documentChunks := JsMap.empty;
     chunkEmbeddings := JsMap.empty;
     chunkSize := chunkSize this;
     chunkOverlap := chunkOverlap this |}.

End DocumentService.

(** ** SimilarityService *)

Module SimilarityService.

(** The object mapping words to embeddings: its own properties in the
    order [Object.keys] and [Object.entries] list them, a null
    embedding being [None].  An object has one property per key:
    [NoDup (keys wordEmbeddings)] in the statements below. *)
Definition WordEmbeddings : Type := list (jsstring * option Vec).

(** [Object.keys(wordEmbeddings)] *)
Definition keys (wordEmbeddings : WordEmbeddings) : list jsstring :=
  map fst wordEmbeddings.

(** [wordEmbeddings[word]] as the code tests it: [None] when the
    property is missing or holds null. *)
Definition embeddingOf (wordEmbeddings : WordEmbeddings) (word : jsstring)
  : option Vec :=
  mjoin (JsMap.get word wordEmbeddings).

Record Similar : Type := mkSimilar {
  word : jsstring;
  similarity : Q
}.

(** [(a, b) => b.similarity - a.similarity] *)
Definition compareFn (a b : Similar) : Q := similarity b - similarity a.

(** [x > y] and [x >= y] on numbers. *)
Definition gt (x y : Q) : bool := negb (Qle_bool x y).
Definition ge (x y : Q) : bool := Qle_bool y x.

(** [Array.prototype.sort] with [compareFn].  The sort is stable and
    [compareFn] is a consistent comparator, which fixes the result:
    [a] goes behind every [b] with [compareFn a b > 0] and stays in
    front of the others that followed it.  Here by insertion, last
    element first. *)
Fixpoint insert (a : Similar) (sorted : list Similar) : list Similar :=
  match sorted with
  | [] => [a]
  | b :: rest =>
      if gt (compareFn a b) 0 then b :: insert a rest else a :: sorted
  end.

Definition sort (l : list Similar) : list Similar := foldr insert [] l.

(** What a property of a row of the matrix holds: a number that
    [createSimilarityMatrix] stored (the 1 of the diagonal, a score of
    the library), or a value that it copied from what the objects
    inherit from [Object.prototype].  [Inherited [k]] stands for the
    value of [o[k]] and [Inherited [k2; k1]] for the value of
    [o[k2][k1]], [o] being an object without properties of its own:
    [Inherited [js "constructor"]] is the function [Object]. *)
Inductive Entry : Type :=
| Number (q : Q)
| Inherited (path : list jsstring).

(** The matrix object under construction: the properties of its own,
    each holding a row, an object with properties of its own.  [cell]
    is the property [word2] that the row [word1] has of its own,
    [None] when the row or the property is missing. *)
Abbreviation Matrix := (gmap jsstring (gmap jsstring Entry)).

Definition cell (matrix : Matrix) (word1 word2 : jsstring) : option Entry :=
  row ← matrix !! word1; row !! word2.

(** [matrix[word1][word2] = v], the row being there. *)
Definition setCell (matrix : Matrix) (word1 word2 : jsstring) (v : Entry)
  : Matrix :=
  match matrix !! word1 with
  | Some row => <[word1 := <[word2 := v]> row]> matrix
  | None => matrix
  end.

Record ClusterState : Type := mkCluster {
  visited : gset jsstring;
  clusters : list (list jsstring)
}.

(** The body of the inner loop of [clusterByThreshold], on the cluster
    being built and the visited set. *)
Definition absorb (threshold : Q) (acc : list jsstring * gset jsstring)
    (s : Similar) : list jsstring * gset jsstring :=
  if negb (bool_decide (word s ∈ acc.2)) && ge (similarity s) threshold
  then (acc.1 ++ [word s], {[word s]} ∪ acc.2)
  else acc.

(** The finite double with the significand [m] and the exponent [-k]:
    the rational [m / 2^k]. *)
Definition binary64 (m : Z) (k : positive) : Q := m # (2 ^ k).

(** The doubles that the decimal literals [0.9], [0.7], [0.5], [0.3]
    and [0.1] of the source denote: of the doubles the one nearest to
    the decimal.  Only [0.5] is the decimal itself; the doubles of
    [0.9] and [0.1] lie above their decimals, those of [0.7] and [0.3]
    below. *)
Definition double_0_9 : Q := binary64 8106479329266893 53.
Definition double_0_7 : Q := binary64 6305039478318694 53.
Definition double_0_5 : Q := binary64 4503599627370496 53.
Definition double_0_3 : Q := binary64 5404319552844595 54.
Definition double_0_1 : Q := binary64 7205759403792794 56.

(** [interpretSimilarity(score)] *)
Definition interpretSimilarity (score : Q) : jsstring :=
  if gt score double_0_9 then js "Nearly identical meaning"
  else if gt score double_0_7 then js "Very similar meaning"
  else if gt score double_0_5 then js "Moderately similar"
  else if gt score double_0_3 then js "Somewhat related"
  else if gt score double_0_1 then js "Slightly related"
  else js "Very different meaning".

Section WithLibrary.

(** The function of the package compute-cosine-similarity, which is
    not part of the repository: [Ok q] when it returns the finite
    number [q], [Throw] when it throws (arrays of different lengths).
    The package also returns NaN (for a vector of zeros) and null (for
    two empty arrays); a score is a finite double here, so the
    statements below are about embeddings for which it returns a
    finite number or throws. *)
Variable cosineSimilarity : Vec -> Vec -> result Q.

(** What the objects of the program inherit from [Object.prototype],
    which belongs to the runtime: [inherits k] tells whether [o[k]] is
    something other than undefined for an object [o] that has no
    property [k] of its own (in a standard runtime for [constructor],
    [toString], [valueOf], [hasOwnProperty], [__proto__] and the like);
    for such a [k2], [inheritedMember k2 k1] is the condition
    [o[k2] && o[k2][k1] !== undefined], or what reading [o[k2][k1]]
    throws.
    An assignment [o[k] = v] is taken to create or update a property
    of [o] itself, which it does for every key but one that names a
    setter of [Object.prototype] (in a standard runtime [__proto__],
    which replaces the prototype of [o] instead): a mapping with such a
    key is outside the model. *)
Variable inherits : jsstring -> bool.
Variable inheritedMember : jsstring -> jsstring -> result bool.

(** [calculateCosineSimilarity(embedding1, embedding2)] *)
Definition calculateCosineSimilarity (embedding1 embedding2 : option Vec)
  : result Q :=
  match embedding1, embedding2 with
  | Some e1, Some e2 => cosineSimilarity e1 e2
  | _, _ => Throw InvalidEmbeddings
  end.

(** The body of the loop of [findMostSimilar]. *)
Definition similarTo (targetWord : jsstring) (targetEmbedding : Vec)
    (similarities : list Similar) (entry : jsstring * option Vec)
  : result (list Similar) :=
  if decide (entry.1 = targetWord) then Ok similarities
  else
    match entry.2 with
    | Some embedding =>
        let! similarity :=
          calculateCosineSimilarity (Some targetEmbedding) (Some embedding) in
        Ok (similarities
            ++ [{| word := entry.1; similarity := similarity |}])
    | None => Ok similarities
    end.

(** [findMostSimilar(targetWord, wordEmbeddings, topK)] *)
Definition findMostSimilar (targetWord : jsstring)
    (wordEmbeddings : WordEmbeddings) (topK : Z)
  : result (list Similar) :=
  match embeddingOf wordEmbeddings targetWord with
  | None => Throw (TargetNotFound targetWord)
  | Some targetEmbedding =>
      let! similarities :=
        foldM (similarTo targetWord targetEmbedding) wordEmbeddings [] in
      Ok (slice (sort similarities) 0 topK)
  end.

(** [matrix[word2] && matrix[word2][word1] !== undefined], with the
    value of [matrix[word2][word1]] when the condition holds and [None]
    when it does not.  A row reads a property that it does not have
    through its prototype; where the matrix has no row [word2] yet, the
    property [word2] that the matrix inherits is read instead. *)
Definition matrixRead (matrix : Matrix) (word2 word1 : jsstring)
  : result (option Entry) :=
  match matrix !! word2 with
  | Some row =>
      match row !! word1 with
      | Some v => Ok (Some v)
      | None => Ok (if inherits word1 then Some (Inherited [word1]) else None)
      end
  | None =>
      if inherits word2 then
        let! defined := inheritedMember word2 word1 in
        Ok (if defined : bool then Some (Inherited [word2; word1]) else None)
      else Ok None
  end.

(** The body of the inner loop of [createSimilarityMatrix], at row
    [i] ([word1]) and column [jw.1] ([jw.2]). *)
Definition matrixCell (wordEmbeddings : WordEmbeddings) (i : nat)
    (word1 : jsstring) (matrix : Matrix) (jw : nat * jsstring)
  : result Matrix :=
  let word2 := jw.2 in
  if (i =? jw.1)%nat then Ok (setCell matrix word1 word2 (Number 1))
  else
    let! calculated := matrixRead matrix word2 word1 in
    match calculated with
    | Some v => Ok (setCell matrix word1 word2 v)
    | None =>
        match embeddingOf wordEmbeddings word1,
              embeddingOf wordEmbeddings word2 with
        | Some embedding1, Some embedding2 =>
            let! v :=
              calculateCosineSimilarity (Some embedding1) (Some embedding2) in
            Ok (setCell matrix word1 word2 (Number v))
        | _, _ => Ok matrix
        end
    end.

(** The body of the outer loop. *)
Definition matrixRow (wordEmbeddings : WordEmbeddings)
    (words : list jsstring) (matrix : Matrix) (iw : nat * jsstring)
  : result Matrix :=
  foldM (matrixCell wordEmbeddings iw.1 iw.2) (indexed words)
        (<[iw.2 := ∅]> matrix).

(** [createSimilarityMatrix(wordEmbeddings)] *)
Definition createSimilarityMatrix (wordEmbeddings : WordEmbeddings)
  : result Matrix :=
  let words := keys wordEmbeddings in
  foldM (matrixRow wordEmbeddings words) (indexed words) ∅.

(** The body of the outer loop of [clusterByThreshold]. *)
Definition clusterFrom (wordEmbeddings : WordEmbeddings) (threshold : Q)
    (words : list jsstring) (st : ClusterState) (word : jsstring)
  : result ClusterState :=
  if bool_decide (word ∈ visited st) then Ok st
  else
    let! similarWords :=
      findMostSimilar word wordEmbeddings (Z.of_nat (length words) - 1) in
    let acc :=
      fold_left (absorb threshold) similarWords
                ([word], {[word]} ∪ visited st) in
    Ok {| visited := acc.2; clusters := clusters st ++ [acc.1] |}.

(** [clusterByThreshold(wordEmbeddings, threshold)] *)
Definition clusterByThreshold (wordEmbeddings : WordEmbeddings)
    (threshold : Q) : result (list (list jsstring)) :=
  let words := keys wordEmbeddings in
  let! st :=
    foldM (clusterFrom wordEmbeddings threshold words) words
          {| visited := ∅; clusters := [] |} in
  Ok (clusters st).

End WithLibrary.

End SimilarityService.

(** ** RAGController *)

Module RAGController.

(** One match of the vector index, as [searchSimilar] returns it. *)
Record SearchHit : Type := mkHit {
  hit_id : jsstring;
  score : Q;
  chunk : Chunk.t
}.

(** The calls to the embedding service and the vector service, each
    with the type of what the awaited promise settles to: a value, or
    a rejection. *)
Inductive Event : Type -> Type :=
| HealthCheck : Event (result bool)
| VectorInitialize : Event (result bool)
| GetBatchEmbeddings (texts : list jsstring)
  : Event (result (JsMap.t (option Vec)))
| StoreChunks (chunks : list (Chunk.t * option Vec)) (namespace : jsstring)
  : Event (result bool)
| GetEmbedding (text : jsstring) : Event (result (option Vec))
| SearchSimilar (queryEmbedding : Vec) (topK : Z) (namespace : jsstring)
    (filter : option (list (jsstring * jsstring)))
  : Event (result (list SearchHit)).

(** An async method: it returns, never returns ([Hang], a local loop
    without end), or awaits a call and goes on with the answer. *)
Inductive Prog (R : Type) : Type :=
| Ret (r : R)
| Hang
| Await {X : Type} (e : Event X) (k : X -> Prog R).

Arguments Ret {R} r.
Arguments Hang {R}.
Arguments Await {R X} e k.

(** Running a program against answers of the collaborators. *)
Fixpoint run {R : Type} (answer : forall X, Event X -> X) (p : Prog R)
  : option R :=
  match p with
  | Ret r => Some r
  | Hang => None
  | Await e k => run answer (k (answer _ e))
  end.

(** The number of calls made on that run. *)
Fixpoint calls {R : Type} (answer : forall X, Event X -> X) (p : Prog R)
  : nat :=
  match p with
  | Ret _ | Hang => O
  | Await e k => S (calls answer (k (answer _ e)))
  end.

Record t : Type := mk {
  documentService : DocumentService.t;
  isInitialized : bool
}.

Definition constructor : t :=
  {| documentService := DocumentService.constructor;
     isInitialized := false |}.

Definition setInitialized (this : t) (b : bool) : t :=
  {| documentService := documentService this; isInitialized := b |}.

(** A method body ends with what it returns or throws and with the
    controller as it then is. *)
Definition Body (A : Type) : Type := Prog (result A * t).

(** [await call]: a rejection is thrown where the promise is awaited. *)
Definition await {X A : Type} (call : Event (result X)) (this : t)
    (k : X -> Body A) : Body A :=
  Await call (fun settled =>
    match settled with
    | Ok x => k x
    | Throw error => Ret (Throw error, this)
    end).

(** [try { body } catch (error) { handler }] *)
Fixpoint tryCatch {A : Type} (body : Body A) (handler : JsError -> t -> Body A)
  : Body A :=
  match body with
  | Ret (Ok a, this) => Ret (Ok a, this)
  | Ret (Throw error, this) => handler error this
  | Hang => Hang
  | Await e k => Await e (fun x => tryCatch (k x) handler)
  end.

(** [initialize()]: what the promise settles to, and the controller
    afterwards. *)
Definition initialize (this : t) : Body bool :=
  tryCatch
    (await HealthCheck this (fun embeddingHealthy =>
       if negb embeddingHealthy then Ret (Throw EmbeddingUnavailable, this)
       else
         await VectorInitialize this (fun vectorServiceReady =>
           if negb vectorServiceReady then Ret (Throw VectorUnavailable, this)
           else Ret (Ok true, setInitialized this true))))
    (fun error this' => Ret (Ok false, setInitialized this' false)).

(** [addDocument(id, title, content, metadata, namespace)]; [now] is
    the reading of the clock inside [DocumentService.addDocument]. *)
Definition addDocument (this : t) (id title content : jsstring)
    (metadata : list (jsstring * jsstring)) (namespace now : jsstring)
  : Body bool :=
  if negb (isInitialized this) then Ret (Throw NotInitialized, this)
  else
    tryCatch
      match DocumentService.addDocument (documentService this)
              id title content metadata now with
      | None => Hang
      | Some (_, documentService') =>
          let this' :=
            {| documentService := documentService';
               isInitialized := isInitialized this |} in
          let chunks := DocumentService.getDocumentChunks documentService' id in
          let chunkTexts := map Chunk.content chunks in
          await (GetBatchEmbeddings chunkTexts) this' (fun embeddings =>
            let chunksWithEmbeddings :=
              map (fun chunk =>
                     (chunk,
                      mjoin (JsMap.get (Chunk.content chunk) embeddings)))
                  chunks in
            await (StoreChunks chunksWithEmbeddings namespace) this' (fun _ =>
              Ret (Ok true, this')))
      end
      (fun error this' => Ret (Ok false, this')).

Record ResultEntry : Type := mkEntry {
  rank : nat;
  entry_similarity : Q;
  interpretation : jsstring;
  document_id : jsstring;
  document_title : jsstring;
  chunk_id : jsstring;
  chunk_content : jsstring;
  chunk_index : nat;
  chunk_wordCount : nat
}.

Record SearchResults : Type := mkResults {
  query : jsstring;
  results_topK : Z;
  totalResults : nat;
  results : list ResultEntry;
  context : jsstring
}.

Definition quote : jsstring := [34%N].
Definition newline : jsstring := [10%N].

(** [buildContext(similarChunks)] *)
Definition buildContext (similarChunks : list SearchHit) : jsstring :=
  join (newline ++ newline)
    (map (fun ir : nat * SearchHit =>
            js "[Context " ++ decimal (ir.1 + 1) ++ js " from " ++ quote
            ++ Chunk.documentTitle (chunk ir.2) ++ quote ++ js "]"
            ++ newline ++ Chunk.content (chunk ir.2))
         (indexed similarChunks)).

Definition formatResult (ir : nat * SearchHit) : ResultEntry :=
  {| rank := ir.1 + 1;
     entry_similarity := score ir.2;
     interpretation := SimilarityService.interpretSimilarity (score ir.2);
     document_id := Chunk.documentId (chunk ir.2);
     document_title := Chunk.documentTitle (chunk ir.2);
     chunk_id := Chunk.id (chunk ir.2);
     chunk_content := Chunk.content (chunk ir.2);
     chunk_index := Chunk.chunkIndex (chunk ir.2);
     chunk_wordCount := Chunk.wordCount (chunk ir.2) |}.

(** [search(query, topK, namespace, filter)]: the results, or [None]
    for the null returned after a failure. *)
Definition search (this : t) (query : jsstring) (topK : Z)
    (namespace : jsstring) (filter : option (list (jsstring * jsstring)))
  : Body (option SearchResults) :=
  if negb (isInitialized this) then Ret (Throw NotInitialized, this)
  else
    tryCatch
      (await (GetEmbedding query) this (fun queryEmbedding =>
         match queryEmbedding with
         | None => Ret (Throw QueryEmbeddingFailed, this)
         | Some queryEmbedding =>
             await (SearchSimilar queryEmbedding topK namespace filter) this
               (fun similarChunks =>
                  Ret (Ok (Some {| query := query;
                                   results_topK := topK;
                                   totalResults := length similarChunks;
                                   results :=
                                     map formatResult (indexed similarChunks);
                                   context := buildContext similarChunks |}),
                       this))
         end))
      (fun error this' => Ret (Ok None, this')).

End RAGController.

(** ** WordClusteringController *)

Module WordClusteringController.

(** The embedding service is called as in [RAGController]; the methods
    have no state of their own. *)
Abbreviation Prog := RAGController.Prog.
Abbreviation Ret := RAGController.Ret.
Abbreviation Hang := RAGController.Hang.
Abbreviation Await := RAGController.Await.

(** [await call] inside a [try] block: a rejection is thrown. *)
Definition await {X A : Type} (call : RAGController.Event (result X))
    (k : X -> Prog (result A)) : Prog (result A) :=
  Await call (fun settled =>
    match settled with
    | Ok x => k x
    | Throw error => Ret (Throw error)
    end).

(** A call of a method that returns or throws, inside a [try] block. *)
Definition calling {X A : Type} (returned : result X)
    (k : X -> Prog (result A)) : Prog (result A) :=
  match returned with
  | Ok x => k x
  | Throw error => Ret (Throw error)
  end.

(** [try { body } catch (error) { return null }] *)
Fixpoint orNull {A : Type} (body : Prog (result (option A)))
  : Prog (option A) :=
  match body with
  | RAGController.Ret (Ok a) => Ret a
  | RAGController.Ret (Throw _) => Ret None
  | RAGController.Hang => Hang
  | RAGController.Await e k => Await e (fun x => orNull (k x))
  end.

Record Comparison : Type := mkComparison {
  word1 : jsstring;
  word2 : jsstring;
  similarity : Q;
  interpretation : jsstring
}.

Record ClusterAnalysis : Type := mkAnalysis {
  totalWords : nat;
  totalClusters : nat;
  largestClusterSize : nat;
  largestCluster : list jsstring;
  singletonClusters : nat;
  averageClusterSize : option Q
}.

Record ClusterResult : Type := mkClusterResult {
  words : list jsstring;
  clusters : list (list jsstring);
  similarityMatrix : SimilarityService.Matrix;
  threshold : Q;
  clusterCount : nat;
  analysis : ClusterAnalysis
}.

Record SimilarWords : Type := mkSimilarWords {
  targetWord : jsstring;
  similarWords : list SimilarityService.Similar;
  topK : Z
}.

Section WithNumbers.

(** The cosine package and the inherited properties of the runtime, as
    in [SimilarityService]. *)
Variable cosineSimilarity : Vec -> Vec -> result Q.
Variable inherits : jsstring -> bool.
Variable inheritedMember : jsstring -> jsstring -> result bool.

(** The arithmetic of doubles that the code formats, which is not
    modelled: [divide a b] is the double [a / b] of two counts, [None]
    when it is NaN; [toFixed digits x] is
    [parseFloat(x.toFixed(digits))]. *)
Variable divide : nat -> nat -> option Q.
Variable toFixed : nat -> Q -> Q.

(** [generateClusterAnalysis(clusters)] *)
Definition generateClusterAnalysis (clusters : list (list jsstring))
  : ClusterAnalysis :=
  let totalWords :=
    fold_left (fun sum cluster => (sum + length cluster)%nat) clusters O in
  let largestCluster :=
    fold_left
      (fun max cluster =>
         if (length max <? length cluster)%nat then cluster else max)
      clusters (default [] (head clusters)) in
  let singletonClusters :=
    length (List.filter (fun cluster => (length cluster =? 1)%nat) clusters) in
  {| totalWords := totalWords;
     totalClusters := length clusters;
     largestClusterSize := length largestCluster;
     largestCluster := largestCluster;
     singletonClusters := singletonClusters;
     averageClusterSize :=
       option_map (toFixed 2) (divide totalWords (length clusters)) |}.

(** [compareWords(word1, word2)]; [None] is the null returned. *)
Definition compareWords (word1 word2 : jsstring) : Prog (option Comparison) :=
  orNull
    (await (RAGController.GetEmbedding word1) (fun embedding1 =>
     await (RAGController.GetEmbedding word2) (fun embedding2 =>
       match embedding1, embedding2 with
       | Some e1, Some e2 =>
           calling
             (SimilarityService.calculateCosineSimilarity cosineSimilarity
                (Some e1) (Some e2))
             (fun similarity =>
                Ret (Ok (Some
                  {| word1 := word1;
                     word2 := word2;
                     similarity := toFixed 4 similarity;
                     interpretation :=
                       SimilarityService.interpretSimilarity similarity |})))
       | _, _ => Ret (Ok None)
       end))).

(** [analyzeWordClusters(words, threshold)] *)
Definition analyzeWordClusters (words : list jsstring) (threshold : Q)
  : Prog (option ClusterResult) :=
  orNull
    (await RAGController.HealthCheck (fun isHealthy =>
       if negb isHealthy then Ret (Ok None)
       else
         await (RAGController.GetBatchEmbeddings words) (fun wordEmbeddings =>
         calling
           (SimilarityService.clusterByThreshold cosineSimilarity
              wordEmbeddings threshold)
           (fun clusters =>
         calling
           (SimilarityService.createSimilarityMatrix cosineSimilarity
              inherits inheritedMember wordEmbeddings)
           (fun similarityMatrix =>
              Ret (Ok (Some
                {| words := words;
                   clusters := clusters;
                   similarityMatrix := similarityMatrix;
                   threshold := threshold;
                   clusterCount := length clusters;
                   analysis := generateClusterAnalysis clusters |}))))))).

(** [findSimilarWords(targetWord, candidateWords, topK)] *)
Definition findSimilarWords (targetWord : jsstring)
    (candidateWords : list jsstring) (topK : Z) : Prog (option SimilarWords) :=
  orNull
    (let allWords := targetWord :: candidateWords in
     await (RAGController.GetBatchEmbeddings allWords) (fun wordEmbeddings =>
     calling
       (SimilarityService.findMostSimilar cosineSimilarity targetWord
          wordEmbeddings topK)
       (fun similarWords =>
          Ret (Ok (Some {| targetWord := targetWord;
                           similarWords := similarWords;
                           topK := topK |}))))).

End WithNumbers.

End WordClusteringController.

(** ** Objects used as dictionaries: the order of the keys *)

Module JsObject.

(** The own properties in the order [Object.keys], [Object.entries] and
    [for ... in] list them: the keys that are array indices first, in
    ascending order, then the other keys in the order in which they
    were created. *)
Definition t (V : Type) : Type := list (jsstring * V).

Definition empty {V : Type} : t V := [].

Definition digit (c : N) : option N :=
  if ((48 <=? c) && (c <=? 57))%N then Some (c - 48)%N else None.

Fixpoint digits (acc : N) (s : jsstring) : option N :=
  match s with
  | [] => Some acc
  | c :: rest =>
      match digit c with
      | Some d => digits (10 * acc + d)%N rest
      | None => None
      end
  end.

(** The array index a key denotes: the key is the decimal numeral,
    without leading zero, of an integer below 2^32 - 1. *)
Definition arrayIndex (k : jsstring) : option N :=
  match k with
  | [] => None
  | c :: rest =>
      if (c =? 48)%N && negb (bool_decide (rest = [])) then None
      else
        match digits 0 k with
        | Some n => if (n <=? 4294967294)%N then Some n else None
        | None => None
        end
  end.

(** A new array index goes in front of the first key that is no array
    index or a greater one. *)
Fixpoint insertIndex {V : Type} (n : N) (k : jsstring) (v : V) (o : t V)
  : t V :=
  match o with
  | [] => [(k, v)]
  | (k', v') :: rest =>
      match arrayIndex k' with
      | Some n' =>
          if (n' <? n)%N then (k', v') :: insertIndex n k v rest
          else (k, v) :: o
      | None => (k, v) :: o
      end
  end.

(** [o[k]] *)
Definition get {V : Type} (k : jsstring) (o : t V) : option V := JsMap.get k o.

(** [o[k] = v]: an existing property keeps its place.  This is what
    the assignment does for every key but [__proto__], which names a
    setter that the object inherits: the assignment then replaces the
    prototype of [o] and creates no property.  That is not modelled;
    the statements about the keys of [o] are about keys other than
    [__proto__]. *)
Definition set {V : Type} (k : jsstring) (v : V) (o : t V) : t V :=
  match JsMap.get k o with
  | Some _ => JsMap.set k v o
  | None =>
      match arrayIndex k with
      | Some n => insertIndex n k v o
      | None => o ++ [(k, v)]
      end
  end.

(** [Object.keys(o)] *)
Definition keys {V : Type} (o : t V) : list jsstring := map fst o.

End JsObject.

(** ** Async methods over the calls of a remote client *)

Module Async.

Section Calls.

(** The requests a client takes and what each settles to. *)
Variable Request : Type.
Variable Response : Request -> Type.

Inductive Prog (R : Type) : Type :=
| Ret (r : R)
| Hang
| Await (request : Request) (k : Response request -> Prog R).

Arguments Ret {R} r.
Arguments Hang {R}.
Arguments Await {R} request k.

Fixpoint run {R : Type} (answer : forall request, Response request)
    (p : Prog R) : option R :=
  match p with
  | Ret r => Some r
  | Hang => None
  | Await request k => run answer (k (answer request))
  end.

(** The requests made on that run, in order. *)
Fixpoint trace {R : Type} (answer : forall request, Response request)
    (p : Prog R) : list Request :=
  match p with
  | Ret _ | Hang => []
  | Await request k => request :: trace answer (k (answer request))
  end.

(** [await p] for the promise of another async method of the class. *)
Fixpoint andThen {R S : Type} (p : Prog R) (k : R -> Prog S) : Prog S :=
  match p with
  | Ret r => k r
  | Hang => Hang
  | Await request k' => Await request (fun x => andThen (k' x) k)
  end.

End Calls.

Arguments Ret {Request Response R} r.
Arguments Hang {Request Response R}.
Arguments Await {Request Response R} request k.
Arguments run {Request Response R} answer p.
Arguments trace {Request Response R} answer p.
Arguments andThen {Request Response R S} p k.

End Async.

(** ** EmbeddingService *)

Module EmbeddingService.

(** The response of [embedContent], as far as the code reads it:
    [embeddings] and [values] may be missing. *)
Record ContentEmbedding : Type := mkContentEmbedding {
  values : option Vec
}.

Record EmbedContentResponse : Type := mkResponse {
  embeddings : option (list ContentEmbedding)
}.

Inductive Request : Type :=
| EmbedContent (model contents : jsstring)   (* genAI.models.embedContent *)
| SetTimeout (ms : Z).                        (* the promise of a timer *)

Definition Response (request : Request) : Type :=
  match request with
  | EmbedContent _ _ => result EmbedContentResponse
  | SetTimeout _ => unit
  end.

Abbreviation Prog := (Async.Prog Request Response).

(** What [getEmbedding] resolves to: an array, undefined, or null. *)
Inductive Embedding : Type :=
| Values (v : Vec)
| Undefined
| Null.

(** The value as a condition or a mapping entry reads it. *)
Definition truthy (embedding : Embedding) : option Vec :=
  match embedding with
  | Values v => Some v
  | Undefined | Null => None
  end.

Definition model : jsstring := js "text-embedding-004".

(** [response.embeddings[0].values]: reading a property of undefined
    throws. *)
Definition firstValues (response : EmbedContentResponse) : result Embedding :=
  match embeddings response with
  | Some (first :: _) =>
      Ok match values first with
         | Some v => Values v
         | None => Undefined
         end
  | Some [] | None =>
      Throw (External (js "Cannot read properties of undefined"))
  end.

(** [getEmbedding(text)] *)
Definition getEmbedding (text : jsstring) : Prog Embedding :=
  Async.Await (EmbedContent model text) (fun settled : result EmbedContentResponse =>
    match bind settled firstValues with
    | Ok embedding => Async.Ret embedding
    | Throw error => Async.Ret Null
    end).

(** The loop of [getBatchEmbeddings]. *)
Fixpoint batchLoop (texts : list jsstring) (embeddings : JsObject.t Embedding)
  : Prog (JsObject.t Embedding) :=
  match texts with
  | [] => Async.Ret embeddings
  | text :: rest =>
      Async.andThen (getEmbedding text) (fun embedding =>
        Async.Await (SetTimeout 100) (fun _ : unit =>
          batchLoop rest (JsObject.set text embedding embeddings)))
  end.

(** [getBatchEmbeddings(texts)] *)
Definition getBatchEmbeddings (texts : list jsstring)
  : Prog (JsObject.t Embedding) :=
  batchLoop texts JsObject.empty.

(** [healthCheck()] *)
Definition healthCheck : Prog bool :=
  Async.andThen (getEmbedding (js "test")) (fun testEmbedding =>
    Async.Ret match testEmbedding with
              | Null => false
              | Values _ | Undefined => true
              end).

End EmbeddingService.

(** ** PineconeVectorService *)

Module PineconeVectorService.

Record Metadata : Type := mkMetadata {
  documentId : jsstring;
  documentTitle : jsstring;
  content : jsstring;
  chunkIndex : nat;
  wordCount : nat;
  startPosition : nat;
  endPosition : nat
}.

(** A vector as it is upserted; [values] is the chunk's embedding,
    which may be null. *)
Record Vector : Type := mkVector {
  id : jsstring;
  values : option Vec;
  metadata : Metadata
}.

(** A match of a query. *)
Record Match : Type := mkMatch {
  match_id : jsstring;
  match_score : Q;
  match_metadata : Metadata
}.

(** The calls to the Pinecone client. *)
Inductive Request : Type :=
| Index (indexName : jsstring)          (* pc.index(name): the handle *)
| DescribeIndexStats
| Upsert (namespace : jsstring) (batch : list Vector)
| Query (namespace : jsstring) (vector : Vec) (topK : Z)
    (filter : option (list (jsstring * jsstring))).

Definition Response (request : Request) : Type :=
  match request with
  | Index _ => result unit
  | DescribeIndexStats => result unit
  | Upsert _ _ => result unit
  | Query _ _ _ _ => result (list Match)
  end.

Abbreviation Prog := (Async.Prog Request Response).

(** The service: [index] tells whether [this.index] was set. *)
Record t : Type := mk {
  indexName : jsstring;
  index : bool;
  dimension : Z
}.

Definition notInitialized : JsError :=
  External (js "Pinecone index not initialized. Call initialize() first.").

(** [initialize()]: the index handle is set before the connection is
    tried, and stays set when the trial fails. *)
Definition initialize (this : t) : Prog (bool * t) :=
  Async.Await (Index (indexName this)) (fun handle : result unit =>
    match handle with
    | Throw error => Async.Ret (false, this)
    | Ok _ =>
        let this' :=
          {| indexName := indexName this; index := true;
             dimension := dimension this |} in
        Async.Await DescribeIndexStats (fun settled : result unit =>
          match settled with
          | Ok _ => Async.Ret (true, this')
          | Throw error => Async.Ret (false, this')
          end)
    end).

Definition toVector (chunk : Chunk.t * option Vec) : Vector :=
  {| id := Chunk.id chunk.1;
     values := chunk.2;
     metadata :=
       {| documentId := Chunk.documentId chunk.1;
          documentTitle := Chunk.documentTitle chunk.1;
          content := Chunk.content chunk.1;
          chunkIndex := Chunk.chunkIndex chunk.1;
          wordCount := Chunk.wordCount chunk.1;
          startPosition := Chunk.startPosition chunk.1;
          endPosition := Chunk.endPosition chunk.1 |} |}.

Definition batchSize : Z := 100.

(** The loop of [storeChunks] inside its [try] block, run for at most
    [fuel] evaluations of its test: a rejected upsert is caught and
    makes the method return false. *)
Fixpoint upsertLoop (fuel : nat) (vectors : list Vector) (namespace : jsstring)
    (i : Z) : Prog (result bool) :=
  match fuel with
  | O => Async.Hang
  | S fuel' =>
      if i <? Z.of_nat (length vectors) then
        Async.Await (Upsert namespace (slice vectors i (i + batchSize)))
          (fun settled : result unit =>
             match settled with
             | Ok _ => upsertLoop fuel' vectors namespace (i + batchSize)
             | Throw error => Async.Ret (Ok false)
             end)
      else Async.Ret (Ok true)
  end.

(** [storeChunks(chunks, namespace)] *)
Definition storeChunks (this : t) (chunks : list (Chunk.t * option Vec))
    (namespace : jsstring) : Prog (result bool) :=
  if negb (index this) then Async.Ret (Throw notInitialized)
  else
    let vectors := map toVector chunks in
    upsertLoop (S (length vectors)) vectors namespace 0.

Definition toHit (m : Match) : RAGController.SearchHit :=
  {| RAGController.hit_id := match_id m;
     RAGController.score := match_score m;
     RAGController.chunk :=
       {| Chunk.id := match_id m;
          Chunk.documentId := documentId (match_metadata m);
          Chunk.documentTitle := documentTitle (match_metadata m);
          Chunk.content := content (match_metadata m);
          Chunk.startPosition := startPosition (match_metadata m);
          Chunk.endPosition := endPosition (match_metadata m);
          Chunk.chunkIndex := chunkIndex (match_metadata m);
          Chunk.wordCount := wordCount (match_metadata m) |} |}.

(** [searchSimilar(queryEmbedding, topK, namespace, filter)] *)
Definition searchSimilar (this : t) (queryEmbedding : Vec) (topK : Z)
    (namespace : jsstring) (filter : option (list (jsstring * jsstring)))
  : Prog (result (list RAGController.SearchHit)) :=
  if negb (index this) then Async.Ret (Throw notInitialized)
  else
    Async.Await (Query namespace queryEmbedding topK filter)
      (fun settled : result (list Match) =>
         match settled with
         | Ok matches => Async.Ret (Ok (map toHit matches))
         | Throw error => Async.Ret (Ok [])
         end).

End PineconeVectorService.

(** * Specification vocabulary and examples *)

(** ** Chunks *)

Section ChunkVocabulary.

Import DocumentService.

(** The chunks carry their positions as indices and ids. *)
Definition numbered (documentId : jsstring) (chunks : list Chunk.t) : Prop :=
  forall (k : nat) (c : Chunk.t),
    chunks !! k = Some c ->
    Chunk.chunkIndex c = k
    /\ Chunk.id c = documentId ++ js "_chunk_" ++ decimal k.

(** Every stored chunk list is numbered under its document id: what
    holds of a store that [addDocument] and [storeChunkEmbeddings] built
    from the constructor's. *)
Definition chunksNumbered (this : DocumentService.t) : Prop :=
  forall id chunks,
    JsMap.get id (documentChunks this) = Some chunks -> numbered id chunks.

(** A configuration whose overlap equals its chunk size: one word per
    chunk, one word of overlap. *)
Definition equalOverlap : DocumentService.t :=
  {| documents := JsMap.empty;
     documentChunks := JsMap.empty;
     chunkEmbeddings := JsMap.empty;
     chunkSize := 5;
     chunkOverlap := 5 |}.

(** A store in which document "d1" has one chunk with a stored
    embedding. *)
Definition storeWithEmbedding : option DocumentService.t :=
  match addDocument constructor (js "d1") (js "T") (js "a b") [] (js "t0") with
  | Some (_, s1) =>
      match storeChunkEmbeddings s1 (js "d1") [Some [1%Q]] with
      | Ok s2 => Some s2
      | Throw _ => None
      end
  | None => None
  end.

(** A configuration with two words per chunk and one word of overlap,
    and the store after one document was added under it. *)
Definition twoWordChunks : DocumentService.t :=
  {| documents := JsMap.empty;
     documentChunks := JsMap.empty;
     chunkEmbeddings := JsMap.empty;
     chunkSize := 10;
     chunkOverlap := 5 |}.

Definition threeChunkStore : DocumentService.t :=
  match addDocument twoWordChunks (js "d1") (js "T") (js "a b c") []
          (js "t0") with
  | Some (_, s) => s
  | None => twoWordChunks
  end.

End ChunkVocabulary.

(** ** Rankings and clusters *)

Section RankingVocabulary.

Import SimilarityService.

(** [a] stands at an earlier position than [b] in [l]. *)
Definition before {A : Type} (l : list A) (a b : A) : Prop :=
  exists i j : nat, (i < j)%nat /\ l !! i = Some a /\ l !! j = Some b.

(** The entries the loop of [findMostSimilar] turns into similarities:
    those of another word with an embedding, in the order of the object. *)
Fixpoint candidates (targetWord : jsstring) (wordEmbeddings : WordEmbeddings)
  : list (jsstring * Vec) :=
  match wordEmbeddings with
  | [] => []
  | (w, embedding) :: rest =>
      if decide (w = targetWord) then candidates targetWord rest
      else
        match embedding with
        | Some v => (w, v) :: candidates targetWord rest
        | None => candidates targetWord rest
        end
  end.

(** What relates a similarity to the entry it was computed from. *)
Definition scored (cosineSimilarity : Vec -> Vec -> result Q)
    (targetEmbedding : Vec) (s : Similar) (c : jsstring * Vec) : Prop :=
  word s = c.1 /\ cosineSimilarity targetEmbedding c.2 = Ok (similarity s).

(** The order of the result: by descending similarity, and among equal
    similarities by [first], the order of the input. *)
Definition ranked (first : Similar -> Similar -> Prop) (a b : Similar) : Prop :=
  (similarity b < similarity a
   \/ (similarity a == similarity b /\ first a b))%Q.

(** What holds of the clusters and the visited set after the words
    [pre] were gone through. *)
Record clustered (wordEmbeddings : WordEmbeddings) (pre : list jsstring)
    (st : ClusterState) : Prop := {
  visited_clustered : forall x, x ∈ visited st <-> x ∈ concat (clusters st);
  clusters_NoDup : NoDup (concat (clusters st));
  seen_visited : forall x, x ∈ pre -> x ∈ visited st;
  visited_embedded :
    forall x, x ∈ visited st ->
              x ∈ keys wordEmbeddings
              /\ is_Some (embeddingOf wordEmbeddings x);
  clusters_nonempty : Forall (fun c => c <> []) (clusters st)
}.

End RankingVocabulary.

(** ** The matrix while it is built *)

Section MatrixVocabulary.

Import SimilarityService.

Variable wordEmbeddings : WordEmbeddings.

#[local] Abbreviation words := (keys wordEmbeddings).




End MatrixVocabulary.

(** ** An example mapping and library *)

Section ExampleMapping.

Import SimilarityService.
Local Open Scope Q_scope.

Fixpoint dot (a b : Vec) : Q :=
  match a, b with
  | x :: a', y :: b' => x * y + dot a' b'
  | _, _ => 0
  end.

(** A library function for the examples: the dot product, which is the
    cosine similarity of vectors of length one; like the package it
    throws on arrays of different lengths. *)
Definition unitCosine (a b : Vec) : result Q :=
  if (length a =? length b)%nat then Ok (dot a b)
  else Throw (External (js "Input arrays must have the same length")).

Definition moods : WordEmbeddings :=
  [(js "happy", Some [1; 0]);
   (js "joyful", Some [0.96; 0.28]);
   (js "sad", Some [-1; 0])].

Definition moodsAndNull : WordEmbeddings :=
  moods ++ [(js "lost", None)].

(** [d], with the significand [m] and the exponent [-k], is the double
    that the decimal literal denotes: a double of 53 bits, nearer to the
    decimal than half the distance to the next double. *)
Definition nearest (decimal : Q) (m : Z) (k : positive) : Prop :=
  (2 ^ 52 <= m < 2 ^ 53)%Z
  /\ Qabs (SimilarityService.binary64 m k - decimal) < 1 # (2 ^ (k + 1)).

(** The double of the literal [0.95]. *)
Definition double_0_95 : Q := SimilarityService.binary64 8556839292003942 53.


End ExampleMapping.

(** ** What objects inherit in a standard runtime *)

Section StandardRuntime.

(** The properties of [Object.prototype] (ECMAScript 2023, its legacy
    accessors included): eleven functions, and [__proto__], which reads
    the prototype of the object. *)
Definition objectPrototypeKeys : list jsstring :=
  [js "constructor"; js "hasOwnProperty"; js "isPrototypeOf";
   js "propertyIsEnumerable"; js "toLocaleString"; js "toString";
   js "valueOf"; js "__proto__"; js "__defineGetter__";
   js "__defineSetter__"; js "__lookupGetter__"; js "__lookupSetter__"].

(** The properties every built-in function has of its own or inherits
    from [Function.prototype], [caller] and [arguments] apart. *)
Definition functionKeys : list jsstring :=
  [js "length"; js "name"; js "apply"; js "bind"; js "call";
   js "constructor"; js "toString"].

(** The further properties of the function [Object], which
    [Object.prototype.constructor] holds. *)
Definition objectFunctionKeys : list jsstring :=
  [js "prototype"; js "assign"; js "create"; js "defineProperties";
   js "defineProperty"; js "entries"; js "freeze"; js "fromEntries";
   js "getOwnPropertyDescriptor"; js "getOwnPropertyDescriptors";
   js "getOwnPropertyNames"; js "getOwnPropertySymbols";
   js "getPrototypeOf"; js "hasOwn"; js "is"; js "isExtensible";
   js "isFrozen"; js "isSealed"; js "keys"; js "preventExtensions";
   js "seal"; js "setPrototypeOf"; js "values"].

Definition standardInherits (k : jsstring) : bool :=
  bool_decide (k ∈ objectPrototypeKeys).

(** [o[k2] && o[k2][k1] !== undefined] for a key [k2] of
    [Object.prototype]: [o.__proto__] is [Object.prototype] itself, the
    other keys hold functions; reading [caller] or [arguments] of a
    built-in function throws a TypeError. *)
Definition standardMember (k2 k1 : jsstring) : result bool :=
  if decide (k2 = js "__proto__") then
    Ok (bool_decide (k1 ∈ objectPrototypeKeys))
  else if bool_decide (k1 ∈ [js "caller"; js "arguments"]) then
    Throw (External (js "'caller', 'callee', and 'arguments' properties may not be accessed on strict mode functions or the arguments objects for calls to them"))
  else
    Ok (bool_decide
          (k1 ∈ objectPrototypeKeys ++ functionKeys
                ++ (if decide (k2 = js "constructor") then objectFunctionKeys
                    else []))).

End StandardRuntime.

(** ** Collaborators that always succeed *)

Section ExampleCollaborators.

Import RAGController.

Definition healthy : forall X, Event X -> X :=
  fun X e =>
    match e in Event X return X with
    | HealthCheck => Ok true
    | VectorInitialize => Ok true
    | GetBatchEmbeddings texts => Ok (map (fun text => (text, Some [1%Q])) texts)
    | StoreChunks _ _ => Ok true
    | GetEmbedding _ => Ok (Some [1%Q])
    | SearchSimilar _ _ _ _ => Ok []
    end.

(** The same with an embedding service that is down. *)
Definition unhealthy : forall X, Event X -> X :=
  fun X e =>
    match e in Event X return X with
    | HealthCheck => Ok false
    | other => healthy _ other
    end.

End ExampleCollaborators.

(** ** The windows of [createChunks] *)

Section WindowVocabulary.

Import DocumentService.

(** A string of white space only, the empty string included: what
    [trim] empties. *)
Definition blank (s : jsstring) : Prop :=
  Forall (fun c => is_space c = true) s.

Variable this : DocumentService.t.
Variable words : list jsstring.
Variables documentId title : jsstring.

(** The index at which pass [k] of the loop reads its window. *)
Definition windowStart (k : nat) : Z := Z.of_nat k * chunkStep this.

(** The position counter at pass [k]: the lengths of the contents of
    the windows before, summed. *)
Definition windowPosition (k : nat) : nat :=
  sum_list_with
    (fun j => length (chunkContentAt this words (windowStart j))) (seq 0 k).

(** The chunk of window [k]. *)
Definition windowChunk (k : nat) : Chunk.t :=
  {| Chunk.id := documentId ++ js "_chunk_" ++ decimal k;
     Chunk.documentId := documentId;
     Chunk.documentTitle := title;
     Chunk.content := chunkContentAt this words (windowStart k);
     Chunk.startPosition := windowPosition k;
     Chunk.endPosition :=
       (windowPosition k
        + length (chunkContentAt this words (windowStart k)))%nat;
     Chunk.chunkIndex := k;
     Chunk.wordCount := length (chunkWordsAt this words (windowStart k)) |}.

(** Window [k] starts inside the words and is not blank: the pass
    pushes its chunk and the loop goes on. *)
Definition windowKept (k : nat) : Prop :=
  windowStart k < Z.of_nat (length words)
  /\ ~ blank (chunkContentAt this words (windowStart k)).

End WindowVocabulary.

(** ** Stored embeddings *)

Section StoreVocabulary.

Import DocumentService.

(** The entry [storeChunkEmbeddings] makes for the chunk at a position,
    if it makes one: the embedding at that position is neither missing
    nor null. *)
Definition chunkEmbeddingAt (embeddings : list (option Vec))
    (ic : nat * Chunk.t) : option ChunkEmbedding.t :=
  match embeddings !! ic.1 with
  | Some (Some e) =>
      Some {| ChunkEmbedding.chunkId := Chunk.id ic.2;
              ChunkEmbedding.embedding := e;
              ChunkEmbedding.chunk := ic.2 |}
  | _ => None
  end.

(** A case mapping for the examples: that of the letters A to Z. *)
Definition asciiLowerCase (s : jsstring) : jsstring :=
  map (fun c => if ((65 <=? c) && (c <=? 90))%N then (c + 32)%N else c) s.

End StoreVocabulary.

(** ** Clusters around their seeds, entries of the matrix *)

Section SeedVocabulary.

Import SimilarityService.

Variable cosineSimilarity : Vec -> Vec -> result Q.
Variable wordEmbeddings : WordEmbeddings.

(** A cluster is its seed followed by other words, each scored against
    the seed at the threshold or above. *)
Definition seeded (threshold : Q) (cluster : list jsstring) : Prop :=
  exists seed members seedEmbedding,
    cluster = seed :: members
    /\ embeddingOf wordEmbeddings seed = Some seedEmbedding
    /\ forall w, w ∈ members ->
         w <> seed
         /\ exists v q,
              embeddingOf wordEmbeddings w = Some v
              /\ cosineSimilarity seedEmbedding v = Ok q
              /\ (threshold <= q)%Q.

(** What a number in the matrix can be: the 1 of the diagonal, or what
    the library returned for the embeddings of the two words. *)
Definition cellValue (a b : jsstring) (q : Q) : Prop :=
  (a = b /\ q = 1%Q)
  \/ exists ea eb,
       embeddingOf wordEmbeddings a = Some ea
       /\ embeddingOf wordEmbeddings b = Some eb
       /\ (cosineSimilarity ea eb = Ok q \/ cosineSimilarity eb ea = Ok q).

End SeedVocabulary.

(** ** A vector service that reports a failed upsert *)

Section MoreCollaborators.

Import RAGController.

(** Healthy collaborators, except that [storeChunks] resolves to false
    (what the repository's vector service does when an upsert fails). *)
Definition storeFails : forall X, Event X -> X :=
  fun X e =>
    match e in Event X return X with
    | StoreChunks _ _ => Ok false
    | other => healthy _ other
    end.

(** Healthy collaborators with two matches for every query. *)
Definition twoHits : forall X, Event X -> X :=
  fun X e =>
    match e in Event X return X with
    | SearchSimilar _ _ _ _ =>
        Ok (map (fun c => {| hit_id := Chunk.id c; score := 0.75%Q; chunk := c |})
                (take 2 (DocumentService.getDocumentChunks threeChunkStore
                           (js "d1"))))
    | other => healthy _ other
    end.

(** A controller after a successful [initialize]. *)
Definition ready : RAGController.t := setInitialized constructor true.

End MoreCollaborators.

(** ** The services behind the controller *)

Section ServiceVocabulary.

(** What [getEmbedding] resolves to for a text, given the answers of
    the embedding API. *)
Definition resolved
    (answer : forall request, EmbeddingService.Response request)
    (text : jsstring) : EmbeddingService.Embedding :=
  match bind (answer (EmbeddingService.EmbedContent EmbeddingService.model text))
             EmbeddingService.firstValues with
  | Ok embedding => embedding
  | Throw _ => EmbeddingService.Null
  end.

(** The object of [getBatchEmbeddings] as the controllers and the
    similarity service read it. *)
Definition asWordEmbeddings (o : JsObject.t EmbeddingService.Embedding)
  : SimilarityService.WordEmbeddings :=
  map (fun entry => (entry.1, EmbeddingService.truthy entry.2)) o.

(** What an async method of a service settles to; [otherwise] stands
    for a method that never settles, which the methods used below do
    not do: their loops are bounded by the arrays they go through. *)
Definition settled {Request : Type} {Response : Request -> Type} {R : Type}
    (answer : forall request, Response request)
    (p : Async.Prog Request Response R) (otherwise : R) : R :=
  default otherwise (Async.run answer p).

(** The collaborators of [RAGController] as its constructor creates
    them: the repository's embedding service and vector service, over
    the answers of the two remote APIs.  The vector service is taken in
    the state [vectorService]: the handle that its [initialize] sets is
    not carried from one call to the next. *)
Definition wired
    (gen : forall request, EmbeddingService.Response request)
    (pine : forall request, PineconeVectorService.Response request)
    (vectorService : PineconeVectorService.t)
  : forall X, RAGController.Event X -> X :=
  fun X e =>
    match e in RAGController.Event X return X with
    | RAGController.HealthCheck =>
        Ok (settled gen EmbeddingService.healthCheck false)
    | RAGController.VectorInitialize =>
        Ok (settled pine (PineconeVectorService.initialize vectorService)
              (false, vectorService)).1
    | RAGController.GetBatchEmbeddings texts =>
        Ok (asWordEmbeddings
              (settled gen (EmbeddingService.getBatchEmbeddings texts) []))
    | RAGController.StoreChunks chunks namespace =>
        settled pine
          (PineconeVectorService.storeChunks vectorService chunks namespace)
          (Ok false)
    | RAGController.GetEmbedding text =>
        Ok (EmbeddingService.truthy
              (settled gen (EmbeddingService.getEmbedding text)
                 EmbeddingService.Null))
    | RAGController.SearchSimilar queryEmbedding topK namespace filter =>
        settled pine
          (PineconeVectorService.searchSimilar vectorService queryEmbedding
             topK namespace filter)
          (Ok [])
    end.

(** An embedding API that knows two words, and a Pinecone client whose
    upserts are rejected. *)
Definition twoWords : forall request, EmbeddingService.Response request :=
  fun request =>
    match request with
    | EmbeddingService.EmbedContent _ contents =>
        if decide (contents = js "happy") then
          Ok {| EmbeddingService.embeddings :=
                  Some [ {| EmbeddingService.values := Some [1%Q; 0%Q] |} ] |}
        else if decide (contents = js "sad") then
          Ok {| EmbeddingService.embeddings :=
                  Some [ {| EmbeddingService.values := Some [(-1)%Q; 0%Q] |} ] |}
        else Throw (External (js "quota exceeded"))
    | EmbeddingService.SetTimeout _ => tt
    end.

(** An embedding API that answers every text with the same vector. *)
Definition everyWord : forall request, EmbeddingService.Response request :=
  fun request =>
    match request with
    | EmbeddingService.EmbedContent _ _ =>
        Ok {| EmbeddingService.embeddings :=
                Some [ {| EmbeddingService.values := Some [1%Q; 0%Q] |} ] |}
    | EmbeddingService.SetTimeout _ => tt
    end.

Definition rejecting : forall request, PineconeVectorService.Response request :=
  fun request =>
    match request with
    | PineconeVectorService.Index _ => Ok tt
    | PineconeVectorService.DescribeIndexStats => Ok tt
    | PineconeVectorService.Upsert _ _ => Throw (External (js "unavailable"))
    | PineconeVectorService.Query _ _ _ _ => Throw (External (js "unavailable"))
    end.

Definition connected : PineconeVectorService.t :=
  {| PineconeVectorService.indexName := js "vector-embedding-rag";
     PineconeVectorService.index := true;
     PineconeVectorService.dimension := 768 |}.

End ServiceVocabulary.

(** * Proofs *)

(** ** The loop of [createChunks] *)

Section ChunkLoop.

Import DocumentService.

Variable this : DocumentService.t.
Variable words : list jsstring.
Variables documentId title : jsstring.

#[local] Abbreviation iteration := (chunkIteration this words documentId title).
#[local] Abbreviation loop fuel := (chunkLoop fuel this words documentId title).

(** A pass that goes on moves the index by [chunkStep], pushes one chunk
    and decides on the index alone. *)
Lemma chunkIteration_inl st st' :
  iteration st = inl st' ->
  loop_i st' = loop_i st + chunkStep this
  /\ loop_chunks st' = loop_chunks st ++ [newChunk this words documentId title st]
  /\ loop_i st < Z.of_nat (length words)
  /\ trim (chunkContentAt this words (loop_i st)) <> [].
Proof.
  unfold chunkIteration. intros H.
  destruct (loop_i st <? Z.of_nat (length words)) eqn:Hlt; [|discriminate].
  destruct (trim (chunkContentAt this words (loop_i st))) eqn:Htrim;
    simpl in H; [discriminate|].
  injection H as <-. simpl. repeat split; [lia | discriminate].
Qed.

Lemma chunkIteration_inr st chunks :
  iteration st = inr chunks -> chunks = loop_chunks st.
Proof.
  unfold chunkIteration. intros H.
  destruct (loop_i st <? _); [destruct (_ =? _)%nat|]; congruence.
Qed.

(** Whether a pass goes on depends on the index only. *)
Lemma chunkIteration_same_index st1 st2 st1' :
  loop_i st1 = loop_i st2 ->
  iteration st1 = inl st1' -> exists st2', iteration st2 = inl st2'.
Proof.
  unfold chunkIteration. intros <- H.
  destruct (loop_i st1 <? _); [|discriminate].
  destruct (_ =? _)%nat; [discriminate|]. eauto.
Qed.

Lemma chunkLoop_more_fuel fuel fuel' st chunks :
  loop fuel st = Some chunks -> (fuel <= fuel')%nat ->
  loop fuel' st = Some chunks.
Proof.
  revert fuel' st.
  induction fuel as [|fuel IH]; intros fuel' st H Hle; [discriminate|].
  destruct fuel' as [|fuel']; [lia|]. simpl in *.
  destruct (chunkIteration this words documentId title st); [|exact H].
  apply IH; [exact H | lia].
Qed.

(** A window that starts far enough below zero is empty. *)
Lemma slice_far_left (i : Z) :
  i + Z.of_nat (length words) + Z.abs (avgWordsPerChunk this) <= 0 ->
  chunkWordsAt this words i = [].
Proof.
  intros Hi. unfold chunkWordsAt, slice, slice_bound.
  replace (Z.to_nat _) with O; [reflexivity|].
  destruct (i <? 0) eqn:H1; destruct (i + avgWordsPerChunk this <? 0) eqn:H2;
    lia.
Qed.

(** Forward: with a positive step the index reaches the length. *)
Lemma chunkLoop_forward (n : nat) st :
  1 <= chunkStep this ->
  Z.of_nat (length words) - loop_i st <= Z.of_nat n ->
  exists chunks, loop (S n) st = Some chunks.
Proof.
  intros Hstep. revert st.
  induction n as [|n IH]; intros st Hn; simpl.
  - destruct (chunkIteration this words documentId title st) as [st'|r] eqn:E;
      [|eauto].
    apply chunkIteration_inl in E. lia.
  - destruct (chunkIteration this words documentId title st) as [st'|r] eqn:E;
      [|eauto].
    apply chunkIteration_inl in E. destruct E as (Hi & _ & _ & _).
    apply (IH st'). lia.
Qed.

(** Backward: with a negative step the window ends up empty. *)
Lemma chunkLoop_backward (n : nat) st :
  chunkStep this <= -1 ->
  loop_i st + Z.of_nat (length words) + Z.abs (avgWordsPerChunk this)
    <= Z.of_nat n ->
  exists chunks, loop (S n) st = Some chunks.
Proof.
  intros Hstep. revert st.
  induction n as [|n IH]; intros st Hn; simpl.
  - destruct (chunkIteration this words documentId title st) as [st'|r] eqn:E;
      [|eauto].
    apply chunkIteration_inl in E. destruct E as (_ & _ & _ & Hne).
    exfalso. apply Hne. unfold chunkContentAt.
    rewrite slice_far_left by lia. reflexivity.
  - destruct (chunkIteration this words documentId title st) as [st'|r] eqn:E;
      [|eauto].
    apply chunkIteration_inl in E. destruct E as (Hi & _ & _ & _).
    apply (IH st'). lia.
Qed.

(** With a zero step a pass that goes on is repeated for ever. *)
Lemma chunkLoop_stuck fuel st st' :
  chunkStep this = 0 -> iteration st = inl st' -> loop fuel st = None.
Proof.
  intros Hstep. revert st st'.
  induction fuel as [|fuel IH]; intros st st' E; [reflexivity|]. simpl.
  rewrite E.
  destruct (chunkIteration_same_index st st' st') as [st'' E'].
  - apply chunkIteration_inl in E. lia.
  - exact E.
  - exact (IH st' st'' E').
Qed.

Lemma chunkFuel_enough :
  chunkStep this <> 0 ->
  exists chunks, loop (chunkFuel this words) loopStart = Some chunks.
Proof.
  intros Hstep. unfold chunkFuel.
  destruct (Z_lt_le_dec (chunkStep this) 0).
  - apply chunkLoop_backward; simpl; lia.
  - apply chunkLoop_forward; simpl; lia.
Qed.

Lemma numbered_snoc st :
  numbered documentId (loop_chunks st) ->
  numbered documentId (loop_chunks st ++ [newChunk this words documentId title st]).
Proof.
  intros Hnum k c Hk.
  apply lookup_app_Some in Hk as [Hk|[Hlen Hk]]; [exact (Hnum k c Hk)|].
  apply list_lookup_singleton_Some in Hk as [Hk <-].
  assert (k = length (loop_chunks st)) as -> by lia. simpl. auto.
Qed.

Lemma chunkLoop_numbered fuel st chunks :
  loop fuel st = Some chunks -> numbered documentId (loop_chunks st) -> numbered documentId chunks.
Proof.
  revert st.
  induction fuel as [|fuel IH]; intros st H Hnum; [discriminate|].
  simpl in H.
  destruct (iteration st) as [st'|r] eqn:E.
  - apply (IH st' H). apply chunkIteration_inl in E.
    destruct E as (_ & -> & _). apply numbered_snoc, Hnum.
  - apply chunkIteration_inr in E. injection H as <-. subst r. exact Hnum.
Qed.

(** At most one chunk per pass, and with a positive step at most one
    per word. *)
Lemma chunkLoop_length fuel st chunks :
  1 <= chunkStep this ->
  loop fuel st = Some chunks ->
  Z.of_nat (length chunks)
    <= Z.of_nat (length (loop_chunks st))
       + Z.max 0 (Z.of_nat (length words) - loop_i st).
Proof.
  intros Hstep. revert st.
  induction fuel as [|fuel IH]; intros st H; [discriminate|].
  simpl in H.
  destruct (iteration st) as [st'|r] eqn:E.
  - apply IH in H. apply chunkIteration_inl in E.
    destruct E as (Hi & Hc & Hlt & _). rewrite Hc, length_app in H.
    simpl in H. lia.
  - apply chunkIteration_inr in E. injection H as <-. subst r. lia.
Qed.

End ChunkLoop.

(** ** [createChunks] *)

Section CreateChunks.

Import DocumentService.

Lemma createChunks_terminates this content documentId title :
  chunkStep this <> 0 ->
  exists chunks, createChunks this content documentId title = Some chunks.
Proof. intros H. unfold createChunks. now apply chunkFuel_enough. Qed.

(** [None] stands for a loop that no number of passes ends. *)
Lemma createChunks_None this content documentId title :
  createChunks this content documentId title = None ->
  chunkStep this = 0
  /\ forall fuel,
       chunkLoop fuel this (split_ws content) documentId title loopStart = None.
Proof.
  intros HNone.
  destruct (Z.eq_dec (chunkStep this) 0) as [H0|Hne].
  - split; [exact H0|]. intros fuel.
    destruct (chunkIteration this (split_ws content) documentId title loopStart)
      as [st'|r] eqn:E.
    + exact (chunkLoop_stuck _ _ _ _ fuel _ _ H0 E).
    + unfold createChunks, chunkFuel in HNone. simpl in HNone.
      rewrite E in HNone. discriminate.
  - destruct (createChunks_terminates this content documentId title Hne).
    congruence.
Qed.

(** C1, as the code has it: the window start moves by
    [wordsPerChunk - overlapWords] words per pass, with no clamp, so by
    at least one word exactly when [overlapWords < wordsPerChunk]; chunk
    emission terminates whenever that step is not zero (with a negative
    step the start moves backwards until the window is empty), and with
    a positive step it emits at most one chunk per word. *)
Theorem createChunks_step_unclamped this content documentId title :
  chunkStep this <> 0 ->
  (forall st st',
      chunkIteration this (split_ws content) documentId title st = inl st' ->
      loop_i st' = loop_i st + (avgWordsPerChunk this - overlapWords this))
  /\ (1 <= chunkStep this <-> overlapWords this < avgWordsPerChunk this)
  /\ exists chunks,
       createChunks this content documentId title = Some chunks
       /\ (overlapWords this < avgWordsPerChunk this ->
           (length chunks <= length (split_ws content))%nat).
Proof.
  intros Hstep. split; [|split].
  - intros st st' E. now apply chunkIteration_inl in E.
  - unfold chunkStep. lia.
  - destruct (createChunks_terminates this content documentId title Hstep)
      as [chunks Hc].
    exists chunks. split; [exact Hc|]. intros Hlt.
    unfold createChunks in Hc. apply chunkLoop_length in Hc.
    + simpl in Hc. lia.
    + unfold chunkStep. lia.
Qed.

Lemma createChunks_step_unclamped_default :
  (forall st st',
      chunkIteration constructor (split_ws (js "a b c")) (js "d1") (js "T") st
        = inl st' ->
      loop_i st' = loop_i st + (100 - 10))
  /\ (1 <= chunkStep constructor
      <-> overlapWords constructor < avgWordsPerChunk constructor)
  /\ exists chunks,
       createChunks constructor (js "a b c") (js "d1") (js "T") = Some chunks
       /\ (overlapWords constructor < avgWordsPerChunk constructor ->
           (length chunks <= length (split_ws (js "a b c")))%nat).
Proof.
  apply (createChunks_step_unclamped constructor (js "a b c") (js "d1") (js "T")).
  vm_compute. discriminate.
Defined.

(** C1, as stated, fails when [overlapWords = wordsPerChunk]: the step
    is 0, not 1, the window never moves and no number of passes ends the
    loop. *)
Lemma createChunks_equal_overlap_diverges :
  overlapWords equalOverlap = avgWordsPerChunk equalOverlap
  /\ chunkStep equalOverlap = 0
  /\ (forall st st',
        chunkIteration equalOverlap (split_ws (js "a")) (js "d1") (js "T") st
          = inl st' -> loop_i st' = loop_i st)
  /\ (forall fuel,
        chunkLoop fuel equalOverlap (split_ws (js "a")) (js "d1") (js "T")
          loopStart = None)
  /\ createChunks equalOverlap (js "a") (js "d1") (js "T") = None.
Proof.
  split; [reflexivity|]. split; [reflexivity|]. split; [|split].
  - intros st st' E. apply chunkIteration_inl in E.
    destruct E as (-> & _). change (chunkStep equalOverlap) with 0. lia.
  - intros fuel.
    apply (chunkLoop_stuck _ _ _ _ fuel loopStart
             {| loop_i := 0;
                loop_chunks :=
                  [newChunk equalOverlap (split_ws (js "a")) (js "d1") (js "T")
                     loopStart];
                loop_position := 1 |}); reflexivity.
  - reflexivity.
Qed.

(** Ids are told apart by their index. *)
Lemma js_inj (s1 s2 : string) : js s1 = js s2 -> s1 = s2.
Proof.
  unfold js. intros H.
  rewrite <- (string_of_list_ascii_of_string s1),
          <- (string_of_list_ascii_of_string s2).
  f_equal. revert H.
  generalize (list_ascii_of_string s1) (list_ascii_of_string s2).
  induction l as [|a l IH]; intros [|b l'] H; simpl in H; try discriminate.
  - reflexivity.
  - injection H as Hab Hl. f_equal; [|now apply IH].
    rewrite <- (ascii_N_embedding a), <- (ascii_N_embedding b). now f_equal.
Qed.

Lemma decimal_inj (n m : nat) : decimal n = decimal m -> n = m.
Proof. intros H. apply js_inj in H. now apply pretty_nat_inj in H. Qed.

Lemma numbered_NoDup documentId chunks :
  numbered documentId chunks -> NoDup (map Chunk.id chunks).
Proof.
  intros Hnum. apply NoDup_alt. intros i j x Hi Hj.
  rewrite list_lookup_fmap in Hi, Hj.
  destruct (chunks !! i) as [ci|] eqn:Eci; [|discriminate].
  destruct (chunks !! j) as [cj|] eqn:Ecj; [|discriminate].
  simpl in Hi, Hj.
  destruct (Hnum i ci Eci) as [_ Hidi]. destruct (Hnum j cj Ecj) as [_ Hidj].
  assert (Heq : documentId ++ js "_chunk_" ++ decimal i
                = documentId ++ js "_chunk_" ++ decimal j) by congruence.
  apply app_inv_head in Heq. apply app_inv_head in Heq.
  now apply decimal_inj.
Qed.

Lemma createChunks_numbered this content documentId title chunks :
  createChunks this content documentId title = Some chunks ->
  numbered documentId chunks.
Proof.
  unfold createChunks. intros H.
  apply (chunkLoop_numbered _ _ _ _ _ _ _ H).
  intros k c Hk. discriminate.
Qed.

(** C7: the chunks [createChunks] returns carry the indices
    [0 .. n-1] in emission order (the chunk at position [k] has
    [chunkIndex = k]) and the ids [<documentId>_chunk_<k>].  The call
    returns whenever the configured step is not zero, which holds for
    the configuration the constructor sets. *)
Theorem createChunks_indices this content documentId title :
  chunkStep this <> 0 ->
  exists chunks,
    createChunks this content documentId title = Some chunks
    /\ map Chunk.chunkIndex chunks = seq 0 (length chunks)
    /\ forall (k : nat) (c : Chunk.t),
         chunks !! k = Some c ->
         Chunk.chunkIndex c = k
         /\ Chunk.id c = documentId ++ js "_chunk_" ++ decimal k.
Proof.
  intros Hstep.
  destruct (createChunks_terminates this content documentId title Hstep)
    as [chunks Hc].
  exists chunks. split; [exact Hc|].
  pose proof (createChunks_numbered _ _ _ _ _ Hc) as Hnum.
  split; [|exact Hnum].
  apply list_eq. intros k. rewrite list_lookup_fmap.
  destruct (chunks !! k) as [c|] eqn:Ek; simpl.
  - destruct (Hnum k c Ek) as [-> _]. symmetry.
    apply lookup_seq. split; [reflexivity|]. now apply lookup_lt_Some in Ek.
  - symmetry. apply lookup_ge_None. rewrite length_seq.
    now apply lookup_ge_None in Ek.
Qed.

Lemma createChunks_indices_default :
  exists chunks,
    createChunks constructor (js "a b c d e f g h") (js "d1") (js "T")
      = Some chunks
    /\ map Chunk.chunkIndex chunks = seq 0 (length chunks)
    /\ forall (k : nat) (c : Chunk.t),
         chunks !! k = Some c ->
         Chunk.chunkIndex c = k
         /\ Chunk.id c = js "d1" ++ js "_chunk_" ++ decimal k.
Proof.
  apply (createChunks_indices constructor (js "a b c d e f g h") (js "d1")
           (js "T")).
  vm_compute. discriminate.
Defined.

(** The scenario of the specification: eight words, default
    configuration, one chunk with all of them. *)
Example createChunks_eight_words :
  option_map (map (fun c => (Chunk.id c, Chunk.content c, Chunk.wordCount c)))
    (createChunks constructor (js "a b c d e f g h") (js "d1") (js "T"))
  = Some [(js "d1_chunk_0", js "a b c d e f g h", 8%nat)].
Proof. reflexivity. Qed.

End CreateChunks.

(** ** Map lookups *)

Section JsMapFacts.

Context {V : Type}.
Implicit Types (m : JsMap.t V) (k : jsstring) (v : V).

Lemma get_set_eq m k v : JsMap.get k (JsMap.set k v m) = Some v.
Proof.
  induction m as [|[k' v'] m IH]; simpl.
  - now rewrite decide_True.
  - destruct (decide (k' = k)); simpl.
    + now rewrite decide_True.
    + now rewrite decide_False.
Qed.

Lemma get_set_ne m k k' v :
  k <> k' -> JsMap.get k' (JsMap.set k v m) = JsMap.get k' m.
Proof.
  intros Hne. induction m as [|[k0 v0] m IH]; simpl.
  - now rewrite decide_False.
  - destruct (decide (k0 = k)) as [->|]; simpl.
    + now rewrite !decide_False.
    + destruct (decide (k0 = k')); [reflexivity | exact IH].
Qed.

Lemma get_Some_values m k v : JsMap.get k m = Some v -> In v (JsMap.values m).
Proof.
  induction m as [|[k' v'] m IH]; simpl; [discriminate|].
  destruct (decide (k' = k)).
  - intros [= ->]. now left.
  - intros H. right. now apply IH.
Qed.

End JsMapFacts.

(** ** DocumentService: re-adding a document, storing embeddings *)

Section DocumentStore.

Import DocumentService.

(** C4, as the code has it: re-adding a document id replaces the stored
    document record and the chunk list kept for that id, so that
    [getDocument] and [getDocumentChunks] return the new record and
    exactly the newly created chunks; other ids are untouched, and so is
    the map of chunk embeddings: what [storeChunkEmbeddings] stored for
    the former chunks stays in [getAllChunksWithEmbeddings]. *)
Theorem addDocument_replaces this id title content metadata now old :
  getDocument this id = Some old ->
  chunkStep this <> 0 ->
  exists this' chunks,
    addDocument this id title content metadata now = Some (id, this')
    /\ createChunks this content id title = Some chunks
    /\ getDocument this' id
       = Some {| Document.id := id;
                 Document.title := title;
                 Document.content := content;
                 Document.metadata :=
                   {| Document.given := metadata;
                      Document.addedAt := now;
                      Document.characterCount := length content;
                      Document.wordCount := length (split_ws content) |} |}
    /\ getDocumentChunks this' id = chunks
    /\ (forall id', id' <> id ->
          getDocument this' id' = getDocument this id'
          /\ getDocumentChunks this' id' = getDocumentChunks this id')
    /\ getAllChunksWithEmbeddings this' = getAllChunksWithEmbeddings this.
Proof.
  intros _ Hstep.
  destruct (createChunks_terminates this content id title Hstep)
    as [chunks Hc].
  unfold addDocument. rewrite Hc. eexists _, chunks.
  split; [reflexivity|]. split; [reflexivity|].
  unfold getDocument, getDocumentChunks, getAllChunksWithEmbeddings. simpl.
  rewrite !get_set_eq. repeat split; try reflexivity.
  - now rewrite get_set_ne by congruence.
  - now rewrite get_set_ne by congruence.
Qed.

Lemma addDocument_replaces_example :
  exists s2 old,
    storeWithEmbedding = Some s2
    /\ getDocument s2 (js "d1") = Some old
    /\ exists this' chunks,
         addDocument s2 (js "d1") (js "T2") (js "c d e") [] (js "t1")
           = Some (js "d1", this')
         /\ createChunks s2 (js "c d e") (js "d1") (js "T2") = Some chunks
         /\ getDocument this' (js "d1")
            = Some {| Document.id := js "d1";
                      Document.title := js "T2";
                      Document.content := js "c d e";
                      Document.metadata :=
                        {| Document.given := [];
                           Document.addedAt := js "t1";
                           Document.characterCount := 5;
                           Document.wordCount := 3 |} |}
         /\ getDocumentChunks this' (js "d1") = chunks
         /\ (forall id', id' <> js "d1" ->
               getDocument this' id' = getDocument s2 id'
               /\ getDocumentChunks this' id' = getDocumentChunks s2 id')
         /\ getAllChunksWithEmbeddings this' = getAllChunksWithEmbeddings s2.
Proof.
  eexists _, _. split; [reflexivity|]. split; [reflexivity|].
  eapply (addDocument_replaces _ (js "d1") (js "T2") (js "c d e") [] (js "t1")).
  - reflexivity.
  - vm_compute. discriminate.
Defined.

(** C4, as stated, fails once embeddings were stored: after the id is
    added again the former chunk object is gone from
    [getDocumentChunks] and is still handed out by
    [getAllChunksWithEmbeddings]. *)
Lemma addDocument_keeps_old_embeddings :
  exists s2 s3 old,
    storeWithEmbedding = Some s2
    /\ getDocumentChunks s2 (js "d1") = [old]
    /\ Chunk.content old = js "a b"
    /\ addDocument s2 (js "d1") (js "T") (js "c d e") [] (js "t1")
       = Some (js "d1", s3)
    /\ map Chunk.content (getDocumentChunks s3 (js "d1")) = [js "c d e"]
    /\ (old ∉ getDocumentChunks s3 (js "d1"))
    /\ map ChunkEmbedding.chunk (getAllChunksWithEmbeddings s3) = [old].
Proof.
  eexists _, _, _. split; [reflexivity|]. split; [reflexivity|].
  split; [reflexivity|]. split; [reflexivity|]. split; [reflexivity|].
  split; [|reflexivity].
  intros Hin. apply list_elem_of_singleton in Hin. discriminate Hin.
Qed.

(** The [forEach] of [storeChunkEmbeddings], chunk by chunk. *)
Lemma indexed_snoc {A : Type} (l : list A) (x : A) :
  indexed (l ++ [x]) = indexed l ++ [(length l, x)].
Proof.
  unfold indexed. rewrite imap_app. simpl. now rewrite Nat.add_0_r.
Qed.

Lemma storeOne_other embeddings store ic key :
  key <> Chunk.id ic.2 ->
  JsMap.get key (storeOne embeddings store ic) = JsMap.get key store.
Proof.
  intros Hne. unfold storeOne.
  destruct (embeddings !! ic.1) as [[e|]|]; try reflexivity.
  now rewrite get_set_ne by congruence.
Qed.

Lemma storeAll_other embeddings chunks store key :
  key ∉ map Chunk.id chunks ->
  JsMap.get key (fold_left (storeOne embeddings) (indexed chunks) store)
  = JsMap.get key store.
Proof.
  induction chunks as [|c chunks IH] using rev_ind; intros Hnot;
    [reflexivity|].
  rewrite indexed_snoc, fold_left_app. simpl.
  rewrite map_app in Hnot. simpl in Hnot.
  rewrite storeOne_other.
  - apply IH. intros Hin. apply Hnot. apply elem_of_app. now left.
  - simpl. intros ->. apply Hnot. apply elem_of_app. right.
    apply list_elem_of_singleton. reflexivity.
Qed.

Lemma storeAll_lookup embeddings chunks store (k : nat) (c : Chunk.t) :
  NoDup (map Chunk.id chunks) ->
  chunks !! k = Some c ->
  JsMap.get (Chunk.id c)
    (fold_left (storeOne embeddings) (indexed chunks) store)
  = match embeddings !! k with
    | Some (Some e) =>
        Some {| ChunkEmbedding.chunkId := Chunk.id c;
                ChunkEmbedding.embedding := e;
                ChunkEmbedding.chunk := c |}
    | _ => JsMap.get (Chunk.id c) store
    end.
Proof.
  revert k c.
  induction chunks as [|c' chunks IH] using rev_ind; intros k c Hnd Hk;
    [discriminate|].
  rewrite indexed_snoc, fold_left_app. simpl.
  rewrite map_app in Hnd. simpl in Hnd.
  apply NoDup_app in Hnd as (Hnd & Hdisj & _).
  apply lookup_app_Some in Hk as [Hk|[Hlen Hk]].
  - rewrite storeOne_other.
    + now apply IH.
    + simpl. intros Heq. apply (Hdisj (Chunk.id c)).
      * apply list_elem_of_fmap. exists c. split; [reflexivity|].
        apply list_elem_of_lookup. eauto.
      * rewrite Heq. apply list_elem_of_singleton. reflexivity.
  - apply list_lookup_singleton_Some in Hk as [Hk0 <-].
    assert (k = length chunks) as -> by lia.
    unfold storeOne at 1. simpl.
    destruct (embeddings !! length chunks) as [[e|]|].
    + apply get_set_eq.
    + apply storeAll_other. intros Hin. apply (Hdisj (Chunk.id c') Hin).
      apply list_elem_of_singleton. reflexivity.
    + apply storeAll_other. intros Hin. apply (Hdisj (Chunk.id c') Hin).
      apply list_elem_of_singleton. reflexivity.
Qed.

(** The stores the service builds keep their chunk lists numbered. *)
Lemma constructor_numbered : chunksNumbered constructor.
Proof. intros id chunks H. discriminate. Qed.

Lemma addDocument_numbered this id title content metadata now this' :
  chunksNumbered this ->
  addDocument this id title content metadata now = Some (id, this') ->
  chunksNumbered this'.
Proof.
  intros Hnum. unfold addDocument.
  destruct (createChunks this content id title) as [chunks|] eqn:Hc;
    [|discriminate].
  intros [= <-] id' chunks'. simpl.
  destruct (decide (id = id')) as [<-|Hne].
  - rewrite get_set_eq. intros [= <-].
    eapply createChunks_numbered, Hc.
  - rewrite get_set_ne by exact Hne. apply Hnum.
Qed.

Lemma storeChunkEmbeddings_numbered this documentId embeddings this' :
  chunksNumbered this ->
  storeChunkEmbeddings this documentId embeddings = Ok this' ->
  chunksNumbered this'.
Proof.
  intros Hnum. unfold storeChunkEmbeddings.
  destruct (JsMap.get documentId (documentChunks this)); [|discriminate].
  intros [= <-]. exact Hnum.
Qed.

(** C8: on a store of the service, [storeChunkEmbeddings] throws, and
    then the not-found error, exactly when the document id has no stored
    chunk list.  Otherwise it
    returns; the chunk at each position gets the embedding at that
    position; where that embedding is null or missing nothing is stored
    for the chunk (its entry is what it was before the call) and no
    error is raised; entries of other chunk ids, documents and chunk
    lists are left alone. *)
Theorem storeChunkEmbeddings_positional this documentId embeddings :
  chunksNumbered this ->
  (forall e,
      storeChunkEmbeddings this documentId embeddings = Throw e
      <-> JsMap.get documentId (documentChunks this) = None
          /\ e = DocumentNotFound documentId)
  /\ forall chunks,
       JsMap.get documentId (documentChunks this) = Some chunks ->
       exists this',
         storeChunkEmbeddings this documentId embeddings = Ok this'
         /\ documents this' = documents this
         /\ documentChunks this' = documentChunks this
         /\ (forall (k : nat) (c : Chunk.t),
               chunks !! k = Some c ->
               JsMap.get (Chunk.id c) (chunkEmbeddings this')
               = match embeddings !! k with
                 | Some (Some e) =>
                     Some {| ChunkEmbedding.chunkId := Chunk.id c;
                             ChunkEmbedding.embedding := e;
                             ChunkEmbedding.chunk := c |}
                 | _ => JsMap.get (Chunk.id c) (chunkEmbeddings this)
                 end)
         /\ (forall key, (key ∉ map Chunk.id chunks) ->
               JsMap.get key (chunkEmbeddings this')
               = JsMap.get key (chunkEmbeddings this)).
Proof.
  intros Hnum. unfold storeChunkEmbeddings. split.
  - intros e.
    destruct (JsMap.get documentId (documentChunks this)) as [chunks|];
      split.
    + discriminate.
    + intros [? _]. discriminate.
    + intros [= <-]. auto.
    + intros [_ ->]. reflexivity.
  - intros chunks Hget. rewrite Hget. eexists. split; [reflexivity|].
    simpl. repeat split.
    + intros k c Hk. apply storeAll_lookup; [|exact Hk].
      exact (numbered_NoDup documentId chunks (Hnum documentId chunks Hget)).
    + intros key Hkey. now apply storeAll_other.
Qed.

Example threeChunkStore_chunks :
  map Chunk.content (getDocumentChunks threeChunkStore (js "d1"))
  = [js "a b"; js "b c"; js "c"].
Proof. reflexivity. Qed.

Lemma storeChunkEmbeddings_positional_example :
  (forall e,
      storeChunkEmbeddings threeChunkStore (js "d1") [Some [1%Q]; None]
        = Throw e
      <-> JsMap.get (js "d1") (documentChunks threeChunkStore) = None
          /\ e = DocumentNotFound (js "d1"))
  /\ forall chunks,
       JsMap.get (js "d1") (documentChunks threeChunkStore) = Some chunks ->
       exists this',
         storeChunkEmbeddings threeChunkStore (js "d1") [Some [1%Q]; None]
           = Ok this'
         /\ documents this' = documents threeChunkStore
         /\ documentChunks this' = documentChunks threeChunkStore
         /\ (forall (k : nat) (c : Chunk.t),
               chunks !! k = Some c ->
               JsMap.get (Chunk.id c) (chunkEmbeddings this')
               = match [Some [1%Q]; None] !! k with
                 | Some (Some e) =>
                     Some {| ChunkEmbedding.chunkId := Chunk.id c;
                             ChunkEmbedding.embedding := e;
                             ChunkEmbedding.chunk := c |}
                 | _ => JsMap.get (Chunk.id c) (chunkEmbeddings threeChunkStore)
                 end)
         /\ (forall key, (key ∉ map Chunk.id chunks) ->
               JsMap.get key (chunkEmbeddings this')
               = JsMap.get key (chunkEmbeddings threeChunkStore)).
Proof.
  apply (storeChunkEmbeddings_positional threeChunkStore (js "d1")
           [Some [1%Q]; None]).
  apply (addDocument_numbered twoWordChunks (js "d1") (js "T") (js "a b c") []
           (js "t0")); [|reflexivity].
  intros id chunks H. discriminate.
Defined.

(** The same call, evaluated: the first chunk gets its embedding, the
    second (null) and the third (no entry) get none. *)
Example storeChunkEmbeddings_skips :
  match storeChunkEmbeddings threeChunkStore (js "d1") [Some [1%Q]; None] with
  | Ok this' =>
      map (fun ce => (ChunkEmbedding.chunkId ce, ChunkEmbedding.embedding ce))
          (getAllChunksWithEmbeddings this')
  | Throw _ => []
  end = [(js "d1_chunk_0", [1%Q])].
Proof. reflexivity. Qed.

Example storeChunkEmbeddings_unknown :
  storeChunkEmbeddings threeChunkStore (js "d2") [Some [1%Q]]
  = Throw (DocumentNotFound (js "d2")).
Proof. reflexivity. Qed.

End DocumentStore.

(** ** [interpretSimilarity] *)

Section Interpretation.

Import SimilarityService.
Local Open Scope Q_scope.

Lemma gt_true (x y : Q) : gt x y = true <-> y < x.
Proof.
  unfold gt. rewrite negb_true_iff.
  destruct (Qle_bool x y) eqn:E.
  - apply Qle_bool_iff in E. split; [discriminate | lra].
  - split; [|reflexivity]. intros _.
    destruct (Qlt_le_dec y x) as [H|H]; [exact H|].
    apply Qle_bool_iff in H. congruence.
Qed.

Lemma gt_false (x y : Q) : gt x y = false <-> x <= y.
Proof.
  pose proof (gt_true x y) as H.
  destruct (gt x y); split; intros H'; try reflexivity; try discriminate.
  - assert (y < x) by now apply H. lra.
  - destruct (Qlt_le_dec y x) as [Hlt|Hle]; [|exact Hle].
    apply H in Hlt. discriminate.
Qed.

(** The constants of [interpretSimilarity] are doubles, each nearer to
    its decimal than half the distance to the next double; so is the
    double of the literal [0.95]. *)
Lemma literals_nearest :
  nearest 0.9 8106479329266893 53
  /\ nearest 0.7 6305039478318694 53
  /\ nearest 0.5 4503599627370496 53
  /\ nearest 0.3 5404319552844595 54
  /\ nearest 0.1 7205759403792794 56
  /\ nearest 0.95 8556839292003942 53.
Proof. repeat split; vm_compute; first [reflexivity | discriminate]. Qed.

Lemma thresholds_descending :
  double_0_1 < double_0_3 /\ double_0_3 < double_0_5
  /\ double_0_5 < double_0_7 /\ double_0_7 < double_0_9.
Proof. repeat split; vm_compute; reflexivity. Qed.

(** C6: [interpretSimilarity] returns the label of the first threshold,
    taken in descending order, that the score strictly exceeds.  The
    scores and the thresholds are the doubles that the literals denote:
    0.95 is "Nearly identical meaning", 0.7 is "Moderately similar",
    -0.5 is "Very different meaning", and a score equal to a threshold
    gets the label of the next lower bucket. *)
Theorem interpretSimilarity_strict :
  interpretSimilarity double_0_95 = js "Nearly identical meaning"
  /\ interpretSimilarity double_0_7 = js "Moderately similar"
  /\ interpretSimilarity (- double_0_5) = js "Very different meaning"
  /\ interpretSimilarity double_0_9 = js "Very similar meaning"
  /\ interpretSimilarity double_0_5 = js "Somewhat related"
  /\ interpretSimilarity double_0_3 = js "Slightly related"
  /\ interpretSimilarity double_0_1 = js "Very different meaning"
  /\ forall score : Q,
       (double_0_9 < score ->
        interpretSimilarity score = js "Nearly identical meaning")
       /\ (double_0_7 < score <= double_0_9 ->
           interpretSimilarity score = js "Very similar meaning")
       /\ (double_0_5 < score <= double_0_7 ->
           interpretSimilarity score = js "Moderately similar")
       /\ (double_0_3 < score <= double_0_5 ->
           interpretSimilarity score = js "Somewhat related")
       /\ (double_0_1 < score <= double_0_3 ->
           interpretSimilarity score = js "Slightly related")
       /\ (score <= double_0_1 ->
           interpretSimilarity score = js "Very different meaning").
Proof.
  repeat (split; [reflexivity|]).
  intros score. unfold interpretSimilarity.
  destruct (gt score double_0_9) eqn:E9;
    [apply gt_true in E9 | apply gt_false in E9];
  destruct (gt score double_0_7) eqn:E7;
    [apply gt_true in E7 | apply gt_false in E7
    |apply gt_true in E7 | apply gt_false in E7];
  destruct (gt score double_0_5) eqn:E5;
    try (apply gt_true in E5); try (apply gt_false in E5);
  destruct (gt score double_0_3) eqn:E3;
    try (apply gt_true in E3); try (apply gt_false in E3);
  destruct (gt score double_0_1) eqn:E1;
    try (apply gt_true in E1); try (apply gt_false in E1);
  destruct thresholds_descending as (H13 & H35 & H57 & H79);
  repeat split; intros; solve [reflexivity | exfalso; lra].
Qed.

End Interpretation.

(** ** RAGController: the initialization guard *)

Section Guard.

Import RAGController.

Lemma run_initialize answer this :
  run answer (initialize this)
  = Some (match answer _ HealthCheck, answer _ VectorInitialize with
          | Ok true, Ok true => (Ok true, setInitialized this true)
          | _, _ => (Ok false, setInitialized this false)
          end).
Proof.
  unfold initialize. simpl.
  destruct (answer _ HealthCheck) as [[|]|]; try reflexivity. simpl.
  destruct (answer _ VectorInitialize) as [[|]|]; reflexivity.
Qed.

(** C9: while [isInitialized] is false, [addDocument] and [search]
    reject with the not-initialized error at once: the program is a
    plain return, with the controller unchanged and no call awaited.
    [initialize] settles to true exactly when both the health check and
    the vector service answer true, and leaves [isInitialized] equal to
    what it settles to.  With [isInitialized] true both operations pass
    the guard: they call the collaborators and settle to a value, not
    to a rejection. *)
Theorem initialization_guard this id title content metadata namespace now
    query topK filter :
  (isInitialized this = false ->
     addDocument this id title content metadata namespace now
       = Ret (Throw NotInitialized, this)
     /\ search this query topK namespace filter
        = Ret (Throw NotInitialized, this))
  /\ (forall answer, exists b,
        run answer (initialize this) = Some (Ok b, setInitialized this b)
        /\ (b = true
            <-> answer _ HealthCheck = Ok true
                /\ answer _ VectorInitialize = Ok true))
  /\ (isInitialized this = true ->
      forall answer,
        (DocumentService.chunkStep (documentService this) <> 0 ->
         exists b this',
           run answer (addDocument this id title content metadata namespace now)
             = Some (Ok b, this')
           /\ isInitialized this' = true
           /\ (1 <= calls answer
                      (addDocument this id title content metadata namespace now))%nat)
        /\ exists r,
             run answer (search this query topK namespace filter)
               = Some (Ok r, this)
             /\ (1 <= calls answer (search this query topK namespace filter))%nat).
Proof.
  split; [|split].
  - intros Hinit. unfold addDocument, search. now rewrite Hinit.
  - intros answer. rewrite run_initialize.
    destruct (answer _ HealthCheck) as [[|]|];
      destruct (answer _ VectorInitialize) as [[|]|];
      eexists; (split; [reflexivity|]); split;
      solve [ auto | discriminate | intros [? ?]; discriminate ].
  - intros Hinit answer. split.
    + intros Hstep. unfold addDocument. rewrite Hinit. simpl.
      destruct (createChunks_terminates (documentService this) content id
                  title Hstep) as [chunks Hc].
      unfold DocumentService.addDocument. rewrite Hc. simpl.
      destruct (answer _ (GetBatchEmbeddings _)) as [embeddings|e]; simpl.
      * destruct (answer _ (StoreChunks _ _)) as [stored|e]; simpl;
          eexists _, _; (split; [reflexivity|]); simpl; split; auto; lia.
      * eexists _, _. split; [reflexivity|]. simpl. split; auto.
    + unfold search. rewrite Hinit. simpl.
      destruct (answer _ (GetEmbedding query)) as [[queryEmbedding|]|e];
        simpl.
      * destruct (answer _ (SearchSimilar _ _ _ _)) as [similarChunks|e];
          simpl; eexists; (split; [reflexivity|lia]).
      * eexists. split; [reflexivity|lia].
      * eexists. split; [reflexivity|lia].
Qed.

Lemma initialization_guard_fresh :
  addDocument constructor (js "d1") (js "T") (js "a b c") [] (js "default")
    (js "t0")
    = Ret (Throw NotInitialized, constructor)
  /\ search constructor (js "a") 5 (js "default") None
     = Ret (Throw NotInitialized, constructor).
Proof.
  apply (proj1 (initialization_guard constructor (js "d1") (js "T")
                  (js "a b c") [] (js "default") (js "t0") (js "a") 5 None)).
  reflexivity.
Defined.

(** A session: a fresh controller rejects, a failed initialization
    leaves it rejecting, a successful one opens it. *)
Example guard_session :
  run healthy (addDocument constructor (js "d1") (js "T") (js "a b c") []
                 (js "default") (js "t0"))
  = Some (Throw NotInitialized, constructor)
  /\ match run unhealthy (initialize constructor) with
     | Some (settled, this) =>
         settled = Ok false
         /\ run healthy (search this (js "a") 5 (js "default") None)
            = Some (Throw NotInitialized, this)
     | None => False
     end
  /\ match run healthy (initialize constructor) with
     | Some (settled, this) =>
         settled = Ok true
         /\ option_map fst
              (run healthy (addDocument this (js "d1") (js "T") (js "a b c") []
                              (js "default") (js "t0")))
            = Some (Ok true)
         /\ calls healthy (addDocument this (js "d1") (js "T") (js "a b c") []
                             (js "default") (js "t0")) = 2%nat
     | None => False
     end.
Proof. repeat split. Qed.

End Guard.

(** ** Loops that may throw *)

Section FoldM.

Context {A S : Type}.
Implicit Types (body : S -> A -> result S) (l : list A) (s : S).

Lemma bind_Ok {B C : Type} (r : result B) (k : B -> result C) (c : C) :
  bind r k = Ok c -> exists b, r = Ok b /\ k b = Ok c.
Proof. destruct r as [b|e]; simpl; [eauto | discriminate]. Qed.

Lemma foldM_app body l1 l2 s :
  foldM body (l1 ++ l2) s = bind (foldM body l1 s) (foldM body l2).
Proof.
  revert s. induction l1 as [|x l1 IH]; intros s; simpl; [reflexivity|].
  destruct (body s x) as [s'|e]; simpl; [apply IH | reflexivity].
Qed.

Lemma foldM_snoc_Ok body l x s s' :
  foldM body (l ++ [x]) s = Ok s' ->
  exists s1, foldM body l s = Ok s1 /\ body s1 x = Ok s'.
Proof.
  rewrite foldM_app. intros H. apply bind_Ok in H as (s1 & H1 & H2).
  exists s1. split; [exact H1|]. simpl in H2.
  destruct (body s1 x); [exact H2 | discriminate].
Qed.

(** An invariant of the state, indexed by the part of the list already
    gone through. *)
Lemma foldM_invariant body l (P : list A -> S -> Prop) s0 s :
  P [] s0 ->
  (forall pre x rest s1 s2,
      l = pre ++ x :: rest -> P pre s1 -> body s1 x = Ok s2 ->
      P (pre ++ [x]) s2) ->
  foldM body l s0 = Ok s -> P l s.
Proof.
  intros H0. revert s.
  induction l as [|x l IH] using rev_ind; intros s Hstep H.
  - simpl in H. injection H as <-. exact H0.
  - apply foldM_snoc_Ok in H as (s1 & H1 & H2).
    apply (Hstep l x [] s1 s); [reflexivity| |exact H2].
    apply IH; [|exact H1].
    intros pre y rest t1 t2 -> HP Hb.
    apply (Hstep pre y (rest ++ [x]) t1 t2); [|exact HP|exact Hb].
    now rewrite <- app_assoc.
Qed.

(** A loop whose body returns on every element returns. *)
Lemma foldM_returns body l (Q : S -> Prop) s0 :
  Q s0 ->
  (forall x s1, x ∈ l -> Q s1 -> exists s2, body s1 x = Ok s2 /\ Q s2) ->
  exists s, foldM body l s0 = Ok s.
Proof.
  revert s0. induction l as [|x l IH]; intros s0 H0 Hbody; simpl; [eauto|].
  destruct (Hbody x s0) as (s2 & -> & H2); [left | exact H0 |]. simpl.
  apply IH; [exact H2|]. intros y s1 Hy. apply Hbody. now right.
Qed.

(** A loop that throws does so in its body, from a state that an
    invariant of the loop describes. *)
Lemma foldM_throws body l (Q : S -> Prop) s0 e :
  Q s0 ->
  (forall x s1 s2, x ∈ l -> Q s1 -> body s1 x = Ok s2 -> Q s2) ->
  foldM body l s0 = Throw e ->
  exists x s1, x ∈ l /\ Q s1 /\ body s1 x = Throw e.
Proof.
  revert s0. induction l as [|x l IH]; intros s0 H0 Hbody H; simpl in H;
    [discriminate|].
  destruct (body s0 x) as [s'|e'] eqn:E; simpl in H.
  - destruct (IH s') as (y & s1 & Hy & HQ & Hb).
    + apply (Hbody x s0 s'); [left | exact H0 | exact E].
    + intros y s1 s2 Hy. apply Hbody. now right.
    + exact H.
    + exists y, s1. split; [now right | auto].
  - injection H as <-. exists x, s0. split; [left | auto].
Qed.

End FoldM.


(** ** [findMostSimilar] *)

Section Ranking.

Import SimilarityService.

Variable cosineSimilarity : Vec -> Vec -> result Q.

Implicit Types (wordEmbeddings : WordEmbeddings) (word : jsstring).

Lemma embeddingOf_In wordEmbeddings word v :
  NoDup (keys wordEmbeddings) ->
  (word, Some v) ∈ wordEmbeddings ->
  embeddingOf wordEmbeddings word = Some v.
Proof.
  unfold embeddingOf, keys.
  induction wordEmbeddings as [|[w e] rest IH]; intros Hnd Hin.
  - now apply elem_of_nil in Hin.
  - simpl in *. apply NoDup_cons in Hnd as [Hw Hnd].
    apply elem_of_cons in Hin as [Heq|Hin].
    + injection Heq as <- <-. now rewrite decide_True.
    + rewrite decide_False; [now apply IH|].
      intros ->. apply Hw. apply list_elem_of_fmap. now exists (word, Some v).
Qed.

Lemma embeddingOf_Some wordEmbeddings word v :
  embeddingOf wordEmbeddings word = Some v ->
  (word, Some v) ∈ wordEmbeddings.
Proof.
  unfold embeddingOf.
  induction wordEmbeddings as [|[w e] rest IH]; simpl; [discriminate|].
  destruct (decide (w = word)) as [->|Hne].
  - simpl. intros ->. left.
  - intros H. right. now apply IH.
Qed.

Lemma embeddingOf_None_In wordEmbeddings word :
  NoDup (keys wordEmbeddings) ->
  (word, None) ∈ wordEmbeddings ->
  embeddingOf wordEmbeddings word = None.
Proof.
  unfold embeddingOf, keys.
  induction wordEmbeddings as [|[w e] rest IH]; intros Hnd Hin.
  - now apply elem_of_nil in Hin.
  - simpl in *. apply NoDup_cons in Hnd as [Hw Hnd].
    apply elem_of_cons in Hin as [Heq|Hin].
    + injection Heq as <- <-. now rewrite decide_True.
    + rewrite decide_False; [now apply IH|].
      intros ->. apply Hw. apply list_elem_of_fmap. now exists (word, None).
Qed.

Lemma candidates_In targetWord wordEmbeddings w v :
  (w, v) ∈ candidates targetWord wordEmbeddings ->
  w <> targetWord /\ (w, Some v) ∈ wordEmbeddings.
Proof.
  induction wordEmbeddings as [|[w' e] rest IH]; simpl; intros Hin.
  - now apply elem_of_nil in Hin.
  - destruct (decide (w' = targetWord)) as [->|Hne].
    + destruct (IH Hin). split; [assumption | now right].
    + destruct e as [v'|].
      * apply elem_of_cons in Hin as [Heq|Hin].
        -- injection Heq as -> ->. split; [assumption | left].
        -- destruct (IH Hin). split; [assumption | now right].
      * destruct (IH Hin). split; [assumption | now right].
Qed.

Lemma candidates_sublist targetWord wordEmbeddings :
  sublist (map fst (candidates targetWord wordEmbeddings)) (keys wordEmbeddings).
Proof.
  induction wordEmbeddings as [|[w e] rest IH]; simpl; [constructor|].
  destruct (decide (w = targetWord)); [now constructor|].
  destruct e; simpl; now constructor.
Qed.

(** The loop of [findMostSimilar] scores the candidates, in order. *)
Lemma similarities_scored targetWord targetEmbedding wordEmbeddings acc sims :
  foldM (similarTo cosineSimilarity targetWord targetEmbedding)
        wordEmbeddings acc = Ok sims ->
  exists new,
    sims = acc ++ new
    /\ Forall2 (scored cosineSimilarity targetEmbedding) new (candidates targetWord wordEmbeddings).
Proof.
  revert acc.
  induction wordEmbeddings as [|[w e] rest IH]; intros acc H; simpl in *.
  - injection H as <-. exists []. rewrite app_nil_r. split; [reflexivity|constructor].
  - unfold similarTo in H at 1. simpl in H.
    destruct (decide (w = targetWord)); simpl in H; [now apply IH|].
    destruct e as [v|]; simpl in H; [|now apply IH].
    destruct (cosineSimilarity targetEmbedding v) as [q|err] eqn:E; simpl in H;
      [|discriminate].
    apply IH in H as (new & -> & HF).
    exists ({| word := w; similarity := q |} :: new).
    rewrite <- app_assoc. split; [reflexivity|].
    constructor; [|exact HF]. split; [reflexivity | exact E].
Qed.

Lemma similarities_returns targetWord targetEmbedding wordEmbeddings acc :
  (forall w v, (w, Some v) ∈ wordEmbeddings -> w <> targetWord ->
               exists q, cosineSimilarity targetEmbedding v = Ok q) ->
  exists sims,
    foldM (similarTo cosineSimilarity targetWord targetEmbedding)
          wordEmbeddings acc = Ok sims.
Proof.
  intros Hcos.
  apply (foldM_returns _ _ (fun _ => True)); [exact I|].
  intros [w e] s1 Hin _. unfold similarTo. simpl.
  destruct (decide (w = targetWord)); [eauto|].
  destruct e as [v|]; [|eauto].
  destruct (Hcos w v Hin) as [q ->]; [assumption|]. simpl. eauto.
Qed.

(** *** The sort *)

Local Open Scope Q_scope.

Lemma insert_Permutation (a : Similar) (l : list Similar) :
  insert a l ≡ₚ a :: l.
Proof.
  induction l as [|b l IH]; simpl; [reflexivity|].
  destruct (gt (compareFn a b) 0); [|reflexivity].
  rewrite IH. apply Permutation_swap.
Qed.

Lemma sort_Permutation (l : list Similar) : sort l ≡ₚ l.
Proof.
  induction l as [|a l IH]; simpl; [reflexivity|].
  rewrite insert_Permutation. now rewrite IH.
Qed.

Lemma insert_ranked (first : Similar -> Similar -> Prop) a l :
  StronglySorted (ranked first) l ->
  Forall (first a) l ->
  StronglySorted (ranked first) (insert a l).
Proof.
  intros Hsorted. induction Hsorted as [|b l Hl IH Hb]; intros Hfirst; simpl.
  - repeat constructor.
  - apply Forall_cons in Hfirst as [Hab Hfirst].
    destruct (gt (compareFn a b) 0) eqn:E.
    + apply gt_true in E. unfold compareFn in E.
      constructor; [now apply IH|].
      rewrite insert_Permutation. constructor; [|exact Hb].
      left. lra.
    + apply gt_false in E. unfold compareFn in E.
      constructor; [now constructor|].
      constructor.
      * destruct (Qlt_le_dec (similarity b) (similarity a)) as [Hlt|Hle];
          [now left|]. right. split; [lra | exact Hab].
      * rewrite Forall_forall in Hb, Hfirst |- *. intros c Hc.
        destruct (Hb c Hc) as [Hlt|[Heq _]].
        -- left. lra.
        -- destruct (Qlt_le_dec (similarity c) (similarity a)) as [Hlt|Hle];
             [now left|]. right. split; [lra | now apply Hfirst].
Qed.

Lemma sort_ranked (first : Similar -> Similar -> Prop) l :
  StronglySorted first l -> StronglySorted (ranked first) (sort l).
Proof.
  induction 1 as [|a l Hl IH Ha]; simpl; [constructor|].
  apply insert_ranked; [exact IH|]. now rewrite sort_Permutation.
Qed.

Lemma StronglySorted_slice {A : Type} (R : A -> A -> Prop) (l : list A)
    (start stop : Z) :
  StronglySorted R l -> StronglySorted R (slice l start stop).
Proof.
  intros H. unfold slice.
  set (k := Z.to_nat (slice_bound (Z.of_nat (length l)) start)).
  rewrite <- (take_drop k l) in H. apply StronglySorted_app_1_r in H.
  set (n := Z.to_nat _).
  rewrite <- (take_drop n (drop k l)) in H.
  now apply StronglySorted_app_1_l in H.
Qed.

Lemma elem_of_slice {A : Type} (l : list A) (start stop : Z) (x : A) :
  x ∈ slice l start stop -> x ∈ l.
Proof.
  unfold slice. intros H.
  apply elem_of_take in H as (i & Hi & _).
  rewrite lookup_drop in Hi. apply list_elem_of_lookup. eauto.
Qed.

(** [l.slice(0, n)] for a count [n] has at most [n] elements. *)
Lemma length_slice_prefix {A : Type} (l : list A) (n : Z) :
  (0 <= n)%Z -> (Z.of_nat (length (slice l 0 n)) <= n)%Z.
Proof.
  intros Hn. unfold slice, slice_bound. rewrite length_take.
  destruct (n <? 0)%Z eqn:E; simpl; lia.
Qed.

Lemma StronglySorted_lookup {A : Type} (R : A -> A -> Prop) (l : list A)
    (p q : nat) (a b : A) :
  StronglySorted R l -> (p < q)%nat ->
  l !! p = Some a -> l !! q = Some b -> R a b.
Proof.
  intros H Hpq Hp Hq. rewrite <- (take_drop q l) in H.
  apply (StronglySorted_app_1_elem_of R _ _ a b H).
  - apply elem_of_take. eauto.
  - apply list_elem_of_lookup. exists O. rewrite lookup_drop.
    now rewrite Nat.add_0_r.
Qed.

Lemma StronglySorted_mono {A : Type} (R R' : A -> A -> Prop) (l : list A) :
  (forall a b, R a b -> R' a b) -> StronglySorted R l -> StronglySorted R' l.
Proof.
  intros HR. induction 1 as [|a l Hl IH Ha]; constructor; [exact IH|].
  eapply Forall_impl; [exact Ha | apply HR].
Qed.

Lemma StronglySorted_of_fmap {A B : Type} (f : A -> B) (R : B -> B -> Prop)
    (l : list A) :
  StronglySorted R (map f l) -> StronglySorted (fun a b => R (f a) (f b)) l.
Proof.
  induction l as [|a l IH]; simpl; intros H; [constructor|].
  apply StronglySorted_inv in H as [Hl Ha]. constructor; [now apply IH|].
  apply Forall_forall. intros b Hb.
  rewrite Forall_forall in Ha. apply Ha. apply list_elem_of_fmap. eauto.
Qed.

Lemma before_cons {A : Type} (x : A) (l : list A) (a b : A) :
  before l a b -> before (x :: l) a b.
Proof.
  intros (i & j & Hij & Hi & Hj). exists (S i), (S j).
  split; [lia | auto].
Qed.

(** A selection of the keys, taken in order, lists them as the object
    does. *)
Lemma sublist_before {A : Type} (ws l : list A) :
  sublist ws l -> StronglySorted (before l) ws.
Proof.
  induction 1 as [|x ws l Hsub IH|x ws l Hsub IH].
  - constructor.
  - constructor.
    + eapply StronglySorted_mono; [apply before_cons | exact IH].
    + apply Forall_forall. intros w Hw.
      apply (elem_of_sublist _ _ _ Hw) in Hsub.
      apply list_elem_of_lookup in Hsub as [j Hj].
      exists O, (S j). split; [lia | auto].
  - eapply StronglySorted_mono; [apply before_cons | exact IH].
Qed.

Lemma scored_words targetEmbedding sims cands :
  Forall2 (scored cosineSimilarity targetEmbedding) sims cands ->
  map word sims = map fst cands.
Proof.
  induction 1 as [|s c sims cands [Hw _] _ IH]; simpl; [reflexivity|].
  now rewrite Hw, IH.
Qed.

(** What [findMostSimilar] returns, when it returns. *)
Lemma findMostSimilar_Ok targetWord wordEmbeddings topK res :
  findMostSimilar cosineSimilarity targetWord wordEmbeddings topK = Ok res ->
  exists targetEmbedding sims,
    embeddingOf wordEmbeddings targetWord = Some targetEmbedding
    /\ Forall2 (scored cosineSimilarity targetEmbedding) sims (candidates targetWord wordEmbeddings)
    /\ res = slice (sort sims) 0 topK.
Proof.
  unfold findMostSimilar.
  destruct (embeddingOf wordEmbeddings targetWord) as [te|]; [|discriminate].
  intros H. apply bind_Ok in H as (sims & Hs & Hres).
  apply similarities_scored in Hs as (new & -> & HF). simpl in *.
  injection Hres as <-. eauto.
Qed.

Lemma findMostSimilar_returns targetWord wordEmbeddings topK targetEmbedding :
  embeddingOf wordEmbeddings targetWord = Some targetEmbedding ->
  (forall w v, (w, Some v) ∈ wordEmbeddings -> w <> targetWord ->
               exists q, cosineSimilarity targetEmbedding v = Ok q) ->
  exists res,
    findMostSimilar cosineSimilarity targetWord wordEmbeddings topK = Ok res.
Proof.
  intros Hte Hcos. unfold findMostSimilar. rewrite Hte.
  destruct (similarities_returns targetWord targetEmbedding wordEmbeddings []
              Hcos) as [sims ->].
  simpl. eauto.
Qed.

Lemma findMostSimilar_Throw targetWord wordEmbeddings topK e :
  findMostSimilar cosineSimilarity targetWord wordEmbeddings topK = Throw e ->
  (e = TargetNotFound targetWord
   /\ embeddingOf wordEmbeddings targetWord = None)
  \/ exists a b, cosineSimilarity a b = Throw e.
Proof.
  unfold findMostSimilar.
  destruct (embeddingOf wordEmbeddings targetWord) as [te|].
  - intros H. right.
    destruct (foldM (similarTo cosineSimilarity targetWord te) wordEmbeddings [])
      as [sims|e'] eqn:E; simpl in H; [discriminate|]. injection H as ->.
    apply (foldM_throws _ _ (fun _ => True)) in E as ([w emb] & s1 & _ & _ & Hb);
      [|exact I|auto].
    unfold similarTo in Hb. simpl in Hb.
    destruct (decide (w = targetWord)); [discriminate|].
    destruct emb as [v|]; [|discriminate]. simpl in Hb.
    destruct (cosineSimilarity te v) as [q|e'] eqn:Ec; simpl in Hb;
      [discriminate|]. injection Hb as ->. eauto.
  - intros [= <-]. now left.
Qed.

(** Every entry of the result is another word, with an embedding. *)
Lemma findMostSimilar_entries targetWord wordEmbeddings topK res r :
  NoDup (keys wordEmbeddings) ->
  findMostSimilar cosineSimilarity targetWord wordEmbeddings topK = Ok res ->
  r ∈ res ->
  word r <> targetWord
  /\ word r ∈ keys wordEmbeddings
  /\ exists targetEmbedding v,
       embeddingOf wordEmbeddings targetWord = Some targetEmbedding
       /\ embeddingOf wordEmbeddings (word r) = Some v
       /\ cosineSimilarity targetEmbedding v = Ok (similarity r).
Proof.
  intros Hnd H Hr.
  apply findMostSimilar_Ok in H as (te & sims & Hte & HF & ->).
  assert (Hin : r ∈ sims).
  { rewrite <- (sort_Permutation sims). exact (elem_of_slice _ _ _ _ Hr). }
  apply list_elem_of_lookup in Hin as [j Hj].
  destruct (Forall2_lookup_l _ _ _ _ _ HF Hj) as ([w v] & Hc & Hw & Hcos).
  simpl in Hw, Hcos.
  assert (Hcin : (w, v) ∈ candidates targetWord wordEmbeddings).
  { apply list_elem_of_lookup. eauto. }
  apply candidates_In in Hcin as [Hne Hin].
  rewrite Hw. split; [exact Hne|]. split.
  - apply list_elem_of_fmap. now exists (w, Some v).
  - exists te, v. split; [exact Hte|]. split; [|exact Hcos].
    now apply embeddingOf_In.
Qed.

(** C5, as amended: for a target word with an embedding and every
    [topK] (and a library that returns a finite number for the target
    against every other embedding), [findMostSimilar] returns a
    sequence in which no entry is the target word; every entry is a
    word of the mapping with a non-null embedding, scored against the
    target; the entries are in descending order of similarity, and
    entries of equal similarity stand in the order of the mapping.  For
    a [topK] that is not negative the sequence has at most [topK]
    entries. *)
Theorem findMostSimilar_ranked targetWord wordEmbeddings (topK : Z)
    targetEmbedding :
  NoDup (keys wordEmbeddings) ->
  embeddingOf wordEmbeddings targetWord = Some targetEmbedding ->
  (forall w v, (w, Some v) ∈ wordEmbeddings -> w <> targetWord ->
               exists q, cosineSimilarity targetEmbedding v = Ok q) ->
  exists res,
    findMostSimilar cosineSimilarity targetWord wordEmbeddings topK = Ok res
    /\ ((0 <= topK)%Z -> (Z.of_nat (length res) <= topK)%Z)
    /\ (forall r, r ∈ res ->
          word r <> targetWord
          /\ exists v,
               embeddingOf wordEmbeddings (word r) = Some v
               /\ cosineSimilarity targetEmbedding v = Ok (similarity r))
    /\ (forall (p q : nat) a b,
          (p < q)%nat -> res !! p = Some a -> res !! q = Some b ->
          similarity b <= similarity a
          /\ (similarity a == similarity b ->
              before (keys wordEmbeddings) (word a) (word b))).
Proof.
  intros Hnd Hte Hcos.
  destruct (findMostSimilar_returns targetWord wordEmbeddings topK
              targetEmbedding Hte Hcos) as [res Hres].
  exists res. split; [exact Hres|]. split; [|split].
  - intros HtopK.
    apply findMostSimilar_Ok in Hres as (_ & sims & _ & _ & ->).
    now apply length_slice_prefix.
  - intros r Hr.
    destruct (findMostSimilar_entries _ _ _ _ r Hnd Hres Hr)
      as (Hne & _ & te & v & Hte' & Hv & Hc).
    split; [exact Hne|]. exists v. split; [exact Hv|]. congruence.
  - intros p q a b Hpq Hp Hq.
    apply findMostSimilar_Ok in Hres as (te & sims & _ & HF & ->).
    assert (Hsorted :
      StronglySorted
        (ranked (fun a b => before (keys wordEmbeddings) (word a) (word b)))
        (slice (sort sims) 0 topK)).
    { apply StronglySorted_slice, sort_ranked, StronglySorted_of_fmap.
      rewrite (scored_words _ _ _ HF). apply sublist_before.
      apply candidates_sublist. }
    destruct (StronglySorted_lookup _ _ p q a b Hsorted Hpq Hp Hq)
      as [Hlt|[Heq Hfirst]].
    + split; [lra | intros Heq; lra].
    + split; [lra | intros _; exact Hfirst].
Qed.

End Ranking.

(** ** [clusterByThreshold] *)

Section Clustering.

Import SimilarityService.

Variable cosineSimilarity : Vec -> Vec -> result Q.

Implicit Types (wordEmbeddings : WordEmbeddings) (word : jsstring) (threshold : Q).

(** The inner loop adds to the cluster words of the ranking that were
    not visited, each once. *)
Lemma absorb_fold threshold (similarWords : list Similar)
    (cluster : list jsstring) (seen : gset jsstring) :
  exists added,
    (fold_left (absorb threshold) similarWords (cluster, seen)).1
      = cluster ++ added
    /\ (fold_left (absorb threshold) similarWords (cluster, seen)).2
       = list_to_set added ∪ seen
    /\ NoDup added
    /\ forall x, x ∈ added -> (x ∉ seen) /\ x ∈ map word similarWords.
Proof.
  revert cluster seen.
  induction similarWords as [|s sw IH]; intros cluster seen; simpl.
  - exists []. rewrite app_nil_r. split; [reflexivity|].
    split; [set_solver|]. split; [constructor|].
    intros x H. now apply elem_of_nil in H.
  - unfold absorb at 2 4. simpl.
    destruct (bool_decide (SimilarityService.word s ∈ seen)) eqn:Hseen; simpl.
    + destruct (IH cluster seen) as (added & H1 & H2 & H3 & H4).
      exists added. repeat split; try assumption; try (now apply H4).
      right. now apply H4.
    + destruct (ge (similarity s) threshold); simpl.
      * apply bool_decide_eq_false in Hseen.
        destruct (IH (cluster ++ [SimilarityService.word s])
                     ({[SimilarityService.word s]} ∪ seen))
          as (added & H1 & H2 & H3 & H4).
        exists (SimilarityService.word s :: added).
        rewrite H1, H2, <- app_assoc. simpl.
        split; [reflexivity|]. split; [set_solver|]. split.
        -- constructor; [|exact H3]. intros Hin. apply H4 in Hin. set_solver.
        -- intros x Hx. apply elem_of_cons in Hx as [->|Hx].
           ++ split; [exact Hseen | left].
           ++ apply H4 in Hx as [Hx1 Hx2]. split; [set_solver | now right].
      * destruct (IH cluster seen) as (added & H1 & H2 & H3 & H4).
        exists added. repeat split; try assumption; try (now apply H4).
        right. now apply H4.
Qed.

Lemma clustered_start wordEmbeddings :
  clustered wordEmbeddings [] {| visited := ∅; clusters := [] |}.
Proof.
  split; simpl.
  - intros x. split; intros H; [set_solver | now apply elem_of_nil in H].
  - constructor.
  - intros x H. now apply elem_of_nil in H.
  - intros x H. set_solver.
  - constructor.
Qed.

Lemma clusterFrom_clustered wordEmbeddings threshold words pre w st st' :
  NoDup (keys wordEmbeddings) ->
  w ∈ keys wordEmbeddings ->
  clustered wordEmbeddings pre st ->
  clusterFrom cosineSimilarity wordEmbeddings threshold words st w = Ok st' ->
  clustered wordEmbeddings (pre ++ [w]) st'.
Proof.
  intros Hnd Hw [H1 H2 H3 H4 H5]. unfold clusterFrom.
  destruct (bool_decide (w ∈ visited st)) eqn:Hvis.
  - apply bool_decide_eq_true in Hvis. intros [= <-].
    split; try assumption.
    intros x Hx. apply elem_of_app in Hx as [Hx|Hx]; [now apply H3|].
    apply list_elem_of_singleton in Hx. now subst.
  - apply bool_decide_eq_false in Hvis. intros H.
    apply bind_Ok in H as (similarWords & Hsim & H). injection H as <-.
    destruct (absorb_fold threshold similarWords [w] ({[w]} ∪ visited st))
      as (added & Hc & Hv & Hadd & Hnew).
    rewrite Hc, Hv. split; simpl.
    + intros x. rewrite concat_app, elem_of_app. simpl. rewrite app_nil_r.
      rewrite <- H1. rewrite elem_of_cons. set_solver.
    + rewrite concat_app. simpl. rewrite app_nil_r.
      apply NoDup_app. split; [exact H2|]. split.
      * intros x Hx Hx'. apply H1 in Hx.
        apply elem_of_cons in Hx' as [->|Hx']; [contradiction|].
        apply Hnew in Hx' as [Hx' _]. set_solver.
      * constructor; [|exact Hadd]. intros Hin.
        apply Hnew in Hin as [Hin _]. set_solver.
    + intros x Hx. apply elem_of_app in Hx as [Hx|Hx].
      * apply H3 in Hx. set_solver.
      * apply list_elem_of_singleton in Hx. set_solver.
    + intros x Hx.
      apply elem_of_union in Hx as [Hx|Hx].
      * apply elem_of_list_to_set in Hx. apply Hnew in Hx as [_ Hx].
        apply list_elem_of_fmap in Hx as (r & -> & Hr).
        destruct (findMostSimilar_entries cosineSimilarity _ _ _ _ r Hnd
                    Hsim Hr) as (_ & Hk & _ & v & _ & Hv' & _).
        split; [exact Hk | eauto].
      * apply elem_of_union in Hx as [Hx|Hx]; [|now apply H4].
        apply elem_of_singleton in Hx. subst x. split; [exact Hw|].
        apply findMostSimilar_Ok in Hsim as (te & _ & Hte & _). eauto.
    + apply Forall_app. split; [exact H5|]. repeat constructor. discriminate.
Qed.

Lemma clusterLoop_clustered wordEmbeddings threshold st :
  NoDup (keys wordEmbeddings) ->
  foldM (clusterFrom cosineSimilarity wordEmbeddings threshold
           (keys wordEmbeddings))
        (keys wordEmbeddings) {| visited := ∅; clusters := [] |} = Ok st ->
  clustered wordEmbeddings (keys wordEmbeddings) st.
Proof.
  intros Hnd.
  apply (foldM_invariant _ _ (clustered wordEmbeddings));
    [apply clustered_start|].
  intros pre x rest s1 s2 Hsplit Hinv Hbody.
  apply (clusterFrom_clustered wordEmbeddings threshold (keys wordEmbeddings)
           pre x s1 s2 Hnd); [|exact Hinv|exact Hbody].
  rewrite Hsplit. apply elem_of_app. right. left.
Qed.

Lemma elem_of_concat {A : Type} (x : A) (ls : list (list A)) :
  x ∈ concat ls <-> exists l, x ∈ l /\ l ∈ ls.
Proof.
  induction ls as [|l ls IH]; simpl.
  - split; [intros H; now apply elem_of_nil in H|].
    intros (l & _ & H). now apply elem_of_nil in H.
  - rewrite elem_of_app, IH. split.
    + intros [H|(l' & H1 & H2)]; [exists l; split; [exact H | left]|].
      exists l'. split; [exact H1 | now right].
    + intros (l' & H1 & H2). apply elem_of_cons in H2 as [->|H2];
        [now left | right; eauto].
Qed.

Lemma clusterByThreshold_Ok wordEmbeddings threshold cl :
  NoDup (keys wordEmbeddings) ->
  clusterByThreshold cosineSimilarity wordEmbeddings threshold = Ok cl ->
  exists st,
    clustered wordEmbeddings (keys wordEmbeddings) st /\ cl = clusters st.
Proof.
  intros Hnd H. unfold clusterByThreshold in H.
  apply bind_Ok in H as (st & Hst & H). injection H as <-.
  exists st. split; [|reflexivity]. now apply clusterLoop_clustered in Hst.
Qed.

(** A word lies in at most one of lists whose concatenation has no
    repetition. *)
Lemma concat_NoDup_unique {A : Type} (ls : list (list A)) (i j : nat)
    (c c' : list A) (x : A) :
  NoDup (concat ls) ->
  ls !! i = Some c -> ls !! j = Some c' -> x ∈ c -> x ∈ c' -> i = j.
Proof.
  revert i j. induction ls as [|l ls IH]; intros i j Hnd Hi Hj Hx Hx';
    [discriminate|].
  simpl in Hnd. apply NoDup_app in Hnd as (_ & Hdisj & Hnd).
  assert (Hin : forall k d, ls !! k = Some d -> x ∈ d -> x ∈ concat ls).
  { intros k d Hk Hd. apply elem_of_concat. exists d. split; [exact Hd|].
    apply list_elem_of_lookup. eauto. }
  destruct i as [|i], j as [|j]; simpl in Hi, Hj.
  - reflexivity.
  - injection Hi as <-. exfalso. apply (Hdisj x Hx). eapply Hin; eauto.
  - injection Hj as <-. exfalso. apply (Hdisj x Hx'). eapply Hin; eauto.
  - f_equal. eapply IH; eauto.
Qed.

(** C2, as the code has it: whenever [clusterByThreshold] returns, its
    clusters partition the words of the mapping (every word lies in
    exactly one cluster, exactly once; no cluster is empty), and then
    every word of the mapping has a non-null embedding.  It returns when
    every word has a non-null embedding and the library returns a number
    for every two of them. *)
Theorem clusterByThreshold_partition wordEmbeddings threshold :
  NoDup (keys wordEmbeddings) ->
  (forall clusters,
      clusterByThreshold cosineSimilarity wordEmbeddings threshold = Ok clusters ->
      concat clusters ≡ₚ keys wordEmbeddings
      /\ Forall (fun c => c <> []) clusters
      /\ (forall w, w ∈ keys wordEmbeddings ->
            is_Some (embeddingOf wordEmbeddings w)
            /\ exists (i : nat) c,
                 clusters !! i = Some c /\ w ∈ c
                 /\ forall (j : nat) c',
                      clusters !! j = Some c' -> w ∈ c' -> j = i))
  /\ ((forall w e, (w, e) ∈ wordEmbeddings -> is_Some e) ->
      (forall w1 v1 w2 v2,
          (w1, Some v1) ∈ wordEmbeddings -> (w2, Some v2) ∈ wordEmbeddings ->
          w1 <> w2 -> exists q, cosineSimilarity v1 v2 = Ok q) ->
      exists clusters,
        clusterByThreshold cosineSimilarity wordEmbeddings threshold
          = Ok clusters).
Proof.
  intros Hnd. split.
  - intros cl H.
    apply clusterByThreshold_Ok in H as (st & [H1 H2 H3 H4 H5] & ->);
      [|exact Hnd].
    assert (Hperm : concat (clusters st) ≡ₚ keys wordEmbeddings).
    { apply NoDup_Permutation; [exact H2 | exact Hnd |].
      intros x. rewrite <- H1. split; [apply H4 | apply H3]. }
    split; [exact Hperm|]. split; [exact H5|].
    intros w Hw. split; [now apply H4, H3|].
    rewrite <- Hperm in Hw. apply elem_of_concat in Hw as (c & Hwc & Hc).
    apply list_elem_of_lookup in Hc as [i Hi].
    exists i, c. split; [exact Hi|]. split; [exact Hwc|].
    intros j c' Hj Hwc'.
    exact (concat_NoDup_unique _ j i c' c w H2 Hj Hi Hwc' Hwc).
  - intros Hall Hcos. unfold clusterByThreshold.
    destruct (foldM_returns
                (clusterFrom cosineSimilarity wordEmbeddings threshold
                   (keys wordEmbeddings))
                (keys wordEmbeddings) (fun _ => True)
                {| visited := ∅; clusters := [] |} I) as [st ->];
      [|simpl; eauto].
    intros w s1 Hw _. unfold clusterFrom.
    destruct (bool_decide (w ∈ visited s1)); [eauto|].
    apply list_elem_of_fmap in Hw as ([w' e] & -> & Hin). simpl.
    destruct (Hall w' e Hin) as [v ->].
    destruct (findMostSimilar_returns cosineSimilarity w' wordEmbeddings
                (Z.of_nat (length (keys wordEmbeddings)) - 1) v) as [res ->].
    + now apply embeddingOf_In.
    + intros w2 v2 Hin2 Hne. apply (Hcos w' v w2 v2 Hin Hin2). congruence.
    + simpl. eauto.
Qed.

(** C10: when some word of the mapping has a null embedding,
    [clusterByThreshold] throws instead of returning: no word without an
    embedding is ever put into the visited set, so the loop cannot get
    past it.  What is thrown is the target-not-found error of
    [findMostSimilar] for a word without an embedding, unless the library
    threw before. *)
Theorem clusterByThreshold_null_throws wordEmbeddings threshold word :
  NoDup (keys wordEmbeddings) ->
  (word, None) ∈ wordEmbeddings ->
  exists e,
    clusterByThreshold cosineSimilarity wordEmbeddings threshold = Throw e
    /\ ((exists w, e = TargetNotFound w
                   /\ w ∈ keys wordEmbeddings
                   /\ embeddingOf wordEmbeddings w = None)
        \/ exists a b, cosineSimilarity a b = Throw e).
Proof.
  intros Hnd Hnull.
  destruct (clusterByThreshold cosineSimilarity wordEmbeddings threshold)
    as [cl|e] eqn:E.
  - exfalso.
    apply clusterByThreshold_Ok in E as (st & [_ _ H3 H4 _] & _); [|exact Hnd].
    destruct (H4 word) as [_ [v Hv]].
    + apply H3. apply list_elem_of_fmap. now exists (word, None).
    + rewrite (embeddingOf_None_In _ _ Hnd Hnull) in Hv. discriminate.
  - exists e. split; [reflexivity|].
    unfold clusterByThreshold in E.
    destruct (foldM _ _ _) as [st|e'] eqn:Efold; simpl in E; [discriminate|].
    injection E as ->.
    apply (foldM_throws _ _ (fun _ => True)) in Efold
      as (w & s1 & Hw & _ & Hbody); [|exact I|auto].
    unfold clusterFrom in Hbody.
    destruct (bool_decide (w ∈ visited s1)); [discriminate|].
    destruct (findMostSimilar cosineSimilarity w wordEmbeddings _)
      as [res|e'] eqn:Efind; simpl in Hbody; [discriminate|].
    injection Hbody as ->.
    apply findMostSimilar_Throw in Efind as [[-> Hnone]|Hlib].
    + left. exists w. auto.
    + now right.
Qed.

End Clustering.

(** ** [createSimilarityMatrix] *)

Section Matrix.

Import SimilarityService.

Variable cosineSimilarity : Vec -> Vec -> result Q.
Variable inherits : jsstring -> bool.
Variable inheritedMember : jsstring -> jsstring -> result bool.
Variable wordEmbeddings : WordEmbeddings.
Hypothesis keys_NoDup : NoDup (keys wordEmbeddings).
Hypothesis words_plain :
  forall w, w ∈ keys wordEmbeddings -> inherits w = false.

#[local] Abbreviation words := (keys wordEmbeddings).

Implicit Types (matrix m : Matrix) (a b w : jsstring) (i j : nat).

(** Between words that name no inherited property, the read of the
    code is the property of the row itself. *)
Lemma matrixRead_own m a b :
  inherits a = false -> inherits b = false ->
  matrixRead inherits inheritedMember m a b = Ok (cell m a b).
Proof.
  intros Ha Hb. unfold matrixRead, cell.
  destruct (m !! a) as [row|]; simpl; [|now rewrite Ha].
  destruct (row !! b); [reflexivity | now rewrite Hb].
Qed.

Lemma word_plain i w : words !! i = Some w -> inherits w = false.
Proof. intros Hi. apply words_plain, list_elem_of_lookup. eauto. Qed.

Lemma cell_setCell_same m w b v :
  is_Some (m !! w) -> cell (setCell m w b v) w b = Some v.
Proof.
  intros [row Hrow]. unfold setCell, cell. rewrite Hrow.
  rewrite lookup_insert_eq. simpl. apply lookup_insert_eq.
Qed.

Lemma cell_setCell_other m w b v a b' :
  a <> w \/ b' <> b -> cell (setCell m w b v) a b' = cell m a b'.
Proof.
  intros Hne. unfold setCell, cell.
  destruct (m !! w) as [row|] eqn:Hrow; [|reflexivity].
  destruct (decide (a = w)) as [->|Ha].
  - rewrite lookup_insert_eq, Hrow. simpl.
    apply lookup_insert_ne. intros ->. destruct Hne; congruence.
  - now rewrite lookup_insert_ne by congruence.
Qed.



Lemma words_distinct i j a b :
  words !! i = Some a -> words !! j = Some b -> i <> j -> a <> b.
Proof.
  intros Hi Hj Hij ->. apply Hij.
  exact (proj1 (NoDup_alt words) keys_NoDup i j b Hi Hj).
Qed.









Lemma indexed_lookup {A : Type} (l : list A) (i : nat) (x : A) :
  (i, x) ∈ indexed l -> l !! i = Some x.
Proof.
  unfold indexed. intros H.
  apply elem_of_lookup_imap in H as (k & y & Heq & Hk).
  now injection Heq as -> ->.
Qed.

Lemma createSimilarityMatrix_returns :
  (forall w1 v1 w2 v2,
      (w1, Some v1) ∈ wordEmbeddings -> (w2, Some v2) ∈ wordEmbeddings ->
      w1 <> w2 -> exists q, cosineSimilarity v1 v2 = Ok q) ->
  exists m, createSimilarityMatrix cosineSimilarity inherits inheritedMember wordEmbeddings = Ok m.
Proof.
  intros Hcos. unfold createSimilarityMatrix.
  apply (foldM_returns _ _ (fun _ => True)); [exact I|].
  intros [i w] m1 Hiw _. unfold matrixRow. simpl.
  apply indexed_lookup in Hiw.
  destruct (foldM_returns
              (matrixCell cosineSimilarity inherits inheritedMember wordEmbeddings i w)
              (indexed (keys wordEmbeddings)) (fun _ => True)
              (<[w := ∅]> m1) I) as [m2 Hm2]; [|eauto].
  intros [j b] m Hjb _. unfold matrixCell. simpl.
  apply indexed_lookup in Hjb.
  destruct (i =? j)%nat eqn:Hij; [eauto|].
  apply Nat.eqb_neq in Hij.
  rewrite (matrixRead_own m b w (word_plain j b Hjb) (word_plain i w Hiw)).
  simpl.
  destruct (cell m b w); [eauto|].
  destruct (embeddingOf wordEmbeddings w) as [e1|] eqn:He1; [|eauto].
  destruct (embeddingOf wordEmbeddings b) as [e2|] eqn:He2; [|eauto].
  apply embeddingOf_Some in He1, He2.
  destruct (Hcos w e1 b e2 He1 He2) as [q ->]; [|simpl; eauto].
  exact (words_distinct i j w b Hiw Hjb Hij).
Qed.

End Matrix.

Section MatrixTheorem.

Import SimilarityService.

Variable cosineSimilarity : Vec -> Vec -> result Q.
Variable inherits : jsstring -> bool.
Variable inheritedMember : jsstring -> jsstring -> result bool.


End MatrixTheorem.

(** ** The similarity functions on an example *)

Section SimilarityExamples.

Import SimilarityService.
Local Open Scope Q_scope.

Lemma moods_NoDup : NoDup (keys moods).
Proof. apply (bool_decide_unpack _). vm_compute. exact I. Qed.

Lemma moodsAndNull_NoDup : NoDup (keys moodsAndNull).
Proof. apply (bool_decide_unpack _). vm_compute. exact I. Qed.

Lemma moods_dimension w v : (w, Some v) ∈ moodsAndNull -> length v = 2%nat.
Proof.
  intros H. unfold moodsAndNull, moods in H. simpl in H.
  repeat (apply elem_of_cons in H as [H|H]; [simplify_eq; reflexivity|]).
  now apply elem_of_nil in H.
Qed.

Lemma unitCosine_moods w1 v1 w2 v2 :
  (w1, Some v1) ∈ moodsAndNull -> (w2, Some v2) ∈ moodsAndNull ->
  exists q, unitCosine v1 v2 = Ok q.
Proof.
  intros H1 H2. unfold unitCosine.
  rewrite (moods_dimension w1 v1 H1), (moods_dimension w2 v2 H2). simpl. eauto.
Qed.

Lemma moods_in_moodsAndNull w e : (w, e) ∈ moods -> (w, e) ∈ moodsAndNull.
Proof. intros H. apply elem_of_app. now left. Qed.

(** The scenario of the specification, with vectors of length one:
    threshold 0.9 puts "happy" and "joyful" together and leaves "sad"
    alone. *)
Example clusterByThreshold_moods :
  clusterByThreshold unitCosine moods 0.9
  = Ok [[js "happy"; js "joyful"]; [js "sad"]].
Proof. reflexivity. Qed.

Example findMostSimilar_moods :
  match findMostSimilar unitCosine (js "happy") moodsAndNull 5 with
  | Ok res => map word res
  | Throw _ => []
  end = [js "joyful"; js "sad"].
Proof. reflexivity. Qed.

(** C5, as stated, fails for a negative [topK]: [slice(0, topK)] then
    counts from the end, and with -1 the result holds all entries but
    the last, here one entry. *)
Lemma findMostSimilar_negative_topK :
  exists res,
    findMostSimilar unitCosine (js "happy") moodsAndNull (-1) = Ok res
    /\ map word res = [js "joyful"]
    /\ (-1 < Z.of_nat (length res))%Z.
Proof. eexists. split; [reflexivity|]. split; [reflexivity|]. reflexivity. Qed.

(** Equal similarities keep the order of the mapping. *)
Example findMostSimilar_ties :
  match findMostSimilar unitCosine (js "t")
          [(js "b", Some [1; 0]); (js "t", Some [1; 0]); (js "a", Some [1; 0]);
           (js "c", Some [0; 1]); (js "d", Some [1; 0])] 3 with
  | Ok res => map word res
  | Throw _ => []
  end = [js "b"; js "a"; js "d"].
Proof. reflexivity. Qed.

Lemma findMostSimilar_ranked_moods :
  exists res,
    findMostSimilar unitCosine (js "happy") moodsAndNull 1 = Ok res
    /\ (Z.of_nat (length res) <= 1)%Z
    /\ (forall r, r ∈ res ->
          word r <> js "happy"
          /\ exists v,
               embeddingOf moodsAndNull (word r) = Some v
               /\ unitCosine [1; 0] v = Ok (similarity r))
    /\ (forall (p q : nat) a b,
          (p < q)%nat -> res !! p = Some a -> res !! q = Some b ->
          similarity b <= similarity a
          /\ (similarity a == similarity b ->
              before (keys moodsAndNull) (word a) (word b))).
Proof.
  destruct (findMostSimilar_ranked unitCosine (js "happy") moodsAndNull 1
              [1; 0] moodsAndNull_NoDup eq_refl)
    as (res & Hres & Hlength & Hentries & Hsorted).
  - intros w v Hin _.
    apply (unitCosine_moods (js "happy") [1; 0] w v); [|exact Hin].
    apply list_elem_of_here.
  - exists res. split; [exact Hres|]. split; [|split; assumption].
    apply Hlength. discriminate.
Defined.

Lemma clusterByThreshold_partition_moods :
  exists clusters,
    clusterByThreshold unitCosine moods 0.9 = Ok clusters
    /\ concat clusters ≡ₚ keys moods
    /\ Forall (fun c => c <> []) clusters.
Proof.
  destruct (clusterByThreshold_partition unitCosine moods 0.9 moods_NoDup)
    as [Hpart Hreturns].
  destruct Hreturns as [clusters Hc].
  - intros w e Hin. unfold moods in Hin.
    repeat (apply elem_of_cons in Hin as [Hin|Hin]; [simplify_eq; eauto|]).
    now apply elem_of_nil in Hin.
  - intros w1 v1 w2 v2 H1 H2 _.
    apply (unitCosine_moods w1 v1 w2 v2); now apply moods_in_moodsAndNull.
  - exists clusters. split; [exact Hc|].
    destruct (Hpart clusters Hc) as (Hperm & Hne & _). split; assumption.
Defined.

(** C2, as stated, fails on a mapping with a null embedding: no cluster
    sequence is returned, so no word of the mapping is in a cluster. *)
Lemma clusterByThreshold_null_no_clusters :
  clusterByThreshold unitCosine moodsAndNull 0.9
  = Throw (TargetNotFound (js "lost")).
Proof. vm_compute. reflexivity. Qed.

Lemma clusterByThreshold_null_throws_moods :
  exists e,
    clusterByThreshold unitCosine moodsAndNull 0.9 = Throw e
    /\ ((exists w, e = TargetNotFound w
                   /\ w ∈ keys moodsAndNull
                   /\ embeddingOf moodsAndNull w = None)
        \/ exists a b, unitCosine a b = Throw e).
Proof.
  apply (clusterByThreshold_null_throws unitCosine moodsAndNull 0.9 (js "lost")).
  - exact moodsAndNull_NoDup.
  - apply elem_of_app. right. apply list_elem_of_here.
Defined.

Lemma moods_plain w : w ∈ keys moodsAndNull -> standardInherits w = false.
Proof.
  intros H. unfold moodsAndNull, moods in H. simpl in H.
  repeat (apply elem_of_cons in H as [->|H]; [reflexivity|]).
  now apply elem_of_nil in H.
Qed.



(** Entries of the matrix on the example: a computed pair, the diagonal
    of the word without embedding, and a pair with that word. *)
Example createSimilarityMatrix_moods :
  match createSimilarityMatrix unitCosine standardInherits standardMember
          moodsAndNull with
  | Ok matrix =>
      (cell matrix (js "joyful") (js "happy"),
       cell matrix (js "happy") (js "joyful"),
       cell matrix (js "lost") (js "lost"),
       cell matrix (js "lost") (js "sad"),
       cell matrix (js "sad") (js "lost"))
  | Throw _ => (None, None, None, None, None)
  end
  = (Some (Number (1 * 0.96 + (0 * 0.28 + 0))),
     Some (Number (1 * 0.96 + (0 * 0.28 + 0))),
     Some (Number 1), None, None).
Proof. vm_compute. reflexivity. Qed.

(** Two words that both name inherited properties, with embeddings at
    a right angle: the entry between them is not their score but the
    property [length] of the function [Object]. *)
Example createSimilarityMatrix_length :
  match createSimilarityMatrix unitCosine standardInherits standardMember
          [(js "length", Some [1; 0]); (js "constructor", Some [0; 1])] with
  | Ok matrix =>
      (cell matrix (js "length") (js "constructor"),
       cell matrix (js "constructor") (js "length"))
  | Throw _ => (None, None)
  end
  = (Some (Inherited [js "constructor"; js "length"]),
     Some (Inherited [js "constructor"; js "length"])).
Proof. vm_compute. reflexivity. Qed.

End SimilarityExamples.

(** * Further properties of the code *)

(** ** Strings: white space, [split], [join], [slice] *)

Section Strings.

Implicit Types (s cur sep w : jsstring) (l : list jsstring) (c : N).

Lemma trim_start_nil s : trim_start s = [] <-> blank s.
Proof.
  unfold blank. induction s as [|c s IH]; simpl.
  - split; [constructor | reflexivity].
  - destruct (is_space c) eqn:E.
    + rewrite IH. split; [now constructor | now inversion 1].
    + split; [discriminate|]. inversion 1; congruence.
Qed.

Lemma trim_start_head s c r : trim_start s = c :: r -> is_space c = false.
Proof.
  induction s as [|c' s IH]; simpl; [discriminate|].
  destruct (is_space c') eqn:E; [exact IH|]. now intros [= <- _].
Qed.

(** [trim] empties exactly the blank strings. *)
Lemma trim_nil s : trim s = [] <-> blank s.
Proof.
  rewrite <- trim_start_nil. unfold trim, trim_end. split.
  - intros H. destruct (trim_start s) as [|c r] eqn:E; [reflexivity|].
    exfalso. apply trim_start_head in E.
    apply (f_equal (@rev N)) in H. rewrite rev_involutive in H. simpl in H.
    apply trim_start_nil in H. apply Forall_app in H as [_ H].
    apply Forall_inv in H. congruence.
  - now intros ->.
Qed.

Lemma blank_join sep l : blank sep -> Forall blank l -> blank (join sep l).
Proof.
  intros Hsep. induction 1 as [|x l Hx Hl IH]; [constructor|].
  destruct l as [|y l]; [exact Hx|].
  change (blank (x ++ sep ++ join sep (y :: l))).
  apply Forall_app. split; [exact Hx|]. apply Forall_app. now split.
Qed.

Lemma join_blank sep l w : blank (join sep l) -> w ∈ l -> blank w.
Proof.
  induction l as [|x l IH]; intros Hb Hw; [now apply elem_of_nil in Hw|].
  destruct l as [|y l].
  - apply list_elem_of_singleton in Hw. now subst.
  - change (blank (x ++ sep ++ join sep (y :: l))) in Hb.
    apply Forall_app in Hb as [Hx Hb]. apply Forall_app in Hb as [_ Hb].
    apply elem_of_cons in Hw as [->|Hw]; [exact Hx | now apply IH].
Qed.

(** A word without white space in a list keeps the joined string from
    being blank. *)
Lemma join_not_blank sep l w :
  w ∈ l -> w <> [] -> Forall (fun c => is_space c = false) w ->
  ~ blank (join sep l).
Proof.
  intros Hw Hne Hns Hb. apply (join_blank sep l w) in Hb; [|exact Hw].
  destruct w as [|c w]; [congruence|].
  apply Forall_inv in Hb. apply Forall_inv in Hns. congruence.
Qed.

Lemma split_go_blank cur s : blank s -> split_go true cur s = [cur].
Proof.
  induction 1 as [|c s Hc Hs IH]; simpl; [reflexivity|]. now rewrite Hc.
Qed.

(** A blank string splits into empty pieces. *)
Lemma split_ws_blank s : blank s -> Forall (fun w => w = []) (split_ws s).
Proof.
  unfold split_ws. intros [|c r Hc Hr]; simpl; [repeat constructor|].
  rewrite Hc, split_go_blank by exact Hr. repeat constructor.
Qed.

Lemma split_go_nospace (b : bool) cur s :
  Forall (fun c => is_space c = false) cur ->
  Forall (Forall (fun c => is_space c = false)) (split_go b cur s).
Proof.
  revert b cur. induction s as [|c s IH]; intros b cur Hcur; simpl.
  - now repeat constructor.
  - destruct (is_space c) eqn:E.
    + destruct b; [now apply IH|]. constructor; [exact Hcur|].
      apply IH. constructor.
    + apply IH. apply Forall_app. split; [exact Hcur|]. now repeat constructor.
Qed.

(** The pieces hold no white space. *)
Lemma split_ws_nospace s :
  Forall (Forall (fun c => is_space c = false)) (split_ws s).
Proof. apply split_go_nospace. constructor. Qed.

Lemma split_go_length (b : bool) cur s : (1 <= length (split_go b cur s))%nat.
Proof.
  revert b cur. induction s as [|c s IH]; intros b cur; simpl; [lia|].
  destruct (is_space c); [destruct b|]; simpl; auto; lia.
Qed.

Lemma split_go_inner (b : bool) cur s (j : nat) w :
  b = true \/ cur <> [] ->
  split_go b cur s !! j = Some w ->
  (S j < length (split_go b cur s))%nat -> w <> [].
Proof.
  revert b cur j. induction s as [|c s IH]; intros b cur j Hb; simpl.
  - intros _ Hlen. lia.
  - destruct (is_space c) eqn:E.
    + destruct b.
      * apply IH. now left.
      * destruct Hb as [Hb|Hb]; [discriminate|].
        destruct j as [|j]; simpl.
        -- now intros [= <-] _.
        -- intros Hj Hlen. apply (IH true [] j); [now left | exact Hj | lia].
    + apply IH. right. now destruct cur.
Qed.

(** Only the first and the last piece can be empty. *)
Lemma split_ws_inner s (j : nat) w :
  split_ws s !! j = Some w -> (0 < j)%nat ->
  (S j < length (split_ws s))%nat -> w <> [].
Proof.
  unfold split_ws. destruct s as [|c s]; simpl; [intros _ _ H; lia|].
  destruct (is_space c) eqn:E.
  - destruct j as [|j]; [lia|]. simpl. intros Hj _ Hlen.
    apply (split_go_inner true [] s j); [now left | exact Hj | lia].
  - intros Hj _ Hlen.
    apply (split_go_inner false [c] s j); [now right | exact Hj | exact Hlen].
Qed.

Lemma split_go_first (b : bool) cur s w :
  split_go b cur s !! 0%nat = Some w -> exists more, w = cur ++ more.
Proof.
  revert b cur. induction s as [|c s IH]; intros b cur; simpl.
  - intros [= <-]. exists []. now rewrite app_nil_r.
  - destruct (is_space c).
    + destruct b; [apply IH|]. intros [= <-]. exists []. now rewrite app_nil_r.
    + intros H. apply IH in H as [more ->]. exists (c :: more).
      now rewrite <- app_assoc.
Qed.

(** A string that starts with another character than white space has a
    first piece that is not empty. *)
Lemma split_ws_first s c w :
  head s = Some c -> is_space c = false ->
  split_ws s !! 0%nat = Some w -> w <> [].
Proof.
  unfold split_ws. destruct s as [|c' s]; [discriminate|].
  intros [= ->] Hc. simpl. rewrite Hc. intros H.
  apply split_go_first in H as [more ->]. discriminate.
Qed.

Lemma split_go_has (b : bool) cur s c :
  c ∈ cur \/ (c ∈ s /\ is_space c = false) ->
  exists w, w ∈ split_go b cur s /\ c ∈ w.
Proof.
  revert b cur. induction s as [|c' s IH]; intros b cur Hc; simpl.
  - destruct Hc as [Hc|[Hc _]]; [|now apply elem_of_nil in Hc].
    exists cur. split; [left | exact Hc].
  - destruct (is_space c') eqn:E.
    + destruct Hc as [Hc|[Hc Hns]].
      * destruct b.
        -- apply IH. now left.
        -- exists cur. split; [left | exact Hc].
      * apply elem_of_cons in Hc as [->|Hc]; [congruence|].
        destruct b.
        -- apply IH. right. now split.
        -- destruct (IH true []) as (w & Hw & Hcw); [right; now split|].
           exists w. split; [now right | exact Hcw].
    + apply IH. destruct Hc as [Hc|[Hc Hns]].
      * left. apply elem_of_app. now left.
      * apply elem_of_cons in Hc as [->|Hc].
        -- left. apply elem_of_app. right. left.
        -- right. now split.
Qed.

End Strings.

Lemma slice_lookup {A : Type} (l : list A) (start stop : Z) (j : nat) (x : A) :
  0 <= start -> l !! j = Some x -> start <= Z.of_nat j < stop ->
  x ∈ slice l start stop.
Proof.
  intros Hs Hj [H1 H2]. pose proof (lookup_lt_Some _ _ _ Hj) as Hlt.
  unfold slice, slice_bound.
  destruct (start <? 0) eqn:E1; [lia|]. destruct (stop <? 0) eqn:E2; [lia|].
  apply list_elem_of_lookup. exists (j - Z.to_nat start)%nat.
  rewrite lookup_take_lt by lia. rewrite lookup_drop, <- Hj. f_equal. lia.
Qed.

Lemma slice_all {A : Type} (l : list A) (stop : Z) :
  Z.of_nat (length l) <= stop -> slice l 0 stop = l.
Proof.
  intros H.
  assert (H0 : slice_bound (Z.of_nat (length l)) 0 = 0)
    by (unfold slice_bound; simpl; lia).
  assert (H1 : slice_bound (Z.of_nat (length l)) stop = Z.of_nat (length l))
    by (unfold slice_bound; destruct (stop <? 0) eqn:E; lia).
  unfold slice. rewrite H0, H1, Z.sub_0_r, Nat2Z.id. simpl.
  now apply take_ge.
Qed.

(** ** [createChunks]: the chunks are the windows *)

Section ChunkWindows.

Import DocumentService.

Variable this : DocumentService.t.
Variable words : list jsstring.
Variables documentId title : jsstring.

Lemma windowStart_S (k : nat) :
  windowStart this (S k) = windowStart this k + chunkStep this.
Proof. unfold windowStart. lia. Qed.

Lemma windowPosition_S (k : nat) :
  windowPosition this words (S k)
  = (windowPosition this words k
     + length (chunkContentAt this words (windowStart this k)))%nat.
Proof.
  unfold windowPosition. rewrite seq_S, sum_list_with_app. simpl. lia.
Qed.

(** The two ways through the loop body. *)
Lemma chunkIteration_cases st :
  (chunkIteration this words documentId title st
   = inl {| loop_i := loop_i st + chunkStep this;
            loop_chunks :=
              loop_chunks st ++ [newChunk this words documentId title st];
            loop_position :=
              (loop_position st
               + length (chunkContentAt this words (loop_i st)))%nat |}
   /\ loop_i st < Z.of_nat (length words)
   /\ ~ blank (chunkContentAt this words (loop_i st)))
  \/ (chunkIteration this words documentId title st = inr (loop_chunks st)
      /\ (Z.of_nat (length words) <= loop_i st
          \/ blank (chunkContentAt this words (loop_i st)))).
Proof.
  unfold chunkIteration.
  destruct (loop_i st <? Z.of_nat (length words)) eqn:Hlt.
  - destruct (trim (chunkContentAt this words (loop_i st))) as [|c r] eqn:Htrim;
      simpl.
    + right. split; [reflexivity|]. right. now apply trim_nil.
    + left. split; [reflexivity|]. split; [lia|].
      intros Hb. apply trim_nil in Hb. congruence.
  - right. split; [reflexivity|]. left. lia.
Qed.

(** From window [k] on, the loop pushes the chunks of the windows that
    are kept and leaves at the first one that is not. *)
Lemma chunkLoop_windows fuel (k : nat) st chunks :
  loop_i st = windowStart this k ->
  loop_chunks st = map (windowChunk this words documentId title) (seq 0 k) ->
  loop_position st = windowPosition this words k ->
  (forall j : nat, (j < k)%nat -> windowKept this words j) ->
  chunkLoop fuel this words documentId title st = Some chunks ->
  exists n : nat,
    chunks = map (windowChunk this words documentId title) (seq 0 n)
    /\ (forall j : nat, (j < n)%nat -> windowKept this words j)
    /\ (Z.of_nat (length words) <= windowStart this n
        \/ blank (chunkContentAt this words (windowStart this n))).
Proof.
  revert k st.
  induction fuel as [|fuel IH]; intros k st Hi Hc Hp Hk H; [discriminate|].
  simpl in H.
  destruct (chunkIteration_cases st) as [(E & Hlt & Hnb)|(E & Hexit)];
    rewrite E in H.
  - apply (IH (S k)) in H; [exact H|..]; cbn [loop_i loop_chunks loop_position].
    + rewrite windowStart_S. lia.
    + rewrite seq_S, map_app, Hc. simpl. f_equal. f_equal.
      unfold newChunk, windowChunk.
      rewrite Hi, Hp, Hc, length_map, length_seq. reflexivity.
    + rewrite windowPosition_S, Hp, Hi. reflexivity.
    + intros j Hj. destruct (decide (j = k)) as [->|Hne]; [|apply Hk; lia].
      split; rewrite <- Hi; assumption.
  - injection H as <-. exists k. rewrite <- Hi. auto.
Qed.

End ChunkWindows.

Section ChunkTheorems.

Import DocumentService.

Implicit Types (this : DocumentService.t) (content documentId title : jsstring).

Lemma createChunks_windowed this content documentId title chunks :
  createChunks this content documentId title = Some chunks ->
  chunks = map (windowChunk this (split_ws content) documentId title)
               (seq 0 (length chunks))
  /\ (forall k : nat,
        (k < length chunks)%nat -> windowKept this (split_ws content) k)
  /\ (Z.of_nat (length (split_ws content)) <= windowStart this (length chunks)
      \/ blank (chunkContentAt this (split_ws content)
                  (windowStart this (length chunks)))).
Proof.
  unfold createChunks. intros H.
  apply (chunkLoop_windows _ _ _ _ _ O) in H as (n & -> & Hkept & Hexit);
    try reflexivity; [|intros j Hj; lia].
  rewrite length_map, length_seq. auto.
Qed.

(** [createChunks] returns (whenever its step is not zero) the chunks
    of the windows [0 .. n-1], window [k] holding the words from index
    [k * step] up to [k * step + wordsPerChunk], joined by single
    spaces; each of these windows starts inside the words and is not
    blank, and window [n] is the first that starts behind the last word
    or is blank. *)
Theorem createChunks_windows this content documentId title :
  chunkStep this <> 0 ->
  exists chunks,
    createChunks this content documentId title = Some chunks
    /\ chunks = map (windowChunk this (split_ws content) documentId title)
                    (seq 0 (length chunks))
    /\ (forall k : nat,
          (k < length chunks)%nat ->
          Z.of_nat k * chunkStep this < Z.of_nat (length (split_ws content))
          /\ ~ blank (join (js " ")
                        (slice (split_ws content)
                           (Z.of_nat k * chunkStep this)
                           (Z.of_nat k * chunkStep this
                            + avgWordsPerChunk this))))
    /\ (Z.of_nat (length (split_ws content))
          <= Z.of_nat (length chunks) * chunkStep this
        \/ blank (join (js " ")
                    (slice (split_ws content)
                       (Z.of_nat (length chunks) * chunkStep this)
                       (Z.of_nat (length chunks) * chunkStep this
                        + avgWordsPerChunk this)))).
Proof.
  intros Hstep.
  destruct (createChunks_terminates this content documentId title Hstep)
    as [chunks Hc].
  exists chunks. split; [exact Hc|].
  exact (createChunks_windowed _ _ _ _ _ Hc).
Qed.

Lemma createChunks_windows_default :
  exists chunks,
    createChunks twoWordChunks (js "a b c") (js "d1") (js "T") = Some chunks
    /\ chunks = map (windowChunk twoWordChunks (split_ws (js "a b c"))
                       (js "d1") (js "T"))
                    (seq 0 (length chunks))
    /\ (forall k : nat,
          (k < length chunks)%nat ->
          Z.of_nat k * chunkStep twoWordChunks
            < Z.of_nat (length (split_ws (js "a b c")))
          /\ ~ blank (join (js " ")
                        (slice (split_ws (js "a b c"))
                           (Z.of_nat k * chunkStep twoWordChunks)
                           (Z.of_nat k * chunkStep twoWordChunks
                            + avgWordsPerChunk twoWordChunks))))
    /\ (Z.of_nat (length (split_ws (js "a b c")))
          <= Z.of_nat (length chunks) * chunkStep twoWordChunks
        \/ blank (join (js " ")
                    (slice (split_ws (js "a b c"))
                       (Z.of_nat (length chunks) * chunkStep twoWordChunks)
                       (Z.of_nat (length chunks) * chunkStep twoWordChunks
                        + avgWordsPerChunk twoWordChunks)))).
Proof.
  apply (createChunks_windows twoWordChunks (js "a b c") (js "d1") (js "T")).
  vm_compute. discriminate.
Defined.

Lemma sum_list_with_map {A B : Type} (f : A -> B) (g : B -> nat) (l : list A) :
  sum_list_with g (map f l) = sum_list_with (fun x => g (f x)) l.
Proof. induction l as [|x l IH]; simpl; [reflexivity | now rewrite IH]. Qed.

(** The positions [createChunks] records count the characters of the
    chunk contents: a chunk starts at the sum of the lengths of the
    contents of the chunks before it and ends one content length
    further, so that every chunk starts where its predecessor ends, the
    first one at 0. *)
Theorem createChunks_positions this content documentId title :
  chunkStep this <> 0 ->
  exists chunks,
    createChunks this content documentId title = Some chunks
    /\ forall (k : nat) c,
         chunks !! k = Some c ->
         Chunk.startPosition c
         = sum_list_with (fun c' => length (Chunk.content c')) (take k chunks)
         /\ Chunk.endPosition c
            = (Chunk.startPosition c + length (Chunk.content c))%nat
         /\ forall c', chunks !! S k = Some c' ->
                       Chunk.startPosition c' = Chunk.endPosition c.
Proof.
  intros Hstep.
  destruct (createChunks_terminates this content documentId title Hstep)
    as [chunks Hc].
  exists chunks. split; [exact Hc|].
  apply createChunks_windowed in Hc as (Hch & _ & _).
  remember (length chunks) as n eqn:Hn. clear Hn. subst chunks.
  intros k c Hk. rewrite list_lookup_fmap in Hk.
  destruct (seq 0 n !! k) as [k'|] eqn:Ek; [|discriminate].
  apply lookup_seq in Ek as [-> Hlt]. simpl in Hk. injection Hk as <-.
  split; [|split].
  - rewrite <- fmap_take, take_seq, Nat.min_l by lia.
    rewrite sum_list_with_map. reflexivity.
  - reflexivity.
  - intros c' Hk'. rewrite list_lookup_fmap in Hk'.
    destruct (seq 0 n !! S k) as [k'|] eqn:Ek'; [|discriminate].
    apply lookup_seq in Ek' as [-> _]. simpl in Hk'. injection Hk' as <-.
    simpl. apply windowPosition_S.
Qed.

Lemma createChunks_positions_default :
  exists chunks,
    createChunks twoWordChunks (js "a b c") (js "d1") (js "T") = Some chunks
    /\ forall (k : nat) c,
         chunks !! k = Some c ->
         Chunk.startPosition c
         = sum_list_with (fun c' => length (Chunk.content c')) (take k chunks)
         /\ Chunk.endPosition c
            = (Chunk.startPosition c + length (Chunk.content c))%nat
         /\ forall c', chunks !! S k = Some c' ->
                       Chunk.startPosition c' = Chunk.endPosition c.
Proof.
  apply (createChunks_positions twoWordChunks (js "a b c") (js "d1") (js "T")).
  vm_compute. discriminate.
Defined.

(** The positions on the example: three chunks of 3, 3 and 1
    characters. *)
Example createChunks_positions_three :
  option_map (map (fun c => (Chunk.content c, Chunk.startPosition c,
                             Chunk.endPosition c)))
    (createChunks twoWordChunks (js "a b c") (js "d1") (js "T"))
  = Some [(js "a b", 0%nat, 3%nat); (js "b c", 3%nat, 6%nat);
          (js "c", 6%nat, 7%nat)].
Proof. reflexivity. Qed.

(** Content that is empty or white space only gives no chunk, under
    every configuration (the loop is left in its first pass, also when
    the step is zero). *)
Theorem createChunks_blank this content documentId title :
  blank content -> createChunks this content documentId title = Some [].
Proof.
  intros Hb. unfold createChunks, chunkFuel. simpl.
  destruct (chunkIteration_cases this (split_ws content) documentId title
              loopStart) as [(E & Hlt & Hnb)|(E & _)]; rewrite E.
  - exfalso. apply Hnb. apply blank_join; [repeat constructor|].
    apply Forall_forall. intros w Hw. apply elem_of_slice in Hw.
    pose proof (split_ws_blank content Hb) as Hall.
    rewrite Forall_forall in Hall. rewrite (Hall w Hw). constructor.
  - reflexivity.
Qed.

Lemma createChunks_blank_example :
  blank [32%N; 10%N; 9%N]
  /\ createChunks equalOverlap [32%N; 10%N; 9%N] (js "d1") (js "T") = Some [].
Proof.
  assert (H : blank [32%N; 10%N; 9%N]) by (repeat constructor).
  split; [exact H|].
  exact (createChunks_blank equalOverlap [32%N; 10%N; 9%N] (js "d1") (js "T") H).
Defined.

Lemma nospace_blank_nil (w : jsstring) :
  Forall (fun c => is_space c = false) w -> blank w -> w = [].
Proof.
  destruct w as [|c w]; [reflexivity|]. intros Hns Hb.
  apply Forall_inv in Hns. apply Forall_inv in Hb. congruence.
Qed.

(** Content that is not blank and whose words fit into one window and
    into one step gives exactly one chunk: all the words, joined by
    single spaces. *)
Theorem createChunks_single this content documentId title (c : N) :
  c ∈ content -> is_space c = false ->
  Z.of_nat (length (split_ws content)) <= chunkStep this ->
  Z.of_nat (length (split_ws content)) <= avgWordsPerChunk this ->
  createChunks this content documentId title
  = Some [ {| Chunk.id := documentId ++ js "_chunk_0";
              Chunk.documentId := documentId;
              Chunk.documentTitle := title;
              Chunk.content := join (js " ") (split_ws content);
              Chunk.startPosition := 0;
              Chunk.endPosition := length (join (js " ") (split_ws content));
              Chunk.chunkIndex := 0;
              Chunk.wordCount := length (split_ws content) |} ].
Proof.
  intros Hc Hns Hstep Hw.
  pose proof (split_go_length false [] content) as Hlen.
  fold (split_ws content) in Hlen.
  destruct (createChunks_terminates this content documentId title)
    as [chunks Hch]; [lia|].
  rewrite Hch. f_equal.
  apply createChunks_windowed in Hch as (Hch & Hkept & Hexit).
  assert (Hwin : chunkWordsAt this (split_ws content) 0 = split_ws content).
  { unfold chunkWordsAt. apply slice_all. lia. }
  assert (Hcontent : chunkContentAt this (split_ws content) 0
                     = join (js " ") (split_ws content)).
  { unfold chunkContentAt. now rewrite Hwin. }
  remember (length chunks) as n eqn:Hn. clear Hn.
  destruct n as [|[|n]]; [exfalso| |exfalso].
  - change (windowStart this 0) with 0 in Hexit.
    destruct Hexit as [Hexit|Hexit]; [lia|].
    rewrite Hcontent in Hexit.
    destruct (split_go_has false [] content c) as (w & Hwin' & Hcw);
      [right; now split|].
    apply (join_blank _ _ w) in Hexit; [|exact Hwin'].
    unfold blank in Hexit. rewrite Forall_forall in Hexit.
    specialize (Hexit c Hcw). congruence.
  - rewrite Hch. simpl. f_equal.
    unfold windowChunk, windowPosition.
    change (windowStart this 0) with 0. simpl.
    rewrite Hcontent, Hwin. reflexivity.
  - destruct (Hkept 1%nat) as [Hlt _]; [lia|].
    unfold windowStart in Hlt. lia.
Qed.

Lemma createChunks_single_default :
  createChunks constructor (js " one  two ") (js "d1") (js "T")
  = Some [ {| Chunk.id := js "d1" ++ js "_chunk_0";
              Chunk.documentId := js "d1";
              Chunk.documentTitle := js "T";
              Chunk.content := join (js " ") (split_ws (js " one  two "));
              Chunk.startPosition := 0;
              Chunk.endPosition :=
                length (join (js " ") (split_ws (js " one  two ")));
              Chunk.chunkIndex := 0;
              Chunk.wordCount := length (split_ws (js " one  two ")) |} ].
Proof.
  apply (createChunks_single constructor (js " one  two ") (js "d1") (js "T")
           111%N).
  - apply (bool_decide_unpack _). vm_compute. exact I.
  - reflexivity.
  - vm_compute. discriminate.
  - vm_compute. discriminate.
Defined.

(** White space at the ends of the content shows in the chunk: the
    empty pieces count as words. *)
Example createChunks_padded :
  option_map (map (fun c => (Chunk.content c, Chunk.wordCount c)))
    (createChunks constructor (js " one  two ") (js "d1") (js "T"))
  = Some [(js " one two ", 4%nat)].
Proof. reflexivity. Qed.

Lemma split_ws_first_nonempty content (w : jsstring) :
  (forall c, head content = Some c -> is_space c = false) ->
  split_ws content !! 0%nat = Some w ->
  (2 <= length (split_ws content))%nat -> w <> [].
Proof.
  destruct content as [|c content]; [simpl; lia|].
  intros Hhead Hw _. apply (split_ws_first (c :: content) c w); auto.
Qed.

(** No word is lost: when the step is at least one word and at most
    the window (the overlap is not negative), and the window holds two
    words or more or the content does not start with white space, every
    word of the content is among the words of some chunk. *)
Theorem createChunks_covers this content documentId title :
  1 <= chunkStep this <= avgWordsPerChunk this ->
  (2 <= avgWordsPerChunk this
   \/ forall c, head content = Some c -> is_space c = false) ->
  exists chunks,
    createChunks this content documentId title = Some chunks
    /\ forall (j : nat) (w : jsstring),
         split_ws content !! j = Some w -> w <> [] ->
         exists (k : nat) (c : Chunk.t),
           chunks !! k = Some c
           /\ Z.of_nat k * chunkStep this <= Z.of_nat j
              < Z.of_nat k * chunkStep this + avgWordsPerChunk this
           /\ w ∈ chunkWordsAt this (split_ws content)
                    (Z.of_nat k * chunkStep this)
           /\ Chunk.content c
              = join (js " ")
                  (chunkWordsAt this (split_ws content)
                     (Z.of_nat k * chunkStep this)).
Proof.
  intros [Hs1 Hs2] Hfirst.
  destruct (createChunks_terminates this content documentId title)
    as [chunks Hch]; [lia|].
  exists chunks. split; [exact Hch|].
  apply createChunks_windowed in Hch as (Hch & _ & Hexit).
  remember (length chunks) as n eqn:Hn. clear Hn.
  set (words := split_ws content) in *.
  set (s := chunkStep this) in *. set (wpc := avgWordsPerChunk this) in *.
  pose proof (split_ws_nospace content) as Hnospace. fold words in Hnospace.
  rewrite Forall_forall in Hnospace.
  assert (Hin : forall (p : nat) x, words !! p = Some x -> x ∈ words).
  { intros p x Hp. apply list_elem_of_lookup. eauto. }
  intros j w Hj Hne.
  pose proof (lookup_lt_Some _ _ _ Hj) as Hjlen.
  assert (Hblank : forall (p : nat) x,
            blank (chunkContentAt this words (windowStart this n)) ->
            words !! p = Some x ->
            Z.of_nat n * s <= Z.of_nat p < Z.of_nat n * s + wpc -> x = []).
  { intros p x Hb Hp Hrange. apply nospace_blank_nil.
    - apply Hnospace. exact (Hin p x Hp).
    - apply (join_blank (js " ") (chunkWordsAt this words (windowStart this n))).
      + exact Hb.
      + apply (slice_lookup _ _ _ p); [unfold windowStart; fold s; nia | exact Hp |].
        unfold windowStart. fold s wpc. lia. }
  assert (Hbefore : Z.of_nat j < Z.of_nat n * s).
  { destruct Hexit as [Hexit|Hexit]; [unfold windowStart in Hexit; lia|].
    destruct (Z_lt_le_dec (Z.of_nat j) (Z.of_nat n * s)) as [Hlt|Hge];
      [exact Hlt | exfalso].
    destruct (Z_lt_le_dec (Z.of_nat j) (Z.of_nat n * s + wpc)) as [Hin'|Hout].
    - apply Hne. apply (Hblank j w Hexit Hj). lia.
    - assert (Hp0 : exists x0, words !! Z.to_nat (Z.of_nat n * s) = Some x0).
      { apply lookup_lt_is_Some. nia. }
      destruct Hp0 as [x0 Hp0].
      assert (Hx0 : x0 = []).
      { apply (Hblank _ x0 Hexit Hp0). nia. }
      assert (Hn0 : n = O).
      { destruct (Nat.eq_dec (Z.to_nat (Z.of_nat n * s)) O) as [H0|H0]; [nia|].
        exfalso.
        apply (split_ws_inner content _ x0 Hp0); [lia | fold words; nia | exact Hx0]. }
      subst n. simpl in Hp0.
      destruct Hfirst as [Hw2|Hhead].
      + assert (Hp1 : exists x1, words !! 1%nat = Some x1).
        { apply lookup_lt_is_Some. nia. }
        destruct Hp1 as [x1 Hp1].
        apply (split_ws_inner content 1 x1 Hp1); [lia | fold words; nia |].
        apply (Hblank 1%nat x1 Hexit Hp1). lia.
      + apply (split_ws_first_nonempty content x0 Hhead);
          [exact Hp0 | fold words; lia | exact Hx0]. }
  set (k := Z.to_nat (Z.of_nat j / s)).
  assert (Hk : Z.of_nat k * s <= Z.of_nat j < Z.of_nat k * s + s).
  { unfold k. rewrite Z2Nat.id by (apply Z.div_pos; lia).
    pose proof (Z.mul_div_le (Z.of_nat j) s).
    pose proof (Z.mul_succ_div_gt (Z.of_nat j) s). lia. }
  assert (Hkn : (k < n)%nat) by nia.
  exists k, (windowChunk this words documentId title k).
  split; [|split; [|split]].
  - rewrite Hch, list_lookup_fmap, lookup_seq_lt by exact Hkn. reflexivity.
  - lia.
  - apply (slice_lookup _ _ _ j); [nia | exact Hj | lia].
  - reflexivity.
Qed.

Lemma createChunks_covers_default :
  exists chunks,
    createChunks constructor (js "a b c") (js "d1") (js "T") = Some chunks
    /\ forall (j : nat) (w : jsstring),
         split_ws (js "a b c") !! j = Some w -> w <> [] ->
         exists (k : nat) (c : Chunk.t),
           chunks !! k = Some c
           /\ Z.of_nat k * chunkStep constructor <= Z.of_nat j
              < Z.of_nat k * chunkStep constructor + avgWordsPerChunk constructor
           /\ w ∈ chunkWordsAt constructor (split_ws (js "a b c"))
                    (Z.of_nat k * chunkStep constructor)
           /\ Chunk.content c
              = join (js " ")
                  (chunkWordsAt constructor (split_ws (js "a b c"))
                     (Z.of_nat k * chunkStep constructor)).
Proof.
  apply (createChunks_covers constructor (js "a b c") (js "d1") (js "T")).
  - vm_compute. split; discriminate.
  - left. vm_compute. discriminate.
Defined.

(** With one word per chunk, content that starts with white space
    loses all its words: the first window is the empty piece in front
    of them. *)
Example createChunks_leading_space :
  avgWordsPerChunk {| documents := JsMap.empty;
                      documentChunks := JsMap.empty;
                      chunkEmbeddings := JsMap.empty;
                      chunkSize := 5;
                      chunkOverlap := 0 |} = 1
  /\ createChunks {| documents := JsMap.empty;
                     documentChunks := JsMap.empty;
                     chunkEmbeddings := JsMap.empty;
                     chunkSize := 5;
                     chunkOverlap := 0 |} (js " a b") (js "d1") (js "T")
     = Some [].
Proof. split; reflexivity. Qed.

End ChunkTheorems.

(** ** Map: entries and order *)

Section JsMapOrder.

Context {V : Type}.
Implicit Types (m : JsMap.t V) (k : jsstring) (v : V).

Lemma set_same m k v : JsMap.get k m = Some v -> JsMap.set k v m = m.
Proof.
  induction m as [|[k' v'] m IH]; simpl; [discriminate|].
  destruct (decide (k' = k)) as [->|Hne].
  - now intros [= ->].
  - intros H. now rewrite IH.
Qed.

(** A new key goes behind the entries there are. *)
Lemma set_fresh m k v : JsMap.get k m = None -> JsMap.set k v m = m ++ [(k, v)].
Proof.
  induction m as [|[k' v'] m IH]; simpl; [reflexivity|].
  destruct (decide (k' = k)); [discriminate|].
  intros H. now rewrite IH.
Qed.

Lemma set_size m k v :
  JsMap.size (JsMap.set k v m)
  = match JsMap.get k m with
    | Some _ => JsMap.size m
    | None => S (JsMap.size m)
    end.
Proof.
  unfold JsMap.size. induction m as [|[k' v'] m IH]; simpl; [reflexivity|].
  destruct (decide (k' = k)); simpl; [reflexivity|].
  rewrite IH. now destruct (JsMap.get k m).
Qed.

Lemma get_app m1 m2 k :
  JsMap.get k (m1 ++ m2)
  = match JsMap.get k m1 with
    | Some v => Some v
    | None => JsMap.get k m2
    end.
Proof.
  induction m1 as [|[k' v'] m1 IH]; simpl; [reflexivity|].
  now destruct (decide (k' = k)).
Qed.

Lemma get_None m k : (k ∉ map fst m) -> JsMap.get k m = None.
Proof.
  induction m as [|[k' v'] m IH]; simpl; [reflexivity|].
  intros Hk. destruct (decide (k' = k)) as [->|Hne].
  - exfalso. apply Hk. left.
  - apply IH. intros Hin. apply Hk. now right.
Qed.

End JsMapOrder.

Lemma fold_left_sum {A : Type} (f : A -> nat) (l : list A) (a : nat) :
  fold_left (fun sum x => (sum + f x)%nat) l a = (a + sum_list_with f l)%nat.
Proof.
  revert a. induction l as [|x l IH]; intros a; simpl; [lia|].
  rewrite IH. lia.
Qed.

(** ** DocumentService: stored embeddings, statistics, search *)

Section DocumentStoreMore.

Import DocumentService.

Implicit Types (this : DocumentService.t) (embeddings : list (option Vec)).

Lemma storeOne_chunkEmbeddingAt embeddings store ic :
  storeOne embeddings store ic
  = match chunkEmbeddingAt embeddings ic with
    | Some ce => JsMap.set (Chunk.id ic.2) ce store
    | None => store
    end.
Proof.
  unfold storeOne, chunkEmbeddingAt.
  now destruct (embeddings !! ic.1) as [[e|]|].
Qed.

Lemma chunkEmbeddingAt_id embeddings (chunks : list Chunk.t) ce :
  ce ∈ omap (chunkEmbeddingAt embeddings) (indexed chunks) ->
  ChunkEmbedding.chunkId ce ∈ map Chunk.id chunks.
Proof.
  intros H. apply list_elem_of_omap in H as ([k c] & Hin & Hce).
  apply indexed_lookup in Hin.
  unfold chunkEmbeddingAt in Hce. simpl in Hce.
  destruct (embeddings !! k) as [[e|]|]; try discriminate.
  injection Hce as <-. simpl.
  apply list_elem_of_fmap. exists c. split; [reflexivity|].
  apply list_elem_of_lookup. eauto.
Qed.

(** On chunk ids without an entry the loop appends its entries, in the
    order of the chunks. *)
Lemma storeAll_fresh embeddings (chunks : list Chunk.t)
    (store : JsMap.t ChunkEmbedding.t) :
  NoDup (map Chunk.id chunks) ->
  (forall c, c ∈ chunks -> JsMap.get (Chunk.id c) store = None) ->
  fold_left (storeOne embeddings) (indexed chunks) store
  = store
    ++ map (fun ce => (ChunkEmbedding.chunkId ce, ce))
           (omap (chunkEmbeddingAt embeddings) (indexed chunks)).
Proof.
  induction chunks as [|c chunks IH] using rev_ind; intros Hnd Hfresh.
  - simpl. now rewrite app_nil_r.
  - rewrite map_app in Hnd. simpl in Hnd.
    apply NoDup_app in Hnd as (Hnd & Hdisj & _).
    rewrite indexed_snoc, fold_left_app, omap_app, map_app. simpl.
    rewrite IH; [|exact Hnd|].
    2:{ intros c' Hc'. apply Hfresh. apply elem_of_app. now left. }
    rewrite storeOne_chunkEmbeddingAt. simpl.
    destruct (chunkEmbeddingAt embeddings (length chunks, c)) as [ce|] eqn:Ece;
      simpl.
    + rewrite set_fresh.
      * rewrite <- app_assoc. do 2 f_equal.
        unfold chunkEmbeddingAt in Ece. simpl in Ece.
        destruct (embeddings !! length chunks) as [[e|]|]; try discriminate.
        now injection Ece as <-.
      * rewrite get_app, Hfresh by (apply elem_of_app; right; left).
        apply get_None. rewrite map_map. simpl. intros Hin.
        apply list_elem_of_fmap in Hin as (ce' & Heq & Hce').
        apply chunkEmbeddingAt_id in Hce'. rewrite <- Heq in Hce'.
        apply (Hdisj _ Hce'). left.
    + now rewrite app_nil_r.
Qed.

(** When none of the document's chunks has a stored embedding yet,
    [storeChunkEmbeddings] appends to what [getAllChunksWithEmbeddings]
    lists one entry for each chunk whose embedding is there, in the
    order of the chunks; what was listed before stays in front. *)
Theorem storeChunkEmbeddings_appends this documentId embeddings chunks :
  chunksNumbered this ->
  JsMap.get documentId (documentChunks this) = Some chunks ->
  (forall c, c ∈ chunks ->
             JsMap.get (Chunk.id c) (chunkEmbeddings this) = None) ->
  exists this',
    storeChunkEmbeddings this documentId embeddings = Ok this'
    /\ getAllChunksWithEmbeddings this'
       = getAllChunksWithEmbeddings this
         ++ omap (chunkEmbeddingAt embeddings) (indexed chunks).
Proof.
  intros Hnum Hget Hfresh. unfold storeChunkEmbeddings. rewrite Hget.
  eexists. split; [reflexivity|].
  unfold getAllChunksWithEmbeddings, JsMap.values. simpl.
  rewrite storeAll_fresh; [|exact (numbered_NoDup _ _ (Hnum _ _ Hget))|exact Hfresh].
  rewrite map_app, map_map. simpl. now rewrite map_id.
Qed.

Lemma threeChunkStore_numbered : chunksNumbered threeChunkStore.
Proof.
  apply (addDocument_numbered twoWordChunks (js "d1") (js "T") (js "a b c") []
           (js "t0")); [|reflexivity].
  intros id chunks H. discriminate.
Qed.

Lemma storeChunkEmbeddings_appends_example :
  exists chunks this',
    JsMap.get (js "d1") (documentChunks threeChunkStore) = Some chunks
    /\ storeChunkEmbeddings threeChunkStore (js "d1")
         [Some [1%Q]; None; Some [2%Q]] = Ok this'
    /\ getAllChunksWithEmbeddings this'
       = getAllChunksWithEmbeddings threeChunkStore
         ++ omap (chunkEmbeddingAt [Some [1%Q]; None; Some [2%Q]])
                 (indexed chunks).
Proof.
  eexists.
  destruct (storeChunkEmbeddings_appends threeChunkStore (js "d1")
              [Some [1%Q]; None; Some [2%Q]] _ threeChunkStore_numbered
              eq_refl) as (this' & Hstore & Hall).
  - intros c _. reflexivity.
  - exists this'. split; [reflexivity|]. split; [exact Hstore | exact Hall].
Defined.

Lemma fold_left_fixed {A B : Type} (f : A -> B -> A) (l : list B) (a : A) :
  (forall x, x ∈ l -> f a x = a) -> fold_left f l a = a.
Proof.
  induction l as [|x l IH]; intros H; simpl; [reflexivity|].
  rewrite H by left. apply IH. intros y Hy. apply H. now right.
Qed.

(** Storing the same embeddings a second time changes nothing: each
    entry is set again to what it holds, at the place it has. *)
Theorem storeChunkEmbeddings_idempotent this documentId embeddings this' :
  chunksNumbered this ->
  storeChunkEmbeddings this documentId embeddings = Ok this' ->
  storeChunkEmbeddings this' documentId embeddings = Ok this'.
Proof.
  intros Hnum. unfold storeChunkEmbeddings.
  destruct (JsMap.get documentId (documentChunks this)) as [chunks|] eqn:Hget;
    [|discriminate].
  intros [= <-]. simpl. rewrite Hget. do 2 f_equal.
  pose proof (numbered_NoDup _ _ (Hnum _ _ Hget)) as Hnd.
  apply fold_left_fixed. intros [k c] Hkc. apply indexed_lookup in Hkc.
  pose proof (storeAll_lookup embeddings chunks (chunkEmbeddings this) k c
                Hnd Hkc) as Hlook.
  unfold storeOne. simpl.
  destruct (embeddings !! k) as [[e|]|]; try reflexivity.
  now apply set_same.
Qed.

Lemma storeChunkEmbeddings_idempotent_example :
  exists this',
    storeChunkEmbeddings threeChunkStore (js "d1") [Some [1%Q]; None] = Ok this'
    /\ storeChunkEmbeddings this' (js "d1") [Some [1%Q]; None] = Ok this'.
Proof.
  eexists. split; [reflexivity|].
  apply (storeChunkEmbeddings_idempotent threeChunkStore (js "d1")
           [Some [1%Q]; None] _ threeChunkStore_numbered).
  reflexivity.
Defined.

(** What adding a document does to the statistics.  The number of
    documents grows by one exactly when the id is new, the number of
    stored embeddings stays, and for a new id the totals grow by what
    the document brings: its chunks, the pieces its content splits
    into, and its length. *)
Theorem getStats_addDocument this id title content metadata now this' :
  addDocument this id title content metadata now = Some (id, this') ->
  totalDocuments (getStats this')
  = match getDocument this id with
    | Some _ => totalDocuments (getStats this)
    | None => S (totalDocuments (getStats this))
    end
  /\ totalEmbeddings (getStats this') = totalEmbeddings (getStats this)
  /\ (getDocument this id = None ->
      totalWords (getStats this')
      = (totalWords (getStats this) + length (split_ws content))%nat
      /\ totalCharacters (getStats this')
         = (totalCharacters (getStats this) + length content)%nat)
  /\ (JsMap.get id (documentChunks this) = None ->
      totalChunks (getStats this')
      = (totalChunks (getStats this)
         + length (getDocumentChunks this' id))%nat).
Proof.
  unfold addDocument.
  destruct (createChunks this content id title) as [chunks|]; [|discriminate].
  intros [= <-]. unfold getStats, getDocument, getDocumentChunks. simpl.
  split; [apply set_size|]. split; [reflexivity|]. split.
  - intros Hnew. rewrite (set_fresh _ _ _ Hnew). unfold JsMap.values.
    rewrite !fold_left_sum, map_app, !sum_list_with_app. simpl. lia.
  - intros Hnew. rewrite get_set_eq, (set_fresh _ _ _ Hnew).
    unfold JsMap.values.
    rewrite !fold_left_sum, map_app, !sum_list_with_app. simpl. lia.
Qed.

Lemma getStats_addDocument_example :
  exists this',
    addDocument threeChunkStore (js "d2") (js "T2") (js "x y") [] (js "t1")
      = Some (js "d2", this')
    /\ totalDocuments (getStats this')
       = match getDocument threeChunkStore (js "d2") with
         | Some _ => totalDocuments (getStats threeChunkStore)
         | None => S (totalDocuments (getStats threeChunkStore))
         end
    /\ totalEmbeddings (getStats this')
       = totalEmbeddings (getStats threeChunkStore)
    /\ (getDocument threeChunkStore (js "d2") = None ->
        totalWords (getStats this')
        = (totalWords (getStats threeChunkStore)
           + length (split_ws (js "x y")))%nat
        /\ totalCharacters (getStats this')
           = (totalCharacters (getStats threeChunkStore)
              + length (js "x y"))%nat)
    /\ (JsMap.get (js "d2") (documentChunks threeChunkStore) = None ->
        totalChunks (getStats this')
        = (totalChunks (getStats threeChunkStore)
           + length (getDocumentChunks this' (js "d2")))%nat).
Proof.
  eexists. split; [reflexivity|].
  apply (getStats_addDocument threeChunkStore (js "d2") (js "T2") (js "x y") []
           (js "t1")).
  reflexivity.
Defined.

Example getStats_two_documents :
  match addDocument threeChunkStore (js "d2") (js "T2") (js "x y") []
          (js "t1") with
  | Some (_, this') => Some (getStats this')
  | None => None
  end
  = Some {| totalDocuments := 2;
            totalChunks := 5;
            totalEmbeddings := 0;
            totalWords := 5;
            totalCharacters := 8;
            averageWordsPerDocument := 3;
            averageChunksPerDocument := 3 |}.
Proof. reflexivity. Qed.

Lemma roundedAverage_nearest (total count : nat) :
  (0 < count)%nat ->
  (2 * roundedAverage total count * count <= 2 * total + count
   < 2 * (roundedAverage total count + 1) * count)%nat.
Proof.
  intros Hc. unfold roundedAverage.
  pose proof (Nat.div_mod (2 * total + count) (2 * count)) as Hdiv.
  pose proof (Nat.mod_upper_bound (2 * total + count) (2 * count)) as Hmod.
  nia.
Qed.

(** The averages of [getStats]: both are 0 when there is no document
    (no division by zero, also after [clearAll]), and otherwise each is
    the integer nearest to the mean, a half going upwards. *)
Theorem getStats_averages this :
  (totalDocuments (getStats this) = O ->
   averageWordsPerDocument (getStats this) = O
   /\ averageChunksPerDocument (getStats this) = O)
  /\ ((0 < totalDocuments (getStats this))%nat ->
      (2 * averageWordsPerDocument (getStats this)
         * totalDocuments (getStats this)
       <= 2 * totalWords (getStats this) + totalDocuments (getStats this)
       < 2 * (averageWordsPerDocument (getStats this) + 1)
           * totalDocuments (getStats this))%nat
      /\ (2 * averageChunksPerDocument (getStats this)
            * totalDocuments (getStats this)
          <= 2 * totalChunks (getStats this) + totalDocuments (getStats this)
          < 2 * (averageChunksPerDocument (getStats this) + 1)
              * totalDocuments (getStats this))%nat)
  /\ getStats (clearAll this)
     = {| totalDocuments := 0;
          totalChunks := 0;
          totalEmbeddings := 0;
          totalWords := 0;
          totalCharacters := 0;
          averageWordsPerDocument := 0;
          averageChunksPerDocument := 0 |}.
Proof.
  split; [|split; [|reflexivity]].
  - unfold getStats. simpl. intros ->. simpl. auto.
  - unfold getStats. simpl. intros Hn.
    destruct (0 <? JsMap.size (documents this))%nat eqn:E;
      [|apply Nat.ltb_ge in E; lia].
    split; apply roundedAverage_nearest; exact Hn.
Qed.

Lemma includes_empty (s : jsstring) : includes s [] = true.
Proof. now destruct s. Qed.

(** The empty query finds every document, in the order in which the
    ids were first added: the empty string is part of every string. *)
Theorem searchDocuments_empty_query (toLowerCase : jsstring -> jsstring) this :
  toLowerCase [] = [] ->
  searchDocuments toLowerCase this [] = getAllDocuments this.
Proof.
  intros Hlower. unfold searchDocuments, getAllDocuments. rewrite Hlower.
  induction (JsMap.values (documents this)) as [|doc l IH]; simpl;
    [reflexivity|].
  rewrite includes_empty. simpl. now rewrite IH.
Qed.

Lemma searchDocuments_empty_query_example :
  asciiLowerCase [] = []
  /\ searchDocuments asciiLowerCase threeChunkStore []
     = getAllDocuments threeChunkStore.
Proof.
  split; [reflexivity|].
  now apply (searchDocuments_empty_query asciiLowerCase threeChunkStore).
Defined.

(** The search ignores the case of letters and looks into titles and
    contents. *)
Example searchDocuments_case :
  map Document.id (searchDocuments asciiLowerCase threeChunkStore (js "B C"))
  = [js "d1"]
  /\ searchDocuments asciiLowerCase threeChunkStore (js "t") <> []
  /\ searchDocuments asciiLowerCase threeChunkStore (js "z") = [].
Proof. split; [reflexivity|]. split; [discriminate | reflexivity]. Qed.

End DocumentStoreMore.

Lemma slice_prefix {A : Type} (l : list A) (n : Z) :
  0 <= n -> slice l 0 n = take (Z.to_nat n) l.
Proof.
  intros Hn.
  assert (H0 : slice_bound (Z.of_nat (length l)) 0 = 0)
    by (unfold slice_bound; simpl; lia).
  assert (H1 : slice_bound (Z.of_nat (length l)) n
               = Z.min n (Z.of_nat (length l)))
    by (unfold slice_bound; destruct (n <? 0) eqn:E; lia).
  unfold slice. rewrite H0, H1, Z.sub_0_r.
  change (drop (Z.to_nat 0) l) with l.
  destruct (Z_le_dec n (Z.of_nat (length l))) as [Hle|Hgt].
  - now rewrite Z.min_l.
  - transitivity l; [apply take_ge; lia | symmetry; apply take_ge; lia].
Qed.

Lemma StronglySorted_any {A : Type} (l : list A) :
  StronglySorted (fun _ _ => True) l.
Proof. induction l; constructor; [assumption | now apply Forall_true]. Qed.

(** ** [findMostSimilar]: the best come first, none is lost *)

Section RankingMore.

Import SimilarityService.

Variable cosineSimilarity : Vec -> Vec -> result Q.

Implicit Types (wordEmbeddings : WordEmbeddings) (targetWord : jsstring).

Lemma ge_true (x y : Q) : ge x y = true <-> (y <= x)%Q.
Proof. unfold ge. apply Qle_bool_iff. Qed.

Lemma ge_false (x y : Q) : ge x y = false <-> (x < y)%Q.
Proof.
  pose proof (ge_true x y) as H.
  destruct (ge x y); split; intros H'; try reflexivity; try discriminate.
  - assert (y <= x)%Q by now apply H. lra.
  - destruct (Qlt_le_dec x y) as [Hlt|Hle]; [exact Hlt|].
    apply H in Hle. discriminate.
Qed.

Lemma candidates_length targetWord wordEmbeddings :
  (length (candidates targetWord wordEmbeddings) <= length wordEmbeddings)%nat.
Proof.
  induction wordEmbeddings as [|[w e] rest IH]; simpl; [lia|].
  destruct (decide (w = targetWord)); [lia|]. destruct e; simpl; lia.
Qed.

Lemma candidates_complete targetWord wordEmbeddings w v :
  (w, Some v) ∈ wordEmbeddings -> w <> targetWord ->
  (w, v) ∈ candidates targetWord wordEmbeddings.
Proof.
  intros Hin Hne.
  induction wordEmbeddings as [|[w' e] rest IH]; [now apply elem_of_nil in Hin|].
  simpl. apply elem_of_cons in Hin as [Heq|Hin].
  - injection Heq as <- <-. rewrite decide_False by exact Hne. left.
  - destruct (decide (w' = targetWord)); [now apply IH|].
    destruct e; [right|]; now apply IH.
Qed.

(** [findMostSimilar] returns the best, the scores being the finite
    numbers that the library returned: for a count [topK] the result
    has [topK] entries, or one entry for each other word with an
    embedding when these are fewer, and no entry that was left out
    scores higher than one that was returned.  (A score that is NaN,
    which the package returns for a vector of zeros, makes the
    comparator of the sort inconsistent; the statement is not about
    such a mapping.) *)
Theorem findMostSimilar_top targetWord wordEmbeddings (topK : Z) res :
  0 <= topK ->
  findMostSimilar cosineSimilarity targetWord wordEmbeddings topK = Ok res ->
  exists targetEmbedding sims rest,
    embeddingOf wordEmbeddings targetWord = Some targetEmbedding
    /\ Forall2 (scored cosineSimilarity targetEmbedding) sims
               (candidates targetWord wordEmbeddings)
    /\ res ++ rest ≡ₚ sims
    /\ length res
       = Nat.min (Z.to_nat topK) (length (candidates targetWord wordEmbeddings))
    /\ forall r s, r ∈ res -> s ∈ rest -> (similarity s <= similarity r)%Q.
Proof.
  intros HtopK H.
  apply findMostSimilar_Ok in H as (te & sims & Hte & HF & ->).
  exists te, sims, (drop (Z.to_nat topK) (sort sims)).
  rewrite slice_prefix by exact HtopK.
  split; [exact Hte|]. split; [exact HF|]. split; [|split].
  - rewrite take_drop. apply sort_Permutation.
  - rewrite length_take, (Permutation_length (sort_Permutation sims)),
      (Forall2_length _ _ _ HF). reflexivity.
  - intros r s Hr Hs.
    pose proof (sort_ranked (fun _ _ => True) sims (StronglySorted_any sims))
      as Hsorted.
    rewrite <- (take_drop (Z.to_nat topK) (sort sims)) in Hsorted.
    destruct (StronglySorted_app_1_elem_of _ _ _ r s Hsorted Hr Hs)
      as [Hlt|[Heq _]]; lra.
Qed.

End RankingMore.

(** ** [clusterByThreshold]: what a cluster holds *)

Section ClusteringMore.

Import SimilarityService.

Variable cosineSimilarity : Vec -> Vec -> result Q.

Implicit Types (wordEmbeddings : WordEmbeddings) (threshold : Q).

Lemma absorb_cases threshold (cluster : list jsstring) (seen : gset jsstring)
    (s : Similar) :
  (absorb threshold (cluster, seen) s = (cluster ++ [word s], {[word s]} ∪ seen)
   /\ (word s ∉ seen) /\ ge (similarity s) threshold = true)
  \/ (absorb threshold (cluster, seen) s = (cluster, seen)
      /\ (word s ∈ seen \/ ge (similarity s) threshold = false)).
Proof.
  unfold absorb. simpl.
  destruct (bool_decide (word s ∈ seen)) eqn:Hseen; simpl.
  - right. apply bool_decide_eq_true in Hseen. auto.
  - apply bool_decide_eq_false in Hseen.
    destruct (ge (similarity s) threshold); auto.
Qed.

(** Every word the inner loop adds scored at the threshold or above. *)
Lemma absorb_members threshold (similarWords : list Similar)
    (cluster : list jsstring) (seen : gset jsstring) :
  exists added,
    (fold_left (absorb threshold) similarWords (cluster, seen)).1
    = cluster ++ added
    /\ forall x, x ∈ added ->
         exists s, s ∈ similarWords /\ word s = x
                   /\ ge (similarity s) threshold = true.
Proof.
  revert cluster seen.
  induction similarWords as [|s sw IH]; intros cluster seen; simpl.
  - exists []. split; [now rewrite app_nil_r|].
    intros x Hx. now apply elem_of_nil in Hx.
  - destruct (absorb_cases threshold cluster seen s) as [(-> & _ & Hge)|(-> & _)].
    + destruct (IH (cluster ++ [word s]) ({[word s]} ∪ seen))
        as (added & H1 & H2).
      exists (word s :: added). split; [now rewrite H1, <- app_assoc|].
      intros x Hx. apply elem_of_cons in Hx as [->|Hx].
      * exists s. split; [left | auto].
      * destruct (H2 x Hx) as (s' & Hs' & Hw & Hge').
        exists s'. split; [now right | auto].
    + destruct (IH cluster seen) as (added & H1 & H2).
      exists added. split; [exact H1|].
      intros x Hx. destruct (H2 x Hx) as (s' & Hs' & Hw & Hge').
      exists s'. split; [now right | auto].
Qed.

(** Nothing is added when every score is below the threshold. *)
Lemma absorb_none threshold (similarWords : list Similar)
    (acc : list jsstring * gset jsstring) :
  (forall s, s ∈ similarWords -> ge (similarity s) threshold = false) ->
  fold_left (absorb threshold) similarWords acc = acc.
Proof.
  intros H. apply fold_left_fixed. intros s Hs. unfold absorb.
  rewrite (H s Hs). now rewrite andb_false_r.
Qed.

(** Everything is added when every score is at the threshold or above
    and no word was seen. *)
Lemma absorb_all threshold (similarWords : list Similar)
    (cluster : list jsstring) (seen : gset jsstring) :
  NoDup (map word similarWords) ->
  (forall s, s ∈ similarWords ->
             (word s ∉ seen) /\ ge (similarity s) threshold = true) ->
  exists seen',
    fold_left (absorb threshold) similarWords (cluster, seen)
    = (cluster ++ map word similarWords, seen')
    /\ forall y, y ∈ seen' <-> y ∈ map word similarWords \/ y ∈ seen.
Proof.
  revert cluster seen.
  induction similarWords as [|s sw IH]; intros cluster seen Hnd Hall; simpl.
  - exists seen. rewrite app_nil_r. split; [reflexivity|].
    intros y. split; [now right|]. intros [H|H]; [now apply elem_of_nil in H|exact H].
  - simpl in Hnd. apply NoDup_cons in Hnd as [Hs Hnd].
    destruct (Hall s) as [Hseen Hge]; [left|].
    destruct (absorb_cases threshold cluster seen s) as [(-> & _)|(_ & [H|H])];
      [|contradiction|congruence].
    destruct (IH (cluster ++ [word s]) ({[word s]} ∪ seen) Hnd)
      as (seen' & -> & Hseen').
    + intros s' Hs'. destruct (Hall s') as [H1 H2]; [now right|].
      split; [|exact H2]. intros Hin.
      apply elem_of_union in Hin as [Hin|Hin]; [|contradiction].
      apply elem_of_singleton in Hin. apply Hs. rewrite <- Hin.
      apply list_elem_of_fmap. eauto.
    + exists seen'. rewrite <- app_assoc. split; [reflexivity|].
      intros y. rewrite Hseen', elem_of_cons, elem_of_union, elem_of_singleton.
      tauto.
Qed.

(** A loop over words that were all visited changes nothing. *)
Lemma clusterLoop_visited wordEmbeddings threshold (words l : list jsstring)
    (st : ClusterState) :
  (forall x, x ∈ l -> x ∈ visited st) ->
  foldM (clusterFrom cosineSimilarity wordEmbeddings threshold words) l st
  = Ok st.
Proof.
  induction l as [|x l IH]; intros H; simpl; [reflexivity|].
  unfold clusterFrom at 1. rewrite bool_decide_eq_true_2 by (apply H; left).
  simpl. apply IH. intros y Hy. apply H. now right.
Qed.

(** Whenever [clusterByThreshold] returns, every cluster is a seed
    followed by words that the library scored, against the embedding of
    the seed, at the threshold or above.  (Two words of one cluster
    need not be that similar to each other.) *)
Theorem clusterByThreshold_members wordEmbeddings threshold clusters :
  NoDup (keys wordEmbeddings) ->
  clusterByThreshold cosineSimilarity wordEmbeddings threshold = Ok clusters ->
  forall cluster, cluster ∈ clusters ->
    exists seed members seedEmbedding,
      cluster = seed :: members
      /\ embeddingOf wordEmbeddings seed = Some seedEmbedding
      /\ forall w, w ∈ members ->
           w <> seed
           /\ exists v q,
                embeddingOf wordEmbeddings w = Some v
                /\ cosineSimilarity seedEmbedding v = Ok q
                /\ (threshold <= q)%Q.
Proof.
  intros Hnd H. unfold clusterByThreshold in H.
  apply bind_Ok in H as (st & Hst & H). injection H as <-.
  assert (Hall : Forall (seeded cosineSimilarity wordEmbeddings threshold)
                        (SimilarityService.clusters st)).
  { revert Hst.
    apply (foldM_invariant _ _
             (fun _ st => Forall (seeded cosineSimilarity wordEmbeddings threshold)
                                 (SimilarityService.clusters st)));
      [constructor|].
    intros pre x rest s1 s2 _ Hinv Hbody. unfold clusterFrom in Hbody.
    destruct (bool_decide (x ∈ visited s1)); [now injection Hbody as <-|].
    apply bind_Ok in Hbody as (similarWords & Hsim & Hbody).
    injection Hbody as <-. simpl.
    apply Forall_app. split; [exact Hinv|]. constructor; [|constructor].
    destruct (absorb_members threshold similarWords [x] ({[x]} ∪ visited s1))
      as (added & -> & Hadded).
    pose proof Hsim as Hok.
    apply findMostSimilar_Ok in Hok as (te & _ & Hte & _).
    exists x, added, te. split; [reflexivity|]. split; [exact Hte|].
    intros w Hw. destruct (Hadded w Hw) as (s & Hs & <- & Hge).
    destruct (findMostSimilar_entries cosineSimilarity _ _ _ _ s Hnd Hsim Hs)
      as (Hne & _ & te' & v & Hte' & Hv & Hcos).
    split; [exact Hne|]. exists v, (similarity s).
    split; [exact Hv|]. split; [congruence|]. now apply ge_true. }
  intros cluster Hc. rewrite Forall_forall in Hall. exact (Hall cluster Hc).
Qed.

(** With a threshold above every score between two words of the
    mapping, every word is a cluster of its own, in the order of the
    mapping. *)
Theorem clusterByThreshold_singletons wordEmbeddings threshold clusters :
  NoDup (keys wordEmbeddings) ->
  (forall w1 v1 w2 v2 q,
      (w1, Some v1) ∈ wordEmbeddings -> (w2, Some v2) ∈ wordEmbeddings ->
      w1 <> w2 -> cosineSimilarity v1 v2 = Ok q -> (q < threshold)%Q) ->
  clusterByThreshold cosineSimilarity wordEmbeddings threshold = Ok clusters ->
  clusters = map (fun w => [w]) (keys wordEmbeddings).
Proof.
  intros Hnd Hlow H. unfold clusterByThreshold in H.
  apply bind_Ok in H as (st & Hst & H). injection H as <-.
  enough (Hinv : SimilarityService.clusters st
                 = map (fun w => [w]) (keys wordEmbeddings)
                 /\ forall y, y ∈ visited st <-> y ∈ keys wordEmbeddings)
    by exact (proj1 Hinv).
  revert Hst.
  apply (foldM_invariant _ _
           (fun pre st =>
              SimilarityService.clusters st = map (fun w => [w]) pre
              /\ forall y, y ∈ visited st <-> y ∈ pre)).
  { split; [reflexivity|]. intros y. simpl. split; [set_solver|].
    intros Hy. now apply elem_of_nil in Hy. }
  intros pre x rest s1 s2 Hsplit [Hcl Hvis] Hbody.
  assert (Hx : x ∉ pre).
  { rewrite Hsplit in Hnd. apply NoDup_app in Hnd as (_ & Hdisj & _).
    intros Hin. apply (Hdisj x Hin). left. }
  unfold clusterFrom in Hbody.
  rewrite bool_decide_eq_false_2 in Hbody by (now rewrite Hvis).
  apply bind_Ok in Hbody as (similarWords & Hsim & Hbody).
  rewrite absorb_none in Hbody.
  - injection Hbody as <-. simpl. split.
    + now rewrite Hcl, map_app.
    + intros y. rewrite elem_of_union, elem_of_singleton, Hvis, elem_of_app,
        list_elem_of_singleton. tauto.
  - intros s Hs. apply ge_false.
    destruct (findMostSimilar_entries cosineSimilarity _ _ _ _ s Hnd Hsim Hs)
      as (Hne & _ & te & v & Hte & Hv & Hcos).
    apply embeddingOf_Some in Hte, Hv.
    exact (Hlow x te (word s) v (similarity s) Hte Hv (not_eq_sym Hne) Hcos).
Qed.

(** When every other word scores at the threshold or above against the
    first word of the mapping, there is one cluster: the first word,
    followed by all the others in the order [findMostSimilar] ranks
    them.  (How the others score against each other does not
    matter.) *)
Theorem clusterByThreshold_one_cluster wordEmbeddings threshold clusters
    (first : jsstring) (firstEmbedding : Vec) (others : WordEmbeddings) :
  NoDup (keys wordEmbeddings) ->
  wordEmbeddings = (first, Some firstEmbedding) :: others ->
  (forall w v q,
      (w, Some v) ∈ others -> cosineSimilarity firstEmbedding v = Ok q ->
      (threshold <= q)%Q) ->
  clusterByThreshold cosineSimilarity wordEmbeddings threshold = Ok clusters ->
  exists ranking,
    findMostSimilar cosineSimilarity first wordEmbeddings
      (Z.of_nat (length (keys wordEmbeddings)) - 1) = Ok ranking
    /\ clusters = [first :: map word ranking]
    /\ map word ranking ≡ₚ keys others.
Proof.
  intros Hnd Hwe Hhigh H.
  pose proof (clusterByThreshold_Ok cosineSimilarity _ _ _ Hnd H)
    as (stf & [_ _ Hseen Hemb _] & _).
  unfold clusterByThreshold in H.
  apply bind_Ok in H as (st & Hst & H). injection H as <-.
  assert (Hkeys : keys wordEmbeddings = first :: keys others)
    by now rewrite Hwe.
  rewrite Hkeys in Hst at 2. simpl in Hst.
  apply bind_Ok in Hst as (st1 & Hst1 & Hst).
  unfold clusterFrom in Hst1.
  rewrite bool_decide_eq_false_2 in Hst1 by set_solver.
  apply bind_Ok in Hst1 as (ranking & Hrank & Hst1).
  exists ranking. split; [exact Hrank|].
  (* the ranking holds every other word once *)
  pose proof Hrank as Hok.
  apply findMostSimilar_Ok in Hok as (te & sims & Hte & HF & Hslice).
  assert (Hlen : (length sims <= length others)%nat).
  { rewrite (Forall2_length _ _ _ HF), Hwe. simpl.
    rewrite decide_True by reflexivity. apply candidates_length. }
  assert (Hcount : length (keys wordEmbeddings) = S (length others)).
  { rewrite Hwe. unfold keys. simpl. now rewrite length_map. }
  assert (Hfull : ranking = sort sims).
  { rewrite Hslice, slice_prefix, Hcount by (rewrite Hcount; lia).
    apply take_ge.
    rewrite (Permutation_length (sort_Permutation sims)). lia. }
  assert (Hwords : map word ranking ≡ₚ map fst (candidates first wordEmbeddings)).
  { rewrite Hfull, <- (scored_words cosineSimilarity te sims _ HF).
    now rewrite sort_Permutation. }
  assert (Hcand_nd : NoDup (map fst (candidates first wordEmbeddings))).
  { exact (sublist_NoDup _ _ Hnd (candidates_sublist first wordEmbeddings)). }
  assert (Hrank_nd : NoDup (map word ranking)) by now rewrite Hwords.
  assert (Hother : forall x, x ∈ keys others ->
                             x ∈ map fst (candidates first wordEmbeddings)).
  { intros x Hx.
    assert (Hxk : x ∈ keys wordEmbeddings) by (rewrite Hkeys; now right).
    destruct (Hemb x (Hseen x Hxk)) as [_ [v Hv]].
    apply embeddingOf_Some in Hv.
    apply list_elem_of_fmap. exists (x, v). split; [reflexivity|].
    apply candidates_complete; [exact Hv|].
    intros ->. rewrite Hkeys in Hnd. apply NoDup_cons in Hnd as [Hnot _].
    contradiction. }
  assert (Hperm : map word ranking ≡ₚ keys others).
  { rewrite Hwords. apply NoDup_Permutation; [exact Hcand_nd| |].
    - rewrite Hkeys in Hnd. now apply NoDup_cons in Hnd as [_ Hnd'].
    - intros x. split; [|apply Hother].
      intros Hx. apply list_elem_of_fmap in Hx as ([w v] & -> & Hin).
      apply candidates_In in Hin as [Hne Hin]. simpl.
      rewrite Hwe in Hin. apply elem_of_cons in Hin as [Heq|Hin];
        [congruence|].
      apply list_elem_of_fmap. now exists (w, Some v). }
  split; [|exact Hperm].
  (* the first pass takes them all *)
  destruct (absorb_all threshold ranking [first] ({[first]} ∪ ∅) Hrank_nd)
    as (seen' & Habs & Hseen').
  { intros s Hs.
    destruct (findMostSimilar_entries cosineSimilarity _ _ _ _ s Hnd Hrank Hs)
      as (Hne & _ & te' & v & Hte' & Hv & Hcos).
    split; [set_solver|]. apply ge_true.
    assert (te' = firstEmbedding) as ->.
    { rewrite Hwe in Hte'. unfold embeddingOf in Hte'. simpl in Hte'.
      rewrite decide_True in Hte' by reflexivity. simpl in Hte'. congruence. }
    apply (Hhigh (word s) v); [|exact Hcos].
    apply embeddingOf_Some in Hv. rewrite Hwe in Hv.
    apply elem_of_cons in Hv as [Heq|Hv]; [congruence | exact Hv]. }
  simpl in Hst1. rewrite Habs in Hst1. injection Hst1 as <-.
  rewrite clusterLoop_visited in Hst.
  - injection Hst as <-. reflexivity.
  - intros x Hx. simpl. apply Hseen'. left. rewrite Hperm. exact Hx.
Qed.

End ClusteringMore.

(** ** [createSimilarityMatrix]: what the entries are *)

Section MatrixValues.

Import SimilarityService.

Variable cosineSimilarity : Vec -> Vec -> result Q.
Variable inherits : jsstring -> bool.
Variable inheritedMember : jsstring -> jsstring -> result bool.
Variable wordEmbeddings : WordEmbeddings.
Hypothesis words_plain :
  forall w, w ∈ keys wordEmbeddings -> inherits w = false.

Implicit Types (m : Matrix) (a b w : jsstring) (q : Q) (v : Entry).

#[local] Abbreviation valued m :=
  (forall a b v, cell m a b = Some v ->
     exists q, v = Number q
               /\ cellValue cosineSimilarity wordEmbeddings a b q).

Lemma cellValue_sym a b q :
  cellValue cosineSimilarity wordEmbeddings a b q ->
  cellValue cosineSimilarity wordEmbeddings b a q.
Proof.
  intros [[-> ->]|(ea & eb & Ha & Hb & Hcos)]; [now left|].
  right. exists eb, ea. tauto.
Qed.

Lemma cell_setCell_cases m w b v a b' v' :
  cell (setCell m w b v) a b' = Some v' ->
  (a = w /\ b' = b /\ v' = v) \/ cell m a b' = Some v'.
Proof.
  destruct (decide (a = w)) as [->|Ha];
    [destruct (decide (b' = b)) as [->|Hb]|].
  - destruct (m !! w) as [row|] eqn:Hrow.
    + rewrite cell_setCell_same by eauto. intros [= ->]. now left.
    + unfold setCell. rewrite Hrow. now right.
  - rewrite cell_setCell_other by now right. now right.
  - rewrite cell_setCell_other by now left. now right.
Qed.

Lemma setCell_valued m w b q :
  valued m -> cellValue cosineSimilarity wordEmbeddings w b q ->
  valued (setCell m w b (Number q)).
Proof.
  intros Hm Hv a b' v' Hcell.
  apply cell_setCell_cases in Hcell as [(-> & -> & ->)|Hcell];
    [eauto | now apply Hm].
Qed.

Lemma matrixCell_valued (i : nat) w m (j : nat) b m' :
  keys wordEmbeddings !! i = Some w -> keys wordEmbeddings !! j = Some b ->
  valued m ->
  matrixCell cosineSimilarity inherits inheritedMember wordEmbeddings i w m
    (j, b) = Ok m' ->
  valued m'.
Proof.
  intros Hi Hj Hm. unfold matrixCell. simpl.
  destruct (i =? j)%nat eqn:Hij.
  - apply Nat.eqb_eq in Hij. subst j. intros [= <-].
    apply setCell_valued; [exact Hm|]. left. split; [congruence | reflexivity].
  - rewrite (matrixRead_own inherits inheritedMember m b w)
      by (apply words_plain, list_elem_of_lookup; eauto).
    simpl. destruct (cell m b w) as [v|] eqn:Hv.
    + destruct (Hm b w v Hv) as (q & -> & Hq). intros [= <-].
      apply setCell_valued; [exact Hm|]. now apply cellValue_sym.
    + destruct (embeddingOf wordEmbeddings w) as [e1|] eqn:He1;
        [destruct (embeddingOf wordEmbeddings b) as [e2|] eqn:He2|].
      * intros H. apply bind_Ok in H as (q & Hcos & H). injection H as <-.
        apply setCell_valued; [exact Hm|]. right. exists e1, e2. auto.
      * now intros [= <-].
      * now intros [= <-].
Qed.

Lemma indexed_split_lookup {A : Type} (l : list A) pre (x : nat * A) rest :
  indexed l = pre ++ x :: rest -> l !! x.1 = Some x.2.
Proof.
  intros H. destruct x as [i y]. apply indexed_lookup. rewrite H.
  apply elem_of_app. right. left.
Qed.

Lemma matrixRow_valued (i : nat) w m m' :
  keys wordEmbeddings !! i = Some w ->
  valued m ->
  matrixRow cosineSimilarity inherits inheritedMember wordEmbeddings
    (keys wordEmbeddings) m (i, w) = Ok m' ->
  valued m'.
Proof.
  intros Hi Hm. unfold matrixRow. simpl.
  apply (foldM_invariant _ _ (fun _ m => valued m)).
  - intros a b v. unfold cell.
    destruct (decide (a = w)) as [->|Ha].
    + rewrite lookup_insert_eq. simpl. now rewrite lookup_empty.
    + rewrite lookup_insert_ne by congruence. apply Hm.
  - intros pre [j b] rest m1 m2 Hsplit Hm1 Hcell.
    apply indexed_split_lookup in Hsplit.
    exact (matrixCell_valued i w m1 j b m2 Hi Hsplit Hm1 Hcell).
Qed.

(** For a mapping whose words name no property that objects inherit,
    every entry of the matrix [createSimilarityMatrix] returns is a
    number: the 1 of the diagonal, or the number the library returned
    for the embeddings of the two words, taken in one order or the
    other.  No entry is made up. *)
Theorem createSimilarityMatrix_values matrix :
  createSimilarityMatrix cosineSimilarity inherits inheritedMember
    wordEmbeddings = Ok matrix ->
  forall a b v,
    cell matrix a b = Some v ->
    exists q,
      v = Number q
      /\ ((a = b /\ q = 1%Q)
          \/ exists ea eb,
               embeddingOf wordEmbeddings a = Some ea
               /\ embeddingOf wordEmbeddings b = Some eb
               /\ (cosineSimilarity ea eb = Ok q
                   \/ cosineSimilarity eb ea = Ok q)).
Proof.
  unfold createSimilarityMatrix.
  apply (foldM_invariant _ _ (fun _ m => valued m)).
  - intros a b v. unfold cell. now rewrite lookup_empty.
  - intros pre [i w] rest m1 m2 Hsplit Hm1 Hrow.
    apply indexed_split_lookup in Hsplit.
    exact (matrixRow_valued i w m1 m2 Hsplit Hm1 Hrow).
Qed.

End MatrixValues.

(** ** The further properties on the example mapping *)

Section SimilarityExamplesMore.

Import SimilarityService.
Local Open Scope Q_scope.

Lemma findMostSimilar_top_moods :
  exists res,
    findMostSimilar unitCosine (js "happy") moodsAndNull 1 = Ok res
    /\ exists targetEmbedding sims rest,
         embeddingOf moodsAndNull (js "happy") = Some targetEmbedding
         /\ Forall2 (scored unitCosine targetEmbedding) sims
                    (candidates (js "happy") moodsAndNull)
         /\ res ++ rest ≡ₚ sims
         /\ length res
            = Nat.min (Z.to_nat 1) (length (candidates (js "happy") moodsAndNull))
         /\ forall r s, r ∈ res -> s ∈ rest -> similarity s <= similarity r.
Proof.
  eexists. split; [reflexivity|].
  apply (findMostSimilar_top unitCosine (js "happy") moodsAndNull 1);
    [discriminate | reflexivity].
Defined.

Lemma clusterByThreshold_members_moods :
  exists clusters,
    clusterByThreshold unitCosine moods 0.9 = Ok clusters
    /\ forall cluster, cluster ∈ clusters ->
         exists seed members seedEmbedding,
           cluster = seed :: members
           /\ embeddingOf moods seed = Some seedEmbedding
           /\ forall w, w ∈ members ->
                w <> seed
                /\ exists v q,
                     embeddingOf moods w = Some v
                     /\ unitCosine seedEmbedding v = Ok q
                     /\ 0.9 <= q.
Proof.
  eexists. split; [reflexivity|].
  apply (clusterByThreshold_members unitCosine moods 0.9);
    [exact moods_NoDup | reflexivity].
Defined.

(** Words that are close one after the other but not to the seed: with
    the threshold 0.9, "b" joins "a" and "c" does not, although "c" is
    as close to "b" as "b" is to "a". *)
Example clusterByThreshold_not_transitive :
  clusterByThreshold unitCosine
    [(js "a", Some [1; 0]); (js "b", Some [0.96; 0.28]);
     (js "c", Some [0.8432; 0.5376])] 0.9
  = Ok [[js "a"; js "b"]; [js "c"]]
  /\ unitCosine [0.96; 0.28] [0.8432; 0.5376] = Ok (0.96 * 0.8432 + (0.28 * 0.5376 + 0))
  /\ 0.9 <= 0.96 * 0.8432 + (0.28 * 0.5376 + 0).
Proof. split; [reflexivity|]. split; [reflexivity|]. vm_compute. discriminate. Qed.

Lemma moods_scores w1 v1 w2 v2 q :
  (w1, Some v1) ∈ moods -> (w2, Some v2) ∈ moods ->
  unitCosine v1 v2 = Ok q -> -1 <= q /\ q < 2.
Proof.
  intros H1 H2 Hq. unfold moods in H1, H2.
  repeat (apply elem_of_cons in H1 as [H1|H1];
          [injection H1 as -> ->|]); [..|now apply elem_of_nil in H1];
  (repeat (apply elem_of_cons in H2 as [H2|H2];
           [injection H2 as -> ->|]); [..|now apply elem_of_nil in H2]);
  injection Hq as <-; split; vm_compute; congruence.
Qed.

Lemma clusterByThreshold_singletons_moods :
  exists clusters,
    clusterByThreshold unitCosine moods 2 = Ok clusters
    /\ clusters = map (fun w => [w]) (keys moods).
Proof.
  eexists. split; [reflexivity|].
  apply (clusterByThreshold_singletons unitCosine moods 2);
    [exact moods_NoDup | | reflexivity].
  intros w1 v1 w2 v2 q H1 H2 _ Hq.
  exact (proj2 (moods_scores w1 v1 w2 v2 q H1 H2 Hq)).
Defined.

Lemma clusterByThreshold_one_cluster_moods :
  exists clusters ranking,
    clusterByThreshold unitCosine moods (-1) = Ok clusters
    /\ findMostSimilar unitCosine (js "happy") moods
         (Z.of_nat (length (keys moods)) - 1) = Ok ranking
    /\ clusters = [js "happy" :: map word ranking]
    /\ map word ranking ≡ₚ keys [(js "joyful", Some [0.96; 0.28]);
                                  (js "sad", Some [-1; 0])].
Proof.
  destruct (clusterByThreshold unitCosine moods (-1)) as [clusters|e] eqn:E;
    [|discriminate E].
  destruct (clusterByThreshold_one_cluster unitCosine moods (-1) clusters
              (js "happy") [1; 0]
              [(js "joyful", Some [0.96; 0.28]); (js "sad", Some [-1; 0])]
              moods_NoDup eq_refl) as (ranking & Hrank & Hcl & Hperm).
  - intros w v q Hin Hq.
    refine (proj1 (moods_scores (js "happy") [1; 0] w v q _ _ Hq)).
    + left.
    + now right.
  - exact E.
  - exists clusters, ranking. auto.
Defined.

Lemma createSimilarityMatrix_values_moods :
  exists matrix,
    createSimilarityMatrix unitCosine standardInherits standardMember
      moodsAndNull = Ok matrix
    /\ forall a b v,
         cell matrix a b = Some v ->
         exists q,
           v = Number q
           /\ ((a = b /\ q = 1)
               \/ exists ea eb,
                    embeddingOf moodsAndNull a = Some ea
                    /\ embeddingOf moodsAndNull b = Some eb
                    /\ (unitCosine ea eb = Ok q \/ unitCosine eb ea = Ok q)).
Proof.
  destruct (createSimilarityMatrix_returns unitCosine standardInherits
              standardMember moodsAndNull moodsAndNull_NoDup moods_plain)
    as [matrix Hm].
  - intros w1 v1 w2 v2 H1 H2 _. exact (unitCosine_moods w1 v1 w2 v2 H1 H2).
  - exists matrix. split; [exact Hm|].
    exact (createSimilarityMatrix_values unitCosine standardInherits
             standardMember moodsAndNull moods_plain matrix Hm).
Defined.

End SimilarityExamplesMore.

(** ** RAGController: what [addDocument] and [search] settle to *)

Section Pipeline.

Import RAGController.

(** An initialized controller's [addDocument] registers the document
    and its chunks in the local store whatever happens afterwards (a
    failure does not take them back), never writes the local chunk
    embeddings, and settles to true exactly when the two awaited calls
    resolve: the batch of embeddings and [storeChunks], whatever
    [storeChunks] resolves to. *)
Theorem addDocument_outcome this id title content metadata namespace now
    (answer : forall X, Event X -> X) :
  isInitialized this = true ->
  DocumentService.chunkStep (documentService this) <> 0 ->
  exists documentService' b,
    DocumentService.addDocument (documentService this) id title content
      metadata now = Some (id, documentService')
    /\ run answer (addDocument this id title content metadata namespace now)
       = Some (Ok b, {| documentService := documentService';
                        isInitialized := true |})
    /\ DocumentService.chunkEmbeddings documentService'
       = DocumentService.chunkEmbeddings (documentService this)
    /\ (b = true
        <-> exists embeddings stored,
              answer _ (GetBatchEmbeddings
                          (map Chunk.content
                             (DocumentService.getDocumentChunks
                                documentService' id)))
              = Ok embeddings
              /\ answer _ (StoreChunks
                             (map (fun chunk =>
                                     (chunk,
                                      mjoin (JsMap.get (Chunk.content chunk)
                                               embeddings)))
                                  (DocumentService.getDocumentChunks
                                     documentService' id))
                             namespace)
                 = Ok stored).
Proof.
  intros Hinit Hstep. unfold addDocument. rewrite Hinit. simpl.
  destruct (createChunks_terminates (documentService this) content id title
              Hstep) as [chunks Hc].
  unfold DocumentService.addDocument. rewrite Hc.
  eexists. cbv zeta.
  set (ds' := DocumentService.mk _ _ _ _ _).
  set (texts := map Chunk.content (DocumentService.getDocumentChunks ds' id)).
  simpl.
  destruct (answer _ (GetBatchEmbeddings texts)) as [embeddings|e] eqn:E1;
    simpl.
  - match goal with
    | |- context [answer _ (StoreChunks ?cs namespace)] =>
        destruct (answer _ (StoreChunks cs namespace)) as [stored|e] eqn:E2
    end; simpl.
    + exists true. split; [reflexivity|]. split; [reflexivity|].
      split; [reflexivity|]. split; [|reflexivity].
      intros _. exists embeddings, stored. split; [exact E1 | exact E2].
    + exists false. split; [reflexivity|]. split; [reflexivity|].
      split; [reflexivity|]. split; [discriminate|].
      intros (embeddings' & stored & H1 & H2).
      pose proof (eq_trans (eq_sym H1) E1) as Heq. injection Heq as ->.
      pose proof (eq_trans (eq_sym H2) E2) as Heq. discriminate Heq.
  - exists false. split; [reflexivity|]. split; [reflexivity|].
    split; [reflexivity|]. split; [discriminate|].
    intros (embeddings' & stored & H1 & _).
    pose proof (eq_trans (eq_sym H1) E1) as Heq. discriminate Heq.
Qed.

Lemma addDocument_outcome_ready :
  exists documentService' b,
    DocumentService.addDocument (documentService ready) (js "d1") (js "T")
      (js "a b c") [] (js "t0") = Some (js "d1", documentService')
    /\ run storeFails
         (addDocument ready (js "d1") (js "T") (js "a b c") [] (js "default")
            (js "t0"))
       = Some (Ok b, {| documentService := documentService';
                        isInitialized := true |})
    /\ DocumentService.chunkEmbeddings documentService'
       = DocumentService.chunkEmbeddings (documentService ready)
    /\ (b = true
        <-> exists embeddings stored,
              storeFails _ (GetBatchEmbeddings
                              (map Chunk.content
                                 (DocumentService.getDocumentChunks
                                    documentService' (js "d1"))))
              = Ok embeddings
              /\ storeFails _ (StoreChunks
                                 (map (fun chunk =>
                                         (chunk,
                                          mjoin (JsMap.get (Chunk.content chunk)
                                                   embeddings)))
                                      (DocumentService.getDocumentChunks
                                         documentService' (js "d1")))
                                 (js "default"))
                 = Ok stored).
Proof.
  apply (addDocument_outcome ready (js "d1") (js "T") (js "a b c") []
           (js "default") (js "t0") storeFails).
  - reflexivity.
  - vm_compute. discriminate.
Defined.

(** A vector service whose upsert failed resolves [storeChunks] to
    false; the controller reports success all the same.  A batch of
    embeddings that is rejected makes it report failure, with the
    document in the local store. *)
Example addDocument_store_result_ignored :
  option_map fst
    (run storeFails
       (addDocument ready (js "d1") (js "T") (js "a b c") [] (js "default")
          (js "t0")))
  = Some (Ok true)
  /\ match run (fun X e =>
                  match e in Event X return X with
                  | GetBatchEmbeddings _ => Throw (External (js "quota"))
                  | other => healthy _ other
                  end)
               (addDocument ready (js "d1") (js "T") (js "a b c") []
                  (js "default") (js "t0")) with
     | Some (settled, this') =>
         settled = Ok false
         /\ option_map Document.title
              (DocumentService.getDocument (documentService this') (js "d1"))
            = Some (js "T")
     | None => False
     end.
Proof. split; [reflexivity|]. split; reflexivity. Qed.

Lemma indexed_fst {A : Type} (l : list A) :
  map fst (indexed l) = seq 0 (length l).
Proof.
  induction l as [|x l IH] using rev_ind; [reflexivity|].
  rewrite indexed_snoc, map_app, length_app, IH. simpl.
  now rewrite Nat.add_1_r, seq_S.
Qed.

Lemma indexed_snd {A : Type} (l : list A) : map snd (indexed l) = l.
Proof.
  induction l as [|x l IH] using rev_ind; [reflexivity|].
  now rewrite indexed_snoc, map_app, IH.
Qed.

(** An initialized controller's [search] never rejects and leaves the
    controller as it is.  It settles to null exactly when the query
    embedding is null or one of the two calls is rejected.  Otherwise
    the result lists one entry for every match the vector service
    returned (however many were asked for), in that order, ranked
    1, 2, ... and carrying the match's score and chunk id, and its
    context is built from the same matches. *)
Theorem search_outcome this query topK namespace filter
    (answer : forall X, Event X -> X) :
  isInitialized this = true ->
  exists r,
    run answer (search this query topK namespace filter) = Some (Ok r, this)
    /\ match r with
       | Some found =>
           exists queryEmbedding similarChunks,
             answer _ (GetEmbedding query) = Ok (Some queryEmbedding)
             /\ answer _ (SearchSimilar queryEmbedding topK namespace filter)
                = Ok similarChunks
             /\ totalResults found = length similarChunks
             /\ map rank (results found) = seq 1 (length similarChunks)
             /\ map entry_similarity (results found)
                = map score similarChunks
             /\ map chunk_id (results found)
                = map (fun hit => Chunk.id (chunk hit)) similarChunks
             /\ context found = buildContext similarChunks
       | None =>
           answer _ (GetEmbedding query) = Ok None
           \/ (exists e, answer _ (GetEmbedding query) = Throw e)
           \/ exists queryEmbedding e,
                answer _ (GetEmbedding query) = Ok (Some queryEmbedding)
                /\ answer _ (SearchSimilar queryEmbedding topK namespace filter)
                   = Throw e
       end.
Proof.
  intros Hinit. unfold search. rewrite Hinit. simpl.
  destruct (answer _ (GetEmbedding query)) as [[queryEmbedding|]|e] eqn:E1;
    simpl.
  - destruct (answer _ (SearchSimilar queryEmbedding topK namespace filter))
      as [similarChunks|e] eqn:E2; simpl.
    + eexists. split; [reflexivity|]. exists queryEmbedding, similarChunks.
      simpl. split; [reflexivity|]. split; [exact E2|].
      split; [reflexivity|].
      assert (Hmap : forall {B : Type} (f : SearchHit -> B) (g : ResultEntry -> B),
                (forall ir, g (formatResult ir) = f ir.2) ->
                map g (map formatResult (indexed similarChunks))
                = map f similarChunks).
      { intros B f g Hfg. rewrite map_map.
        rewrite <- (indexed_snd similarChunks) at 2. rewrite map_map.
        apply map_ext. exact Hfg. }
      split; [|split; [|split]].
      * rewrite map_map. simpl.
        rewrite <- seq_shift, <- (indexed_fst similarChunks), map_map.
        apply map_ext. intros ir. lia.
      * now apply Hmap.
      * now apply Hmap.
      * reflexivity.
    + exists None. split; [reflexivity|]. right. right. eauto.
  - exists None. split; [reflexivity|]. now left.
  - exists None. split; [reflexivity|]. right. left. eauto.
Qed.

Lemma search_outcome_ready :
  exists r,
    run twoHits (search ready (js "b") 1 (js "default") None)
    = Some (Ok r, ready)
    /\ match r with
       | Some found =>
           exists queryEmbedding similarChunks,
             twoHits _ (GetEmbedding (js "b")) = Ok (Some queryEmbedding)
             /\ twoHits _ (SearchSimilar queryEmbedding 1 (js "default") None)
                = Ok similarChunks
             /\ totalResults found = length similarChunks
             /\ map rank (results found) = seq 1 (length similarChunks)
             /\ map entry_similarity (results found)
                = map score similarChunks
             /\ map chunk_id (results found)
                = map (fun hit => Chunk.id (chunk hit)) similarChunks
             /\ context found = buildContext similarChunks
       | None =>
           twoHits _ (GetEmbedding (js "b")) = Ok None
           \/ (exists e, twoHits _ (GetEmbedding (js "b")) = Throw e)
           \/ exists queryEmbedding e,
                twoHits _ (GetEmbedding (js "b")) = Ok (Some queryEmbedding)
                /\ twoHits _ (SearchSimilar queryEmbedding 1 (js "default") None)
                   = Throw e
       end.
Proof.
  apply (search_outcome ready (js "b") 1 (js "default") None twoHits).
  reflexivity.
Defined.

(** One match was asked for and the vector service returned two: both
    are in the result. *)
Example search_two_hits :
  match run twoHits (search ready (js "b") 1 (js "default") None) with
  | Some (Ok (Some found), _) =>
      (results_topK found, totalResults found, map rank (results found),
       map chunk_id (results found), map interpretation (results found))
  | _ => (0, O, [], [], [])
  end
  = (1, 2%nat, [1%nat; 2%nat], [js "d1_chunk_0"; js "d1_chunk_1"],
     [js "Very similar meaning"; js "Very similar meaning"]).
Proof. reflexivity. Qed.

Lemma join_lookup (sep : jsstring) (l : list jsstring) (k : nat) (x : jsstring) :
  l !! k = Some x -> exists pre post, join sep l = pre ++ x ++ post.
Proof.
  revert k. induction l as [|y l IH]; intros k Hk; [discriminate|].
  destruct l as [|z l].
  - destruct k; [|discriminate]. injection Hk as ->.
    exists [], []. simpl. now rewrite app_nil_r.
  - change (join sep (y :: z :: l)) with (y ++ sep ++ join sep (z :: l)).
    destruct k as [|k].
    + injection Hk as ->. exists [], (sep ++ join sep (z :: l)). reflexivity.
    + destruct (IH k Hk) as (pre & post & ->).
      exists (y ++ sep ++ pre), post. now rewrite <- !app_assoc.
Qed.

(** The context holds, for the match at every position, a block that
    is labelled with the rank and the document title and ends with the
    chunk content; without matches it is the empty string. *)
Theorem buildContext_blocks (similarChunks : list SearchHit) :
  (similarChunks = [] -> buildContext similarChunks = [])
  /\ forall (k : nat) hit,
       similarChunks !! k = Some hit ->
       exists pre post,
         buildContext similarChunks
         = pre
           ++ (js "[Context " ++ decimal (k + 1) ++ js " from " ++ quote
               ++ Chunk.documentTitle (chunk hit) ++ quote ++ js "]"
               ++ newline ++ Chunk.content (chunk hit))
           ++ post.
Proof.
  split; [now intros ->|].
  intros k hit Hk. unfold buildContext. apply (join_lookup _ _ k).
  rewrite list_lookup_fmap. unfold indexed. rewrite list_lookup_imap, Hk.
  reflexivity.
Qed.

End Pipeline.

(** ** WordClusteringController *)

Section ClusterAnalysis.

Import WordClusteringController.

Variable cosineSimilarity : Vec -> Vec -> result Q.
Variable divide : nat -> nat -> option Q.
Variable toFixed : nat -> Q -> Q.

Implicit Types (clusters l : list (list jsstring)) (max init : list jsstring).

#[local] Abbreviation larger :=
  (fun max cluster : list jsstring =>
     if (length max <? length cluster)%nat then cluster else max).

(** The [reduce] that looks for the largest cluster: it ends with the
    start value, when no cluster is longer, or with the first cluster
    of the greatest length. *)
Lemma fold_largest l init :
  (length init <= length (fold_left larger l init))%nat
  /\ Forall (fun c => (length c <= length (fold_left larger l init))%nat) l
  /\ (fold_left larger l init = init
      \/ exists k : nat,
           l !! k = Some (fold_left larger l init)
           /\ (length init < length (fold_left larger l init))%nat
           /\ forall (j : nat) c,
                (j < k)%nat -> l !! j = Some c ->
                (length c < length (fold_left larger l init))%nat).
Proof.
  revert init. induction l as [|c l IH]; intros init; simpl.
  - split; [lia|]. split; [constructor | now left].
  - destruct (length init <? length c)%nat eqn:E.
    + apply Nat.ltb_lt in E.
      destruct (IH c) as (H1 & H2 & H3).
      split; [lia|]. split; [now constructor|]. right.
      destruct H3 as [Heq|(k & Hk & Hlt & Hbefore)].
      * exists O. rewrite Heq. simpl. split; [reflexivity|].
        split; [exact E|]. intros j c' Hj. lia.
      * exists (S k). simpl. split; [exact Hk|]. split; [lia|].
        intros [|j] c' Hj Hc'; simpl in Hc'.
        -- injection Hc' as <-. exact Hlt.
        -- apply (Hbefore j c'); [lia | exact Hc'].
    + apply Nat.ltb_ge in E.
      destruct (IH init) as (H1 & H2 & H3).
      split; [exact H1|]. split; [constructor; [lia | exact H2]|].
      destruct H3 as [Heq|(k & Hk & Hlt & Hbefore)]; [now left|]. right.
      exists (S k). simpl. split; [exact Hk|]. split; [exact Hlt|].
      intros [|j] c' Hj Hc'; simpl in Hc'.
      * injection Hc' as <-. lia.
      * apply (Hbefore j c'); [lia | exact Hc'].
Qed.

Lemma length_concat (l : list (list jsstring)) :
  length (concat l) = sum_list_with length l.
Proof.
  induction l as [|c l IH]; simpl; [reflexivity|].
  now rewrite length_app, IH.
Qed.

(** The summary of [generateClusterAnalysis]: the words are counted
    over all clusters, and the largest cluster is the first cluster of
    the greatest size (the empty list when there is no cluster); no
    cluster is larger than the size reported. *)
Theorem generateClusterAnalysis_largest clusters :
  totalWords (generateClusterAnalysis divide toFixed clusters)
  = length (concat clusters)
  /\ totalClusters (generateClusterAnalysis divide toFixed clusters)
     = length clusters
  /\ (singletonClusters (generateClusterAnalysis divide toFixed clusters)
      <= length clusters)%nat
  /\ largestClusterSize (generateClusterAnalysis divide toFixed clusters)
     = length (largestCluster (generateClusterAnalysis divide toFixed clusters))
  /\ Forall (fun c =>
               (length c
                <= largestClusterSize
                     (generateClusterAnalysis divide toFixed clusters))%nat)
            clusters
  /\ match clusters with
     | [] => largestCluster (generateClusterAnalysis divide toFixed clusters)
             = []
     | _ :: _ =>
         exists k : nat,
           clusters !! k
           = Some (largestCluster
                     (generateClusterAnalysis divide toFixed clusters))
           /\ forall (j : nat) c,
                (j < k)%nat -> clusters !! j = Some c ->
                (length c
                 < largestClusterSize
                     (generateClusterAnalysis divide toFixed clusters))%nat
     end.
Proof.
  unfold generateClusterAnalysis. simpl.
  split; [now rewrite fold_left_sum, length_concat|].
  split; [reflexivity|].
  split; [apply filter_length_le|].
  split; [reflexivity|].
  destruct (fold_largest clusters (default [] (head clusters)))
    as (H1 & H2 & H3).
  split; [exact H2|].
  destruct clusters as [|c0 rest]; [reflexivity|].
  destruct H3 as [Heq|(k & Hk & _ & Hbefore)].
  - exists O. rewrite Heq. split; [reflexivity|]. intros j c Hj. lia.
  - exists k. split; [exact Hk | exact Hbefore].
Qed.

Example generateClusterAnalysis_tie :
  largestCluster
    (generateClusterAnalysis divide toFixed
       [[js "a"]; [js "b"; js "c"]; [js "d"; js "e"]; []])
  = [js "b"; js "c"]
  /\ singletonClusters
       (generateClusterAnalysis divide toFixed
          [[js "a"]; [js "b"; js "c"]; [js "d"; js "e"]; []]) = 1%nat
  /\ totalWords
       (generateClusterAnalysis divide toFixed
          [[js "a"]; [js "b"; js "c"]; [js "d"; js "e"]; []]) = 5%nat.
Proof. repeat split. Qed.

End ClusterAnalysis.

Section WhyItThrows.

Import SimilarityService.

Variable cosineSimilarity : Vec -> Vec -> result Q.
Variable inherits : jsstring -> bool.
Variable inheritedMember : jsstring -> jsstring -> result bool.

Implicit Types (wordEmbeddings : WordEmbeddings) (threshold : Q).





End WhyItThrows.

Section WordClusters.

Import WordClusteringController.

Variable cosineSimilarity : Vec -> Vec -> result Q.
Variable inherits : jsstring -> bool.
Variable inheritedMember : jsstring -> jsstring -> result bool.
Variable divide : nat -> nat -> option Q.
Variable toFixed : nat -> Q -> Q.


End WordClusters.

Section WordClustersExample.

Import WordClusteringController.
Local Open Scope Q_scope.


(** One embedding that failed makes the whole analysis null. *)
Example analyzeWordClusters_null :
  RAGController.run
    (fun X e =>
       match e in RAGController.Event X return X with
       | RAGController.GetBatchEmbeddings _ => Ok moodsAndNull
       | other => healthy _ other
       end)
    (analyzeWordClusters unitCosine standardInherits standardMember
       (fun _ _ => None) (fun _ x => x)
       (SimilarityService.keys moodsAndNull) 0.7)
  = Some None.
Proof. vm_compute. reflexivity. Qed.

End WordClustersExample.

(** ** Async methods: running one after another *)

Section AsyncFacts.

Context {Request : Type} {Response : Request -> Type}.
Variable answer : forall request, Response request.

Lemma run_andThen {R S : Type} (p : Async.Prog Request Response R)
    (k : R -> Async.Prog Request Response S) :
  Async.run answer (Async.andThen p k)
  = match Async.run answer p with
    | Some r => Async.run answer (k r)
    | None => None
    end.
Proof. induction p as [r| |request k' IH]; simpl; auto. Qed.

Lemma trace_andThen {R S : Type} (p : Async.Prog Request Response R)
    (k : R -> Async.Prog Request Response S) :
  Async.trace answer (Async.andThen p k)
  = Async.trace answer p
    ++ match Async.run answer p with
       | Some r => Async.trace answer (k r)
       | None => []
       end.
Proof.
  induction p as [r| |request k' IH]; simpl; auto. now rewrite IH.
Qed.

End AsyncFacts.

(** ** Objects: lookups and the order of the keys *)

Section JsObjectFacts.

Context {V : Type}.
Implicit Types (o : JsObject.t V) (k x : jsstring) (v : V) (n : N).

Lemma get_None_keys o k : JsMap.get k o = None <-> k ∉ JsObject.keys o.
Proof.
  unfold JsObject.keys. split; [|apply get_None].
  induction o as [|[k' v'] o IH]; simpl; intros H Hin.
  - now apply elem_of_nil in Hin.
  - destruct (decide (k' = k)) as [->|Hne]; [discriminate|].
    apply elem_of_cons in Hin as [Heq|Hin]; [congruence | now apply IH].
Qed.

Lemma JsMap_set_keys o k v :
  is_Some (JsMap.get k o) -> JsObject.keys (JsMap.set k v o) = JsObject.keys o.
Proof.
  unfold JsObject.keys. induction o as [|[k' v'] o IH]; simpl.
  - intros [? ?]. discriminate.
  - destruct (decide (k' = k)) as [->|Hne]; simpl; [reflexivity|].
    intros H. now rewrite IH.
Qed.

Lemma insertIndex_get_ne n k v o k' :
  k <> k' ->
  JsMap.get k' (JsObject.insertIndex n k v o) = JsMap.get k' o.
Proof.
  intros Hne. induction o as [|[k0 v0] o IH]; simpl.
  - now rewrite decide_False.
  - destruct (JsObject.arrayIndex k0) as [n'|];
      [destruct (n' <? n)%N|]; simpl.
    + destruct (decide (k0 = k')); [reflexivity | exact IH].
    + now rewrite decide_False.
    + now rewrite decide_False.
Qed.

Lemma insertIndex_get_eq n k v o :
  JsMap.get k o = None ->
  JsMap.get k (JsObject.insertIndex n k v o) = Some v.
Proof.
  induction o as [|[k0 v0] o IH]; simpl.
  - intros _. now rewrite decide_True.
  - destruct (decide (k0 = k)) as [->|Hne]; [discriminate|]. intros Hnone.
    destruct (JsObject.arrayIndex k0) as [n'|];
      [destruct (n' <? n)%N|]; simpl.
    + rewrite decide_False by exact Hne. now apply IH.
    + now rewrite decide_True.
    + now rewrite decide_True.
Qed.

Lemma insertIndex_keys n k v o :
  JsObject.keys (JsObject.insertIndex n k v o) ≡ₚ k :: JsObject.keys o.
Proof.
  unfold JsObject.keys. induction o as [|[k0 v0] o IH]; simpl; [reflexivity|].
  destruct (JsObject.arrayIndex k0) as [n'|];
    [destruct (n' <? n)%N|]; simpl; try reflexivity.
  rewrite IH. apply Permutation_swap.
Qed.

(** Reading a property that was just written. *)
Lemma set_get_eq o k v : JsObject.get k (JsObject.set k v o) = Some v.
Proof.
  unfold JsObject.get, JsObject.set.
  destruct (JsMap.get k o) as [v0|] eqn:E; [apply get_set_eq|].
  destruct (JsObject.arrayIndex k) as [n|].
  - now apply insertIndex_get_eq.
  - rewrite get_app, E. simpl. now rewrite decide_True.
Qed.

Lemma set_get_ne o k k' v :
  k <> k' -> JsObject.get k' (JsObject.set k v o) = JsObject.get k' o.
Proof.
  intros Hne. unfold JsObject.get, JsObject.set.
  destruct (JsMap.get k o) as [v0|] eqn:E; [now apply get_set_ne|].
  destruct (JsObject.arrayIndex k) as [n|].
  - now apply insertIndex_get_ne.
  - rewrite get_app. destruct (JsMap.get k' o); [reflexivity|].
    simpl. now rewrite decide_False.
Qed.

Lemma set_keys o k v :
  JsObject.keys (JsObject.set k v o)
  ≡ₚ if decide (k ∈ JsObject.keys o) then JsObject.keys o
     else k :: JsObject.keys o.
Proof.
  unfold JsObject.set.
  destruct (JsMap.get k o) as [v0|] eqn:E.
  - rewrite JsMap_set_keys by eauto.
    rewrite decide_True; [reflexivity|].
    destruct (decide (k ∈ JsObject.keys o)) as [Hin|Hnot]; [exact Hin|].
    apply get_None_keys in Hnot. congruence.
  - rewrite decide_False by now apply get_None_keys.
    destruct (JsObject.arrayIndex k) as [n|]; [apply insertIndex_keys|].
    unfold JsObject.keys. rewrite map_app. simpl.
    symmetry. apply Permutation_cons_append.
Qed.

Lemma set_keys_NoDup o k v :
  NoDup (JsObject.keys o) -> NoDup (JsObject.keys (JsObject.set k v o)).
Proof.
  intros Hnd. rewrite set_keys.
  destruct (decide (k ∈ JsObject.keys o)); [exact Hnd | now constructor].
Qed.

Lemma set_keys_elem o k v x :
  x ∈ JsObject.keys (JsObject.set k v o) <-> x = k \/ x ∈ JsObject.keys o.
Proof.
  rewrite set_keys.
  destruct (decide (k ∈ JsObject.keys o)) as [Hin|Hnot].
  - split; [now right|]. intros [->|H]; assumption.
  - apply elem_of_cons.
Qed.

(** A new key that is no array index goes last. *)
Lemma set_keys_plain o k v :
  JsObject.arrayIndex k = None -> (k ∉ JsObject.keys o) ->
  JsObject.keys (JsObject.set k v o) = JsObject.keys o ++ [k].
Proof.
  intros Hplain Hnew. unfold JsObject.set.
  rewrite (proj2 (get_None_keys o k) Hnew), Hplain.
  unfold JsObject.keys. now rewrite map_app.
Qed.

End JsObjectFacts.

(** ** EmbeddingService *)

Section Embeddings.

Import EmbeddingService.

Variable answer : forall request, Response request.

#[local] Abbreviation store :=
  (fun (o : JsObject.t Embedding) (text : jsstring) =>
     JsObject.set text (resolved answer text) o).

Lemma getEmbedding_run (text : jsstring) :
  Async.run answer (getEmbedding text) = Some (resolved answer text)
  /\ Async.trace answer (getEmbedding text) = [EmbedContent model text].
Proof.
  unfold getEmbedding, resolved. simpl.
  now destruct (bind (answer (EmbedContent model text)) firstValues).
Qed.

Lemma batchLoop_run (texts : list jsstring) (acc : JsObject.t Embedding) :
  Async.run answer (batchLoop texts acc) = Some (fold_left store texts acc)
  /\ Async.trace answer (batchLoop texts acc)
     = flat_map (fun text => [EmbedContent model text; SetTimeout 100]) texts.
Proof.
  revert acc. induction texts as [|text texts IH]; intros acc;
    [split; reflexivity|].
  destruct (getEmbedding_run text) as [Hrun Htrace].
  destruct (IH (JsObject.set text (resolved answer text) acc)) as [IH1 IH2].
  cbn [batchLoop]. rewrite run_andThen, trace_andThen, Hrun, Htrace.
  split; [exact IH1|]. simpl. now rewrite IH2.
Qed.

Lemma stored_keys (texts : list jsstring) :
  NoDup (JsObject.keys (fold_left store texts []))
  /\ (forall k, k ∈ JsObject.keys (fold_left store texts []) <-> k ∈ texts)
  /\ (forall text, text ∈ texts ->
        JsObject.get text (fold_left store texts [])
        = Some (resolved answer text))
  /\ (NoDup texts -> Forall (fun k => JsObject.arrayIndex k = None) texts ->
      JsObject.keys (fold_left store texts []) = texts).
Proof.
  induction texts as [|text texts IH] using rev_ind.
  - simpl. split; [constructor|]. split; [reflexivity|].
    split; [|reflexivity]. intros text H. now apply elem_of_nil in H.
  - destruct IH as (H1 & H2 & H3 & H4). rewrite fold_left_app. simpl.
    split; [now apply set_keys_NoDup|]. split; [|split].
    + intros k. rewrite set_keys_elem, H2, elem_of_app, list_elem_of_singleton.
      tauto.
    + intros text' Hin. destruct (decide (text = text')) as [<-|Hne].
      * apply set_get_eq.
      * rewrite set_get_ne by exact Hne. apply H3.
        apply elem_of_app in Hin as [Hin|Hin]; [exact Hin|].
        apply list_elem_of_singleton in Hin. congruence.
    + intros Hnd Hplain. apply NoDup_app in Hnd as (Hnd & Hdisj & _).
      apply Forall_app in Hplain as [Hplain Hlast].
      apply Forall_inv in Hlast.
      rewrite set_keys_plain; [now rewrite H4| exact Hlast |].
      rewrite H2. intros Hin. apply (Hdisj text Hin). left.
Qed.

(** [getBatchEmbeddings] always resolves, whatever the API answers.
    It asks the API once for every text, in order and duplicates
    included, each time followed by the timer.  When no text is
    [__proto__], the object it resolves to has the texts as its keys,
    each once, and holds for each text what [getEmbedding] resolves to
    for it: null where the API call failed.  When the texts are also
    distinct and none is an array index the keys are listed in the
    order of the texts. *)
Theorem getBatchEmbeddings_object (texts : list jsstring) :
  exists embeddings,
    Async.run answer (getBatchEmbeddings texts) = Some embeddings
    /\ Async.trace answer (getBatchEmbeddings texts)
       = flat_map (fun text => [EmbedContent model text; SetTimeout 100]) texts
    /\ (js "__proto__" ∉ texts ->
        NoDup (JsObject.keys embeddings)
        /\ (forall k, k ∈ JsObject.keys embeddings <-> k ∈ texts)
        /\ (forall text, text ∈ texts ->
              JsObject.get text embeddings
              = Some match bind (answer (EmbedContent model text))
                                firstValues with
                     | Ok embedding => embedding
                     | Throw _ => Null
                     end)
        /\ (NoDup texts ->
            Forall (fun k => JsObject.arrayIndex k = None) texts ->
            JsObject.keys embeddings = texts)).
Proof.
  unfold getBatchEmbeddings.
  destruct (batchLoop_run texts JsObject.empty) as [Hrun Htrace].
  eexists. split; [exact Hrun|]. split; [exact Htrace|].
  intros _. exact (stored_keys texts).
Qed.

End Embeddings.

Section EmbeddingsExample.

Import EmbeddingService.

Lemma getBatchEmbeddings_object_twoWords :
  exists embeddings,
    Async.run twoWords (getBatchEmbeddings [js "sad"; js "angry"])
    = Some embeddings
    /\ JsObject.keys embeddings = [js "sad"; js "angry"]
    /\ JsObject.get (js "angry") embeddings = Some Null.
Proof.
  destruct (getBatchEmbeddings_object twoWords [js "sad"; js "angry"])
    as (embeddings & Hrun & _ & Hkeys).
  destruct Hkeys as (_ & _ & Hget & Horder);
    [apply (bool_decide_unpack _); vm_compute; exact I|].
  exists embeddings. split; [exact Hrun|]. split.
  - apply Horder; [apply (bool_decide_unpack _); vm_compute; exact I|].
    repeat constructor.
  - apply (Hget (js "angry")). right. left.
Defined.

(** Keys that are array indices come first, in ascending order; a text
    given twice has one key, at the place of its first occurrence; the
    word the API fails on holds null. *)
Example getBatchEmbeddings_order :
  option_map
    (map (fun entry : jsstring * Embedding => (entry.1, truthy entry.2)))
    (Async.run twoWords
       (getBatchEmbeddings [js "sad"; js "10"; js "happy"; js "9"; js "sad"]))
  = Some [(js "9", None); (js "10", None);
          (js "sad", Some [(-1)%Q; 0%Q]); (js "happy", Some [1%Q; 0%Q])]
  /\ length (Async.trace twoWords
               (getBatchEmbeddings
                  [js "sad"; js "10"; js "happy"; js "9"; js "sad"]))
     = 10%nat.
Proof. split; reflexivity. Qed.

(** The health check passes on a response whose embedding has no
    values: undefined is not null. *)
Example healthCheck_undefined :
  Async.run
    (fun request =>
       match request return Response request with
       | EmbedContent _ _ =>
           Ok {| embeddings := Some [ {| values := None |} ] |}
       | SetTimeout _ => tt
       end)
    healthCheck
  = Some true.
Proof. reflexivity. Qed.

End EmbeddingsExample.

(** ** PineconeVectorService: [storeChunks] *)

Lemma slice_window {A : Type} (l : list A) (i n : Z) :
  0 <= i < Z.of_nat (length l) -> 0 <= n ->
  slice l i (i + n) = take (Z.to_nat n) (drop (Z.to_nat i) l).
Proof.
  intros Hi Hn. unfold slice, slice_bound.
  destruct (i <? 0) eqn:E1; [lia|]. destruct (i + n <? 0) eqn:E2; [lia|].
  rewrite (Z.min_l i) by lia.
  destruct (Z_le_dec (i + n) (Z.of_nat (length l))) as [Hle|Hgt].
  - rewrite Z.min_l by lia. f_equal. lia.
  - rewrite Z.min_r by lia.
    transitivity (drop (Z.to_nat i) l).
    + apply take_ge. rewrite length_drop. lia.
    + symmetry. apply take_ge. rewrite length_drop. lia.
Qed.

Section Upserts.

Import PineconeVectorService.

Variable answer : forall request, Response request.

Implicit Types (vectors : list Vector) (namespace : jsstring).

Lemma upsertLoop_done fuel vectors namespace (i : Z) :
  (1 <= fuel)%nat -> Z.of_nat (length vectors) <= i ->
  upsertLoop fuel vectors namespace i = Async.Ret (Ok true).
Proof.
  intros Hfuel Hi. destruct fuel as [|fuel]; [lia|]. simpl.
  destruct (i <? Z.of_nat (length vectors)) eqn:E; [lia | reflexivity].
Qed.

(** The loop upserts consecutive batches of 100 vectors, the last one
    possibly shorter, until all are upserted or one upsert is
    rejected. *)
Lemma upsertLoop_batches fuel vectors namespace (i : Z) :
  (1 <= fuel)%nat -> 0 <= i ->
  Z.of_nat (length vectors) - i <= 100 * (Z.of_nat fuel - 1) ->
  exists (stored : bool) (batches : list (list Vector)),
    Async.run answer (upsertLoop fuel vectors namespace i) = Some (Ok stored)
    /\ Async.trace answer (upsertLoop fuel vectors namespace i)
       = map (Upsert namespace) batches
    /\ Forall (fun b => (1 <= length b <= 100)%nat) batches
    /\ (forall (k : nat) b,
          batches !! k = Some b -> (S k < length batches)%nat ->
          length b = 100%nat)
    /\ (exists rest,
          concat batches ++ rest = drop (Z.to_nat i) vectors
          /\ (stored = true -> rest = []))
    /\ (stored = true ->
        Forall (fun b => exists u, answer (Upsert namespace b) = Ok u) batches)
    /\ (stored = false ->
        exists b e, last batches = Some b
                    /\ answer (Upsert namespace b) = Throw e).
Proof.
  revert i. induction fuel as [|fuel IH]; intros i Hfuel Hi Hmeasure; [lia|].
  simpl. destruct (i <? Z.of_nat (length vectors)) eqn:Hlt.
  - apply Z.ltb_lt in Hlt.
    assert (Hbatch : slice vectors i (i + batchSize)
                     = take 100 (drop (Z.to_nat i) vectors)).
    { unfold batchSize. now rewrite slice_window by lia. }
    assert (Hlen : length (slice vectors i (i + batchSize))
                   = Nat.min 100 (length vectors - Z.to_nat i)).
    { now rewrite Hbatch, length_take, length_drop. }
    simpl.
    destruct (answer (Upsert namespace (slice vectors i (i + batchSize))))
      as [u|e] eqn:Hanswer.
    + destruct (IH (i + batchSize)) as
        (stored & batches & Hrun & Htrace & Hsizes & Hfull & Hrest & Hok & Hfail);
        [unfold batchSize in *; lia..|].
      exists stored, (slice vectors i (i + batchSize) :: batches).
      split; [exact Hrun|]. split; [simpl; now rewrite Htrace|].
      split; [constructor; [lia | exact Hsizes]|].
      split; [|split; [|split]].
      * intros [|k] b Hk Hmore; simpl in Hk, Hmore.
        -- injection Hk as <-. rewrite Hlen.
           destruct (Z_le_dec (Z.of_nat (length vectors)) (i + batchSize))
             as [Hend|Hgo]; [|unfold batchSize in Hgo; lia].
           rewrite upsertLoop_done in Htrace by (unfold batchSize in *; lia).
           simpl in Htrace. symmetry in Htrace.
           apply map_eq_nil in Htrace. subst batches. simpl in Hmore. lia.
        -- apply (Hfull k b Hk). lia.
      * destruct Hrest as (rest & Hconcat & Hnil).
        exists rest. split; [|exact Hnil]. simpl.
        rewrite <- app_assoc, Hconcat, Hbatch.
        replace (Z.to_nat (i + batchSize)) with (Z.to_nat i + 100)%nat
          by (unfold batchSize; lia).
        rewrite <- drop_drop. apply take_drop.
      * intros Hs. constructor; [eauto | now apply Hok].
      * intros Hs. destruct (Hfail Hs) as (b & e & Hlast & Hb).
        exists b, e. split; [|exact Hb].
        destruct batches as [|b0 batches']; [discriminate|].
        exact Hlast.
    + exists false, [slice vectors i (i + batchSize)].
      split; [reflexivity|]. split; [reflexivity|].
      split; [constructor; [lia | constructor]|]. split; [|split; [|split]].
      * intros k b Hk Hmore. simpl in Hmore. lia.
      * exists (drop 100 (drop (Z.to_nat i) vectors)).
        split; [|discriminate]. simpl. rewrite app_nil_r, Hbatch.
        apply take_drop.
      * discriminate.
      * intros _. eauto.
  - apply Z.ltb_ge in Hlt.
    exists true, []. split; [reflexivity|]. split; [reflexivity|].
    split; [constructor|]. split; [|split; [|split]].
    + intros k b Hk. discriminate.
    + exists []. split; [|reflexivity]. simpl.
      symmetry. apply drop_ge. lia.
    + constructor.
    + discriminate.
Qed.

(** [storeChunks] rejects when the index was never set, and otherwise
    always resolves.  It upserts the vectors of the chunks in their
    order, in batches of 100 (the last one possibly shorter, none
    empty), one call per batch.  It resolves to true when every upsert
    was accepted, and then every vector was sent exactly once; it
    resolves to false at the first rejected upsert, after which nothing
    more is sent: the batches before the rejected one stay stored. *)
Theorem storeChunks_batches (this : PineconeVectorService.t)
    (chunks : list (Chunk.t * option Vec)) namespace :
  (index this = false ->
     storeChunks this chunks namespace = Async.Ret (Throw notInitialized))
  /\ (index this = true ->
      exists (stored : bool) (batches : list (list Vector)),
        Async.run answer (storeChunks this chunks namespace) = Some (Ok stored)
        /\ Async.trace answer (storeChunks this chunks namespace)
           = map (Upsert namespace) batches
        /\ Forall (fun b => (1 <= length b <= 100)%nat) batches
        /\ (forall (k : nat) b,
              batches !! k = Some b -> (S k < length batches)%nat ->
              length b = 100%nat)
        /\ (exists rest,
              concat batches ++ rest = map toVector chunks
              /\ (stored = true -> rest = []))
        /\ (stored = true ->
            Forall (fun b => exists u, answer (Upsert namespace b) = Ok u)
                   batches)
        /\ (stored = false ->
            exists b e, last batches = Some b
                        /\ answer (Upsert namespace b) = Throw e)).
Proof.
  unfold storeChunks. split; intros Hindex; rewrite Hindex; [reflexivity|].
  simpl.
  apply (upsertLoop_batches (S (length (map toVector chunks)))
           (map toVector chunks) namespace 0); lia.
Qed.

Lemma storeChunks_settles (this : PineconeVectorService.t)
    (chunks : list (Chunk.t * option Vec)) namespace :
  index this = true ->
  exists stored : bool,
    Async.run answer (storeChunks this chunks namespace) = Some (Ok stored).
Proof.
  intros Hindex. unfold storeChunks. rewrite Hindex. simpl.
  destruct (upsertLoop_batches (S (length (map toVector chunks)))
              (map toVector chunks) namespace 0) as (stored & _ & Hrun & _);
    [lia..|].
  eauto.
Qed.

End Upserts.

(** ** The controller over the repository's services *)

Section Wired.

Import RAGController.

Variable gen : forall request, EmbeddingService.Response request.
Variable pine : forall request, PineconeVectorService.Response request.
Variable vectorService : PineconeVectorService.t.
Hypothesis index_set : PineconeVectorService.index vectorService = true.

(** With the services of the repository behind it, [addDocument] on an
    initialized controller settles to true whatever the two remote
    APIs answer: an embedding that failed becomes a null in the batch,
    a rejected upsert becomes the false that [storeChunks] resolves to,
    and the controller reads neither. *)
Theorem wired_addDocument this id title content metadata namespace now :
  isInitialized this = true ->
  DocumentService.chunkStep (documentService this) <> 0 ->
  exists this',
    run (wired gen pine vectorService)
        (addDocument this id title content metadata namespace now)
    = Some (Ok true, this').
Proof.
  intros Hinit Hstep. unfold addDocument. rewrite Hinit. simpl.
  destruct (createChunks_terminates (documentService this) content id title
              Hstep) as [chunks Hc].
  unfold DocumentService.addDocument. rewrite Hc. simpl.
  match goal with
  | |- context [PineconeVectorService.storeChunks vectorService ?cs namespace] =>
      destruct (storeChunks_settles pine vectorService cs namespace index_set)
        as [stored Hstored]
  end.
  unfold settled at 1. rewrite Hstored. simpl. eauto.
Qed.

(** With the services of the repository behind it, [search] on an
    initialized controller settles to null exactly when the query has
    no embedding (the API call failed or the response held no values).
    A rejected vector query does not make it null: the result then
    lists no match. *)
Theorem wired_search this query topK namespace filter :
  isInitialized this = true ->
  exists r,
    run (wired gen pine vectorService) (search this query topK namespace filter)
    = Some (Ok r, this)
    /\ match EmbeddingService.truthy (resolved gen query) with
       | None => r = None
       | Some queryEmbedding =>
           exists found,
             r = Some found
             /\ totalResults found
                = match pine (PineconeVectorService.Query namespace
                                queryEmbedding topK filter) with
                  | Ok matches => length matches
                  | Throw _ => O
                  end
             /\ length (results found) = totalResults found
       end.
Proof.
  intros Hinit. unfold search. rewrite Hinit. simpl.
  unfold settled at 1.
  rewrite (proj1 (getEmbedding_run gen query)). simpl.
  destruct (EmbeddingService.truthy (resolved gen query)) as [v|]; simpl.
  - unfold settled, PineconeVectorService.searchSimilar.
    rewrite index_set. simpl.
    destruct (pine (PineconeVectorService.Query namespace v topK filter))
      as [matches|e]; simpl.
    + eexists. split; [reflexivity|]. eexists. split; [reflexivity|]. simpl.
      split; [apply length_map|]. unfold indexed.
      now rewrite length_map, length_imap.
    + eexists. split; [reflexivity|]. eexists. split; [reflexivity|].
      split; reflexivity.
  - eexists. split; reflexivity.
Qed.

End Wired.

Section WiredExample.

Import RAGController.

Lemma wired_addDocument_rejecting :
  exists this',
    run (wired twoWords rejecting connected)
        (addDocument ready (js "d1") (js "T") (js "a b c") [] (js "default")
           (js "t0"))
    = Some (Ok true, this').
Proof.
  apply (wired_addDocument twoWords rejecting connected eq_refl ready).
  - reflexivity.
  - vm_compute. discriminate.
Defined.

Lemma wired_search_rejecting :
  exists r,
    run (wired twoWords rejecting connected)
        (search ready (js "happy") 5 (js "default") None)
    = Some (Ok r, ready)
    /\ match EmbeddingService.truthy (resolved twoWords (js "happy")) with
       | None => r = None
       | Some queryEmbedding =>
           exists found,
             r = Some found
             /\ totalResults found
                = match rejecting (PineconeVectorService.Query (js "default")
                                     queryEmbedding 5 None) with
                  | Ok matches => length matches
                  | Throw _ => O
                  end
             /\ length (results found) = totalResults found
       end.
Proof.
  apply (wired_search twoWords rejecting connected eq_refl ready).
  reflexivity.
Defined.

(** The API fails on every chunk text and every upsert is rejected:
    the controller reports success and the vector service was asked
    once; a query the API has no embedding for gives null, one it has
    an embedding for gives an empty result. *)
Example wired_session :
  option_map fst
    (run (wired twoWords rejecting connected)
         (addDocument ready (js "d1") (js "T") (js "a b c") [] (js "default")
            (js "t0")))
  = Some (Ok true)
  /\ option_map fst
       (run (wired twoWords rejecting connected)
            (search ready (js "angry") 5 (js "default") None))
     = Some (Ok None)
  /\ match run (wired twoWords rejecting connected)
               (search ready (js "happy") 5 (js "default") None) with
     | Some (Ok (Some found), _) => totalResults found = O
     | _ => False
     end.
Proof. split; [reflexivity|]. split; reflexivity. Qed.

Example storeChunks_250 :
  map (fun request =>
         match request with
         | PineconeVectorService.Upsert _ batch => length batch
         | _ => O
         end)
      (Async.trace
         (fun request =>
            match request return PineconeVectorService.Response request with
            | PineconeVectorService.Query _ _ _ _ => Ok []
            | _ => Ok tt
            end)
         (PineconeVectorService.storeChunks connected
            (replicate 250
               ({| Chunk.id := js "c"; Chunk.documentId := js "d";
                   Chunk.documentTitle := js "T"; Chunk.content := js "x";
                   Chunk.startPosition := 0; Chunk.endPosition := 1;
                   Chunk.chunkIndex := 0; Chunk.wordCount := 1 |}, None))
            (js "default")))
  = [100%nat; 100%nat; 50%nat].
Proof. vm_compute. reflexivity. Qed.

End WiredExample.

(** ** [createChunks]: the overlap *)

Section ChunkOverlap.

Import DocumentService.

(** Consecutive chunks overlap as configured: when the step is at
    least one word and at most the window, a chunk holds between one
    and [avgWordsPerChunk] words, and what it holds behind its first
    [step] words is what the next chunk begins with, [overlapWords]
    words of it (all of it when the next chunk is shorter). *)
Theorem createChunks_overlap this content documentId title :
  1 <= chunkStep this <= avgWordsPerChunk this ->
  exists chunks,
    createChunks this content documentId title = Some chunks
    /\ forall (k : nat) c,
         chunks !! k = Some c ->
         Chunk.content c
         = join (js " ")
             (chunkWordsAt this (split_ws content) (Z.of_nat k * chunkStep this))
         /\ Chunk.wordCount c
            = length (chunkWordsAt this (split_ws content)
                        (Z.of_nat k * chunkStep this))
         /\ (1 <= Z.of_nat (Chunk.wordCount c) <= avgWordsPerChunk this)
         /\ forall c',
              chunks !! S k = Some c' ->
              drop (Z.to_nat (chunkStep this))
                   (chunkWordsAt this (split_ws content)
                      (Z.of_nat k * chunkStep this))
              = take (Z.to_nat (overlapWords this))
                     (chunkWordsAt this (split_ws content)
                        (Z.of_nat (S k) * chunkStep this)).
Proof.
  intros [Hs1 Hs2].
  destruct (createChunks_terminates this content documentId title)
    as [chunks Hch]; [lia|].
  exists chunks. split; [exact Hch|].
  apply createChunks_windowed in Hch as (Hch & Hkept & _).
  remember (length chunks) as n eqn:Hn. clear Hn.
  set (words := split_ws content) in *.
  assert (Hwindow : forall j : nat,
            (j < n)%nat ->
            chunkWordsAt this words (Z.of_nat j * chunkStep this)
            = take (Z.to_nat (avgWordsPerChunk this))
                   (drop (Z.to_nat (Z.of_nat j * chunkStep this)) words)
            /\ Z.of_nat j * chunkStep this < Z.of_nat (length words)).
  { intros j Hj. destruct (Hkept j Hj) as [Hlt _].
    unfold windowStart in Hlt. split; [|exact Hlt].
    unfold chunkWordsAt. apply slice_window; [nia | lia]. }
  intros k c Hk. rewrite Hch, list_lookup_fmap in Hk.
  destruct (seq 0 n !! k) as [k'|] eqn:Ek; [|discriminate].
  apply lookup_seq in Ek as [-> Hlt]. simpl in Hk. injection Hk as <-.
  destruct (Hwindow k Hlt) as [Hwk Hstart].
  split; [reflexivity|]. split; [reflexivity|]. split.
  - simpl. unfold windowStart. rewrite Hwk, length_take, length_drop. nia.
  - intros c' Hk'. rewrite Hch, list_lookup_fmap in Hk'.
    destruct (seq 0 n !! S k) as [k'|] eqn:Ek'; [|discriminate].
    apply lookup_seq in Ek' as [_ Hlt']. clear Hk'.
    destruct (Hwindow (S k) Hlt') as [Hwk' _].
    rewrite Hwk, Hwk'.
    replace (Z.to_nat (Z.of_nat (S k) * chunkStep this))
      with (Z.to_nat (Z.of_nat k * chunkStep this) + Z.to_nat (chunkStep this))%nat
      by nia.
    rewrite <- drop_drop, take_take.
    replace (Z.to_nat (overlapWords this) `min` Z.to_nat (avgWordsPerChunk this))%nat
      with (Z.to_nat (avgWordsPerChunk this) - Z.to_nat (chunkStep this))%nat
      by (unfold chunkStep in *; lia).
    generalize (drop (Z.to_nat (Z.of_nat k * chunkStep this)) words).
    intros rest. rewrite take_drop_commute. do 2 f_equal. lia.
Qed.

Lemma createChunks_overlap_example :
  exists chunks,
    createChunks twoWordChunks (js "a b c") (js "d1") (js "T") = Some chunks
    /\ forall (k : nat) c,
         chunks !! k = Some c ->
         Chunk.content c
         = join (js " ")
             (chunkWordsAt twoWordChunks (split_ws (js "a b c"))
                (Z.of_nat k * chunkStep twoWordChunks))
         /\ Chunk.wordCount c
            = length (chunkWordsAt twoWordChunks (split_ws (js "a b c"))
                        (Z.of_nat k * chunkStep twoWordChunks))
         /\ (1 <= Z.of_nat (Chunk.wordCount c) <= avgWordsPerChunk twoWordChunks)
         /\ forall c',
              chunks !! S k = Some c' ->
              drop (Z.to_nat (chunkStep twoWordChunks))
                   (chunkWordsAt twoWordChunks (split_ws (js "a b c"))
                      (Z.of_nat k * chunkStep twoWordChunks))
              = take (Z.to_nat (overlapWords twoWordChunks))
                     (chunkWordsAt twoWordChunks (split_ws (js "a b c"))
                        (Z.of_nat (S k) * chunkStep twoWordChunks)).
Proof.
  apply (createChunks_overlap twoWordChunks (js "a b c") (js "d1") (js "T")).
  vm_compute. split; discriminate.
Defined.

End ChunkOverlap.

(** ** The word controller over the repository's embedding service *)

Section Returns.

Import SimilarityService.

Variable cosineSimilarity : Vec -> Vec -> result Q.

Lemma clusterByThreshold_returns (wordEmbeddings : WordEmbeddings)
    (threshold : Q) :
  NoDup (keys wordEmbeddings) ->
  (forall w e, (w, e) ∈ wordEmbeddings -> is_Some e) ->
  (forall w1 v1 w2 v2,
      (w1, Some v1) ∈ wordEmbeddings -> (w2, Some v2) ∈ wordEmbeddings ->
      w1 <> w2 -> exists q, cosineSimilarity v1 v2 = Ok q) ->
  exists clusters,
    clusterByThreshold cosineSimilarity wordEmbeddings threshold = Ok clusters.
Proof.
  intros Hnd Hall Hcos. unfold clusterByThreshold.
  destruct (foldM_returns
              (clusterFrom cosineSimilarity wordEmbeddings threshold
                 (keys wordEmbeddings))
              (keys wordEmbeddings) (fun _ => True)
              {| visited := ∅; clusters := [] |} I) as [st ->];
    [|simpl; eauto].
  intros w s1 Hw _. unfold clusterFrom.
  destruct (bool_decide (w ∈ visited s1)); [eauto|].
  apply list_elem_of_fmap in Hw as ([w' e] & -> & Hin). simpl.
  destruct (Hall w' e Hin) as [v ->].
  destruct (findMostSimilar_returns cosineSimilarity w' wordEmbeddings
              (Z.of_nat (length (keys wordEmbeddings)) - 1) v) as [res ->].
  - now apply embeddingOf_In.
  - intros w2 v2 Hin2 Hne. apply (Hcos w' v w2 v2 Hin Hin2). congruence.
  - simpl. eauto.
Qed.

End Returns.

Section WiredWords.

Import WordClusteringController.

Variable cosineSimilarity : Vec -> Vec -> result Q.
Variable inherits : jsstring -> bool.
Variable inheritedMember : jsstring -> jsstring -> result bool.
Variable divide : nat -> nat -> option Q.
Variable toFixed : nat -> Q -> Q.
Variable gen : forall request, EmbeddingService.Response request.
Variable pine : forall request, PineconeVectorService.Response request.
Variable vectorService : PineconeVectorService.t.

Implicit Types (texts : list jsstring) (w k : jsstring).

#[local] Abbreviation batch texts :=
  (asWordEmbeddings
     (settled gen (EmbeddingService.getBatchEmbeddings texts) [])).

Lemma keys_asWordEmbeddings (o : JsObject.t EmbeddingService.Embedding) :
  SimilarityService.keys (asWordEmbeddings o) = JsObject.keys o.
Proof.
  unfold SimilarityService.keys, asWordEmbeddings, JsObject.keys.
  rewrite map_map. reflexivity.
Qed.

Lemma embeddingOf_asWordEmbeddings
    (o : JsObject.t EmbeddingService.Embedding) k :
  SimilarityService.embeddingOf (asWordEmbeddings o) k
  = JsObject.get k o ≫= EmbeddingService.truthy.
Proof.
  unfold SimilarityService.embeddingOf, JsObject.get, asWordEmbeddings.
  induction o as [|[k' e] o IH]; simpl; [reflexivity|].
  destruct (decide (k' = k)); [reflexivity | exact IH].
Qed.

(** The batch as the similarity service reads it: one key for every
    text, holding the embedding of the text or null. *)
Lemma batch_read texts :
  NoDup (SimilarityService.keys (batch texts))
  /\ (forall k, k ∈ SimilarityService.keys (batch texts) <-> k ∈ texts)
  /\ forall w, w ∈ texts ->
       SimilarityService.embeddingOf (batch texts) w
       = EmbeddingService.truthy (resolved gen w).
Proof.
  assert (Hobj : settled gen (EmbeddingService.getBatchEmbeddings texts) []
                 = fold_left
                     (fun o text => JsObject.set text (resolved gen text) o)
                     texts []).
  { unfold settled, EmbeddingService.getBatchEmbeddings.
    now rewrite (proj1 (batchLoop_run gen texts JsObject.empty)). }
  rewrite Hobj. destruct (stored_keys gen texts) as (H1 & H2 & H3 & _).
  rewrite keys_asWordEmbeddings. split; [exact H1|]. split; [exact H2|].
  intros w Hw. rewrite embeddingOf_asWordEmbeddings, (H3 w Hw). reflexivity.
Qed.

Lemma healthCheck_run :
  settled gen EmbeddingService.healthCheck false
  = match resolved gen (js "test") with
    | EmbeddingService.Null => false
    | _ => true
    end.
Proof.
  unfold settled, EmbeddingService.healthCheck.
  rewrite run_andThen, (proj1 (getEmbedding_run gen (js "test"))).
  reflexivity.
Qed.

(** With the repository's embedding service behind it and no word
    being [__proto__], [analyzeWordClusters] returns null as soon as
    the API fails for one of the words.  When the API answers the
    health check and gives an embedding for every word, the library
    scores every two of them and no word names a property that objects
    inherit, it returns a result in which every word is in exactly one
    cluster, a word given twice being counted once. *)
Theorem wired_analyzeWordClusters (words : list jsstring) (threshold : Q) :
  js "__proto__" ∉ words ->
  ((exists w, w ∈ words /\ EmbeddingService.truthy (resolved gen w) = None) ->
   RAGController.run (wired gen pine vectorService)
     (analyzeWordClusters cosineSimilarity inherits inheritedMember divide
        toFixed words threshold)
   = Some None)
  /\ (resolved gen (js "test") <> EmbeddingService.Null ->
      (forall w, w ∈ words -> inherits w = false) ->
      (forall w, w ∈ words ->
                 is_Some (EmbeddingService.truthy (resolved gen w))) ->
      (forall w1 w2 v1 v2,
          w1 ∈ words -> w2 ∈ words -> w1 <> w2 ->
          EmbeddingService.truthy (resolved gen w1) = Some v1 ->
          EmbeddingService.truthy (resolved gen w2) = Some v2 ->
          exists q, cosineSimilarity v1 v2 = Ok q) ->
      exists res,
        RAGController.run (wired gen pine vectorService)
          (analyzeWordClusters cosineSimilarity inherits inheritedMember
             divide toFixed words threshold)
        = Some (Some res)
        /\ NoDup (concat (clusters res))
        /\ (forall w, w ∈ concat (clusters res) <-> w ∈ words)
        /\ clusterCount res = length (clusters res)
        /\ totalWords (analysis res) = length (concat (clusters res))).
Proof.
  intros _.
  destruct (batch_read words) as (Hnd & Hkeys & Hread).
  split.
  - intros (w & Hw & Hnone).
    unfold analyzeWordClusters, await. simpl.
    destruct (settled gen EmbeddingService.healthCheck false); [|reflexivity].
    simpl. unfold calling.
    destruct (SimilarityService.clusterByThreshold cosineSimilarity
                (batch words) threshold) as [cl|e] eqn:Ecl; [|reflexivity].
    exfalso.
    apply clusterByThreshold_Ok in Ecl as (st & [_ _ H3 H4 _] & _);
      [|exact Hnd].
    destruct (H4 w) as [_ [v Hv]]; [apply H3; now apply Hkeys|].
    rewrite (Hread w Hw), Hnone in Hv. discriminate.
  - intros Htest Hplain Hall Hcos.
    assert (Hentry : forall w v, (w, Some v) ∈ batch words ->
              w ∈ words /\ EmbeddingService.truthy (resolved gen w) = Some v).
    { intros w v Hin.
      assert (Hw : w ∈ words).
      { apply Hkeys. apply list_elem_of_fmap. now exists (w, Some v). }
      split; [exact Hw|]. rewrite <- (Hread w Hw).
      now apply embeddingOf_In. }
    assert (Hlib : forall w1 v1 w2 v2,
              (w1, Some v1) ∈ batch words -> (w2, Some v2) ∈ batch words ->
              w1 <> w2 -> exists q, cosineSimilarity v1 v2 = Ok q).
    { intros w1 v1 w2 v2 H1 H2 Hne.
      destruct (Hentry w1 v1 H1) as [Hw1 Hv1].
      destruct (Hentry w2 v2 H2) as [Hw2 Hv2].
      exact (Hcos w1 w2 v1 v2 Hw1 Hw2 Hne Hv1 Hv2). }
    destruct (clusterByThreshold_returns cosineSimilarity (batch words)
                threshold Hnd) as [cl Hcl]; [|exact Hlib|].
    { intros w [v|] Hin; [eauto|]. exfalso.
      assert (Hw : w ∈ words).
      { apply Hkeys. apply list_elem_of_fmap. now exists (w, None). }
      destruct (Hall w Hw) as [v Hv].
      rewrite <- (Hread w Hw), (embeddingOf_None_In _ _ Hnd Hin) in Hv.
      discriminate. }
    destruct (createSimilarityMatrix_returns cosineSimilarity inherits
                inheritedMember (batch words) Hnd) as [m Hm];
      [intros w Hw; apply Hplain; now apply Hkeys | exact Hlib |].
    pose proof (clusterByThreshold_Ok cosineSimilarity _ _ _ Hnd Hcl)
      as (st & [H1 H2 H3 H4 _] & Hst).
    assert (Hrun :
      RAGController.run (wired gen pine vectorService)
        (analyzeWordClusters cosineSimilarity inherits inheritedMember divide
           toFixed words threshold)
      = Some (Some {| words := words;
                      clusters := cl;
                      similarityMatrix := m;
                      WordClusteringController.threshold := threshold;
                      clusterCount := length cl;
                      analysis := generateClusterAnalysis divide toFixed cl |})).
    { unfold analyzeWordClusters, await. simpl. rewrite healthCheck_run.
      destruct (resolved gen (js "test")); [| |contradiction]; simpl;
        unfold calling; rewrite Hcl, Hm; reflexivity. }
    eexists. split; [exact Hrun|]. simpl. subst cl.
    split; [exact H2|]. split; [|split; [reflexivity|]].
    + intros w. rewrite <- H1, <- Hkeys. split; [apply H4 | apply H3].
    + now rewrite fold_left_sum, length_concat.
Qed.


End WiredWords.

Section WiredWordsExample.

Import WordClusteringController.
Local Open Scope Q_scope.

(** One word the API fails on voids the analysis; the two words it
    knows are analysed, the one given twice counted once. *)
Example wired_analyzeWordClusters_twoWords :
  RAGController.run (wired twoWords rejecting connected)
    (analyzeWordClusters unitCosine standardInherits standardMember
       (fun _ _ => None) (fun _ x => x)
       [js "happy"; js "sad"; js "angry"] 0.7)
  = Some None
  /\ option_map
       (option_map (fun res => (clusters res, totalWords (analysis res))))
       (RAGController.run (wired everyWord rejecting connected)
          (analyzeWordClusters unitCosine standardInherits standardMember
             (fun _ _ => None) (fun _ x => x)
             [js "happy"; js "sad"; js "happy"] 0.7))
     = Some (Some ([[js "happy"; js "sad"]], 2%nat)).
Proof. split; vm_compute; reflexivity. Qed.

Lemma wired_analyzeWordClusters_everyWord :
  exists res,
    RAGController.run (wired everyWord rejecting connected)
      (analyzeWordClusters unitCosine standardInherits standardMember
         (fun _ _ => None) (fun _ x => x)
         [js "happy"; js "sad"; js "happy"] 0.7)
    = Some (Some res)
    /\ NoDup (concat (clusters res))
    /\ (forall w, w ∈ concat (clusters res)
                  <-> w ∈ [js "happy"; js "sad"; js "happy"])
    /\ clusterCount res = length (clusters res)
    /\ totalWords (analysis res) = length (concat (clusters res)).
Proof.
  apply (proj2 (wired_analyzeWordClusters unitCosine standardInherits
                  standardMember (fun _ _ => None)
                  (fun _ x => x) everyWord rejecting connected
                  [js "happy"; js "sad"; js "happy"] 0.7
                  ltac:(apply (bool_decide_unpack _); vm_compute; exact I))).
  - discriminate.
  - intros w Hw.
    repeat (apply elem_of_cons in Hw as [->|Hw]; [reflexivity|]).
    now apply elem_of_nil in Hw.
  - intros w _. simpl. eauto.
  - intros w1 w2 v1 v2 _ _ _ [= <-] [= <-]. simpl. eauto.
Defined.

Example wired_findSimilarWords_twoWords :
  option_map
    (option_map (fun res => map SimilarityService.word (similarWords res)))
    (RAGController.run (wired twoWords rejecting connected)
       (findSimilarWords unitCosine (js "happy")
          [js "sad"; js "happy"; js "angry"] 5))
  = Some (Some [js "sad"])
  /\ RAGController.run (wired twoWords rejecting connected)
       (findSimilarWords unitCosine (js "angry") [js "sad"; js "happy"] 5)
     = Some None.
Proof. split; vm_compute; reflexivity. Qed.

End WiredWordsExample.
